(** * Risk synthesis engine of construction-site-intel: model and properties

    Shallow embedding of the v2 synthesis module (rule resolver, action
    resolver, contingency resolver, confidence scorer and the seeded
    Monte Carlo estimator).

    Conventions of the model.
    - A JavaScript number that the code only uses as a 32-bit integer, a
      length, an index or a rank is a [Z]; the coercions of the bit
      operators ([ToInt32], [ToUint32]) are written out.
    - Every other JavaScript number is a real number of [R]: the model
      describes the exact arithmetic that the doubles approximate.
      Rounding error, overflow and NaN of IEEE-754 doubles are outside it.
      The confidence scorer, whose result turns on a tie of [Math.round],
      is given a second time on binary64 numbers ([Double]).
    - A string that is only compared is a [string]; the seed key, whose
      UTF-16 code units are hashed, is the list of its code units.
    - The closure returned by [createRng] owns one mutable variable; it is
      modelled by state passing on that variable.  [Store] places that
      variable among the variables of all closures and the globals, for
      what an invocation can and cannot reach.
    - A [TypeError] thrown by a property access on [undefined] is the
      [TypeError] constructor of [result]. *)

From Stdlib Require Import ZArith Reals Lra Lia List String Ascii Bool.
From Stdlib Require Import Sorted Permutation.
From Stdlib Require Floats Uint63.
Import ListNotations.

Open Scope Z_scope.

(** ** JavaScript numbers *)

Module Js.

(** [x >>> 0] and [ToUint32]. *)
Definition toUint32 (x : Z) : Z := x mod 4294967296.

(** [ToInt32], the coercion applied by [^] and [Math.imul]. *)
Definition toInt32 (x : Z) : Z :=
  let u := x mod 4294967296 in
  if 2147483648 <=? u then u - 4294967296 else u.

(** [a ^ b]. *)
Definition xor (a b : Z) : Z := Z.lxor (toInt32 a) (toInt32 b).

(** [Math.imul(a, b)]. *)
Definition imul (a b : Z) : Z := toInt32 (toInt32 a * toInt32 b).

(** [Math.floor]. *)
Definition floor (x : R) : Z := (up x - 1)%Z.

(** [Math.round]: the nearest integer, a tie going up. *)
Definition round (x : R) : Z := floor (x + / 2).

(** [a <= b] and [a < b] on numbers, as tests. *)
Definition leb (a b : R) : bool := if Rle_dec a b then true else false.
Definition ltb (a b : R) : bool := if Rlt_dec a b then true else false.

(** [Math.sqrt]. *)
Definition sqrt (x : R) : R := R_sqrt.sqrt x.

(** [s.charCodeAt(i)] for every [i], for a string of Latin-1 characters. *)
Fixpoint codeUnits (s : string) : list Z :=
  match s with
  | EmptyString => []
  | String c r => Z.of_nat (nat_of_ascii c) :: codeUnits r
  end.

(** The outcome of code that may throw. *)
Inductive result (A : Type) : Type :=
  | Ok (a : A)
  | TypeError.
Arguments Ok {A} a.
Arguments TypeError {A}.

(** [Array.prototype.sort(cmp)].  The sort is stable and, for a comparator
    that is a consistent ordering, its result is the one stable ordering of
    the input; only the sign of [cmp(a, b)] matters.  [before a b] is the
    test [cmp(a, b) <= 0]. *)
Section Sort.
Context {A : Type} (before : A -> A -> bool).

Fixpoint insert (x : A) (l : list A) : list A :=
  match l with
  | [] => [x]
  | y :: r => if before x y then x :: y :: r else y :: insert x r
  end.

Fixpoint sort (l : list A) : list A :=
  match l with
  | [] => []
  | x :: r => insert x (sort r)
  end.
End Sort.

End Js.

(** ** Seeding and the generator *)

(** The UTF-16 code units of a seed key. *)
Definition seedKey := list Z.

Definition hashSeed (input : seedKey) : Z :=
  let hash :=
    fold_left (fun hash c => Js.imul (Js.xor hash c) 16777619)
              input 2166136261 in
  Js.toUint32 hash.

(** The variable [state] captured by the closure that [createRng] returns. *)
Definition rngState := Z.

(** [let state = seed || 1]. *)
Definition createRng (seed : Z) : rngState :=
  if seed =? 0 then 1 else seed.

(** One call of the closure: the value returned and the new [state]. *)
Definition rng (state : rngState) : R * rngState :=
  let state' := Js.toUint32 (Js.imul 1664525 state + 1013904223) in
  ((IZR state' / 4294967296)%R, state').

(** The spec's words for the two steps, on naturals below 2^32. *)
Module SpecRng.

Definition fnv1a_step (h c : Z) : Z :=
(Z.lxor h c * 16777619) mod 2 ^ 32.

Definition fnv1a (s : list Z) : Z := fold_left fnv1a_step s 2166136261.

Definition lcg (state : Z) : Z := (1664525 * state + 1013904223) mod 2 ^ 32.

End SpecRng.

(** ** Data model ([types.ts], [types-v2.ts] and the types of the module) *)

(** [Signal["severity"]]. *)
Inductive Severity : Type := High | Medium | Low | Unknown.

(** [SeverityKey]: the severities that key a rule's [deltas]. *)
Inductive SeverityKey : Type := KHigh | KMedium | KLow.

(** A [SeverityKey] is a [Severity]. *)
Definition ofKey (k : SeverityKey) : Severity :=
  match k with KHigh => High | KMedium => Medium | KLow => Low end.

Inductive ImpactType : Type :=
  Capex | GeneralConditions | Insurance | Schedule.

Inductive Owner : Type :=
  Estimator | ProjectManager | CivilEngineer | StructuralEngineer | Geotech.

Inductive DuePhase : Type :=
  Bid | DesignDevelopment | Permit | Procurement | Mobilization.

Inductive Priority : Type := PHigh | PMedium | PLow.

Module Signal.
Record t : Type := mk {
  id : string;
  label : string;
  value : string;
  severity : Severity;
  explanation : string
}.
End Signal.

(** [{ min: number; max: number }]. *)
Module Range.
Record t : Type := mk { min : R; max : R }.
End Range.

Module CostDriver.
Record t : Type := mk {
  id : string;
  signalId : string;
  label : string;
  severity : SeverityKey;
  costCategory : string;
  impactType : ImpactType;
  estimatedCostDeltaPct : Range.t;
  estimatedScheduleDeltaDays : Range.t;
  rationale : string
}.
End CostDriver.

Module PMAction.
Record t : Type := mk {
  id : string;
  title : string;
  owner : Owner;
  duePhase : DuePhase;
  leadTimeDays : R;
  priority : Priority;
  relatedSignalId : string
}.
End PMAction.

Module ContingencyRange.
Record t : Type := mk { minPct : R; maxPct : R; basis : string }.
End ContingencyRange.

Module PercentileTriple.
Record t : Type := mk { p10 : R; p50 : R; p90 : R }.
End PercentileTriple.

Module ProbabilisticEstimate.
Record t : Type := mk {
  baselineCostUsd : option R;
  impactPct : PercentileTriple.t;
  scheduleDays : PercentileTriple.t;
  impactCostUsd : option PercentileTriple.t;
  methodology : string;
  sampleSize : Z
}.
End ProbabilisticEstimate.

(** *** The configuration, as the JSON value that is there at run time *)

(** One entry of a rule's [deltas]. *)
Module Delta.
Record t : Type := mk { pct : list R; days : list R }.
End Delta.

(** [deltas] is an object: a key may be missing, whatever the declared
    type [Record<SeverityKey, ...>] says. *)
Module RuleConfig.
Record t : Type := mk {
  signalId : string;
  costCategory : string;
  impactType : ImpactType;
  deltas : SeverityKey -> option Delta.t;
  rationale : string
}.
End RuleConfig.

Module ActionConfig.
Record t : Type := mk {
  title : string;
  owner : Owner;
  duePhase : DuePhase;
  leadTimeDays : R
}.
End ActionConfig.

Module ContingencyBand.
Record t : Type := mk {
  minScore : R;
  minPct : R;
  maxPct : R;
  basis : string
}.
End ContingencyBand.

(** The sections of [v2-rules.json] that the modelled resolvers read. *)
Module Config.
Record t : Type := mk {
  costRules : list RuleConfig.t;
  actionLibrary : string -> option ActionConfig.t;
  contingencyBands : list ContingencyBand.t
}.
End Config.

(** [const config = rules as Config]: a cast of the imported JSON, erased
    at compile time; nothing is checked when the module is loaded. *)
Definition loadConfig (rules : Config.t) : Js.result Config.t := Js.Ok rules.

(** ** Helpers of the module *)

(** [new Map(entries)] and [Map.prototype.get], for string keys: the
    bindings, the newest first. *)
Module JsMap.
Definition t (V : Type) : Type := list (string * V).

Definition set {V} (m : t V) (k : string) (v : V) : t V := (k, v) :: m.

Definition fromEntries {V} (entries : list (string * V)) : t V :=
  fold_left (fun m e => set m (fst e) (snd e)) entries [].

Fixpoint get {V} (m : t V) (k : string) : option V :=
  match m with
  | [] => None
  | (k', v) :: r => if String.eqb k' k then Some v else get r k
  end.
End JsMap.

(** [Number(values?.[0] ?? 0)] and [Number(values?.[1] ?? first)]. *)
Definition pair (values : list R) : R * R :=
  match values with
  | [] => (0%R, 0%R)
  | [first] => (first, first)
  | first :: second :: _ => (first, second)
  end.

Definition rankSeverity (severity : Severity) : Z :=
  match severity with
  | High => 3
  | Medium => 2
  | Low => 1
  | Unknown => 0
  end.

Definition asSeverity (severity : Severity) : option SeverityKey :=
  match severity with
  | High => Some KHigh
  | Medium => Some KMedium
  | Low => Some KLow
  | Unknown => None
  end.

(** ** The Monte Carlo estimator *)

(** [rng] is any closure over a state of type [S]. *)
Definition triangularSample {S : Type} (min max mode : R)
    (rng : S -> R * S) (s : S) : R * S :=
  if Js.leb max min then (min, s)
  else
    let (u, s') := rng s in
    let split := ((mode - min) / (max - min))%R in
    if Js.ltb u split
    then ((min + Js.sqrt (u * (max - min) * (mode - min)))%R, s')
    else ((max - Js.sqrt ((1 - u) * (max - min) * (max - mode)))%R, s').

Definition percentile (sorted : list R) (p : R) : R :=
  match sorted with
  | [] => 0%R
  | _ =>
      let len := Z.of_nat (List.length sorted) in
      let idx := Z.min (len - 1) (Z.max 0 (Js.floor (p / 100 * IZR len))) in
      nth (Z.to_nat idx) sorted 0%R
  end.

Definition round2 (n : R) : R := (IZR (Js.round (n * 100)) / 100)%R.

Definition toTriple (p10 p50 p90 : R) : PercentileTriple.t :=
  PercentileTriple.mk (round2 p10) (round2 p50) (round2 p90).

(** The body of [for (const driver of args.costDrivers)], on the two sums
    and the generator's state. *)
Definition sampleDriver (acc : R * R * rngState) (driver : CostDriver.t)
    : R * R * rngState :=
  let '(pctSum, daySum, st) := acc in
  let pctMin := Range.min (CostDriver.estimatedCostDeltaPct driver) in
  let pctMax := Range.max (CostDriver.estimatedCostDeltaPct driver) in
  let pctMode := ((pctMin + pctMax) / 2)%R in
  let dayMin := Range.min (CostDriver.estimatedScheduleDeltaDays driver) in
  let dayMax := Range.max (CostDriver.estimatedScheduleDeltaDays driver) in
  let dayMode := ((dayMin + dayMax) / 2)%R in
  let (pctSample, st1) := triangularSample pctMin pctMax pctMode rng st in
  let (daySample, st2) := triangularSample dayMin dayMax dayMode rng st1 in
  ((pctSum + pctSample)%R, (daySum + daySample)%R, st2).

(** One trial: both sums start at 0. *)
Definition trial (costDrivers : list CostDriver.t) (st : rngState)
    : R * R * rngState :=
  fold_left sampleDriver costDrivers (0%R, 0%R, st).

(** The remaining [n] iterations of the outer loop, from the totals pushed
    so far. *)
Fixpoint trials (n : nat) (costDrivers : list CostDriver.t) (st : rngState)
    (pctTotals dayTotals : list R) : list R * list R :=
  match n with
  | O => (pctTotals, dayTotals)
  | S n' =>
      let '(pctSum, daySum, st') := trial costDrivers st in
      trials n' costDrivers st' (pctTotals ++ [pctSum]) (dayTotals ++ [daySum])
  end.

Module Args.
Record t : Type := mk {
  costDrivers : list CostDriver.t;
  baselineCostUsd : option R;
  seedKey : seedKey;
  sampleSize : option Z
}.
End Args.

Definition methodologyText : string :=
  "Monte Carlo using triangular distributions derived from each cost-driver min/max range.".

(** [(a, b) => a - b] as the test [a - b <= 0]. *)
Definition ascending (a b : R) : bool := Js.leb (a - b) 0.

Definition buildProbabilisticEstimate (args : Args.t) : ProbabilisticEstimate.t :=
  let sampleSize :=
    match Args.sampleSize args with Some n => n | None => 2000 end in
  let st := createRng (hashSeed (Args.seedKey args)) in
  let (pctTotals0, dayTotals0) :=
    trials (Z.to_nat sampleSize) (Args.costDrivers args) st [] [] in
  let pctTotals := Js.sort ascending pctTotals0 in
  let dayTotals := Js.sort ascending dayTotals0 in
  let impactPct :=
    toTriple (percentile pctTotals 10) (percentile pctTotals 50)
             (percentile pctTotals 90) in
  let scheduleDays :=
    toTriple (percentile dayTotals 10) (percentile dayTotals 50)
             (percentile dayTotals 90) in
  let impactCostUsd :=
    match Args.baselineCostUsd args with
    | Some baseline =>
        if Js.ltb 0 baseline
        then
          let toUsd (pct : R) := round2 (pct / 100 * baseline) in
          Some (PercentileTriple.mk
                  (toUsd (PercentileTriple.p10 impactPct))
                  (toUsd (PercentileTriple.p50 impactPct))
                  (toUsd (PercentileTriple.p90 impactPct)))
        else None
    | None => None
    end in
  ProbabilisticEstimate.mk (Args.baselineCostUsd args) impactPct scheduleDays
    impactCostUsd methodologyText sampleSize.

(** ** The resolvers *)

(** Sequencing of code that may throw. *)
Definition bind {A B : Type} (r : Js.result A) (k : A -> Js.result B)
    : Js.result B :=
  match r with
  | Js.Ok a => k a
  | Js.TypeError => Js.TypeError
  end.

Notation "x <- r ;; k" := (bind r (fun x => k))
  (at level 61, r at next level, right associativity).

(** [Array.prototype.map] with a callback that may throw: the elements are
    visited in order and the first exception ends the call. *)
Fixpoint mapM {A B : Type} (f : A -> Js.result B) (l : list A)
    : Js.result (list B) :=
  match l with
  | [] => Js.Ok []
  | x :: r => y <- f x ;; ys <- mapM f r ;; Js.Ok (y :: ys)
  end.

(** [.filter((driver) => driver !== null)]. *)
Fixpoint nonNull {A : Type} (l : list (option A)) : list A :=
  match l with
  | [] => []
  | Some a :: r => a :: nonNull r
  | None :: r => nonNull r
  end.

(** [array[i]], [undefined] out of range. *)
Definition at_index {A : Type} (l : list A) (i : Z) : option A :=
  if i <? 0 then None else nth_error l (Z.to_nat i).

(** [(a, b) => rankSeverity(b.severity) - rankSeverity(a.severity)] as the
    test that the difference is [<= 0]. *)
Definition byRankDesc (a b : CostDriver.t) : bool :=
  rankSeverity (ofKey (CostDriver.severity b))
  - rankSeverity (ofKey (CostDriver.severity a)) <=? 0.

Definition priorityOrder (p : Priority) : Z :=
  match p with PHigh => 3 | PMedium => 2 | PLow => 1 end.

Definition byPriorityDesc (a b : PMAction.t) : bool :=
  priorityOrder (PMAction.priority b) - priorityOrder (PMAction.priority a) <=? 0.

Definition baselineAction : PMAction.t :=
  PMAction.mk "action-baseline"
    "Proceed with standard preconstruction validation"
    ProjectManager Bid 3 PLow "baseline".

Definition isSeverity (a b : Severity) : bool :=
  match a, b with
  | High, High | Medium, Medium | Low, Low | Unknown, Unknown => true
  | _, _ => false
  end.

Module Confidence.
Record t : Type := mk { confidenceScore : Z; dataCompletenessPct : Z }.
End Confidence.

Section Resolvers.

(** The module constant [config]. *)
Variable config : Config.t.

(** The callback of [config.costRules.map]; [None] is [null].  Reading
    [delta.pct] when [rule.deltas[severity]] is [undefined] throws. *)
Definition resolveRule (byId : JsMap.t Signal.t) (rule : RuleConfig.t)
    : Js.result (option CostDriver.t) :=
  match JsMap.get byId (RuleConfig.signalId rule) with
  | None => Js.Ok None
  | Some signal =>
      match asSeverity (Signal.severity signal) with
      | None => Js.Ok None
      | Some severity =>
          match RuleConfig.deltas rule severity with
          | None => Js.TypeError
          | Some delta =>
              let (costMin, costMax) := pair (Delta.pct delta) in
              let (daysMin, daysMax) := pair (Delta.days delta) in
              Js.Ok (Some (CostDriver.mk
                ("driver-" ++ RuleConfig.signalId rule)
                (RuleConfig.signalId rule)
                (Signal.label signal)
                severity
                (RuleConfig.costCategory rule)
                (RuleConfig.impactType rule)
                (Range.mk costMin costMax)
                (Range.mk daysMin daysMax)
                (RuleConfig.rationale rule)))
          end
      end
  end.

Definition buildCostDrivers (signals : list Signal.t)
    : Js.result (list CostDriver.t) :=
  let byId :=
    JsMap.fromEntries (map (fun signal => (Signal.id signal, signal)) signals) in
  mapped <- mapM (resolveRule byId) (Config.costRules config) ;;
  Js.Ok (Js.sort byRankDesc (nonNull mapped)).

(** The body of [for (const signal of signals)], on [actions].  The
    lookup [config.actionLibrary[signal.id]] is modelled for the ids that
    are keys of the library or of nothing: a signal whose id is the name of
    a property inherited from [Object.prototype] (constructor, toString)
    finds that property in JavaScript and is outside the model. *)
Definition pushAction (actions : list PMAction.t) (signal : Signal.t)
    : list PMAction.t :=
  if isSeverity (Signal.severity signal) Unknown
     || isSeverity (Signal.severity signal) Low
  then actions
  else
    match Config.actionLibrary config (Signal.id signal) with
    | None => actions
    | Some template =>
        actions ++ [PMAction.mk
          ("action-" ++ Signal.id signal)
          (ActionConfig.title template)
          (ActionConfig.owner template)
          (ActionConfig.duePhase template)
          (ActionConfig.leadTimeDays template)
          (if isSeverity (Signal.severity signal) High then PHigh else PMedium)
          (Signal.id signal)]
    end.

Definition buildPMActions (signals : list Signal.t) : list PMAction.t :=
  let actions := fold_left pushAction signals [] in
  let actions :=
    match actions with
    | [] => [baselineAction]
    | _ => actions
    end in
  Js.sort byPriorityDesc actions.

Definition buildContingency (signals : list Signal.t)
    : Js.result ContingencyRange.t :=
  let score :=
    fold_left (fun score signal => score + rankSeverity (Signal.severity signal))
              signals 0 in
  let sortedBands :=
    Js.sort (fun a b =>
               Js.leb (ContingencyBand.minScore b - ContingencyBand.minScore a) 0)
            (Config.contingencyBands config) in
  let band :=
    match find (fun candidate =>
                  Js.leb (ContingencyBand.minScore candidate) (IZR score))
               sortedBands with
    | Some candidate => Some candidate
    | None => at_index sortedBands (Z.of_nat (List.length sortedBands) - 1)
    end in
  match band with
  | None => Js.TypeError
  | Some band =>
      Js.Ok (ContingencyRange.mk (ContingencyBand.minPct band)
               (ContingencyBand.maxPct band) (ContingencyBand.basis band))
  end.

End Resolvers.

(** [signal.value !== "Not available" && signal.value !== "Unknown"]. *)
Definition isKnown (signal : Signal.t) : bool :=
  negb (String.eqb (Signal.value signal) "Not available")
  && negb (String.eqb (Signal.value signal) "Unknown").

Definition scoreConfidence (signals : list Signal.t) (warnings : list string)
    : Confidence.t :=
  let totalSignals :=
    if Z.of_nat (List.length signals) =? 0 then 1
    else Z.of_nat (List.length signals) in
  let knownSignals := Z.of_nat (List.length (filter isKnown signals)) in
  let completeness := Js.round (IZR knownSignals / IZR totalSignals * 100) in
  let warningPenalty := Z.min (Z.of_nat (List.length warnings) * 6) 30 in
  let availabilityPenalty := (IZR (Z.max 0 (100 - completeness)) * (4 / 10))%R in
  let confidenceScore :=
    Z.max 35 (Js.round (100 - IZR warningPenalty - availabilityPenalty)) in
  Confidence.mk confidenceScore completeness.

(** ** Strings *)

(** [s.startsWith(prefix)]. *)
Definition startsWith (s prefix : string) : bool := String.prefix prefix s.

(** [s.includes(sub)]. *)
Fixpoint includes (s sub : string) : bool :=
  String.prefix sub s
  || match s with
     | EmptyString => false
     | String _ rest => includes rest sub
     end.

(** [toLowerCase] on one Latin-1 code unit: the letters A-Z and the
    accented capitals U+00C0-U+00DE, the sign U+00D7 apart. *)
Definition lowerCodeUnit (c : ascii) : ascii :=
  let n := nat_of_ascii c in
  if ((65 <=? n) && (n <=? 90)
      || (192 <=? n) && (n <=? 214)
      || (216 <=? n) && (n <=? 222))%nat
  then ascii_of_nat (n + 32)
  else c.

(** [s.toLowerCase()], for a string of Latin-1 characters. *)
Fixpoint toLowerCase (s : string) : string :=
  match s with
  | EmptyString => EmptyString
  | String c rest => String (lowerCodeUnit c) (toLowerCase rest)
  end.

(** [!s] for an optional string: [undefined] and the empty string. *)
Definition isFalsy (s : option string) : bool :=
  match s with
  | None => true
  | Some s => String.eqb s ""
  end.

(** ** The first-generation signals ([signals.ts]) *)

(** The data records of [sources.ts]; an absent or [null] field is [None]. *)
Inductive FireRisk : Type := RiskLow | RiskMedium | RiskHigh | RiskVeryHigh.

Module FEMAData.
Record t : Type := mk {
  floodZone : option string;
  zoneSubtype : option string;
  staticBfe : option R;
  firmPanel : option string
}.
End FEMAData.

Module USGSDesignData.
Record t : Type := mk {
  sdc : option string;
  sds : option R;
  sd1 : option R;
  pga : option R;
  ss : option R;
  s1 : option R
}.
End USGSDesignData.

Module SoilData.
Record t : Type := mk {
  compname : option string;
  hydrologicGroup : option string;
  drainageClass : option string;
  restrictiveDepthCm : option R;
  clayPercent : option R
}.
End SoilData.

Module ElevationSummary.
Record t : Type := mk {
  elevationMeters : option R;
  reliefMeters : option R;
  slopePercent : option R
}.
End ElevationSummary.

Module FireHazardData.
Record t : Type := mk {
  wildfireRisk : option FireRisk;
  fireZoneCategory : option string;
  fireOccurrenceHistoryYears : option R
}.
End FireHazardData.

Module Implication.
Record t : Type := mk { title : string; detail : string }.
End Implication.

(** [record?.field]. *)
Definition chain {A B : Type} (record : option A) (field : A -> option B)
    : option B :=
  match record with
  | None => None
  | Some r => field r
  end.

Definition severityFromFloodZone (zone : option string) : Severity :=
  match zone with
  | None => Unknown
  | Some zone =>
      if String.eqb zone "" then Unknown
      else if startsWith zone "A" || startsWith zone "V" then High
      else if startsWith zone "X" || startsWith zone "B" || startsWith zone "C"
      then Low
      else Medium
  end.

Definition severityFromFireRisk (risk : option FireRisk) : Severity :=
  match risk with
  | None => Low
  | Some RiskVeryHigh => High
  | Some RiskHigh => High
  | Some RiskMedium => Medium
  | Some RiskLow => Low
  end.

Definition severityFromSdc (sdc : option string) : Severity :=
  match sdc with
  | None => Low
  | Some sdc =>
      if String.eqb sdc "" then Low
      else if existsb (String.eqb sdc) ["D"; "E"; "F"]%string then High
      else if String.eqb sdc "C" then Medium
      else Low
  end.

Definition severityFromHydroGroup (group : option string) : Severity :=
  match group with
  | None => Low
  | Some group =>
      if String.eqb group "" then Low
      else if includes group "D" then High
      else if includes group "C" then Medium
      else Low
  end.

Definition severityFromDrainageClass (value : option string) : Severity :=
  match value with
  | None => Low
  | Some value =>
      if String.eqb value "" then Low
      else
        let v := toLowerCase value in
        if includes v "poor" || includes v "very poor" then High
        else if includes v "somewhat" || includes v "moderate" then Medium
        else Low
  end.

Definition severityFromClay (clay : option R) : Severity :=
  match clay with
  | None => Low
  | Some clay =>
      if Js.leb 40 clay then High
      else if Js.leb 25 clay then Medium
      else Low
  end.

Definition severityFromRestrictiveDepth (depth : option R) : Severity :=
  match depth with
  | None => Low
  | Some depth =>
      if Js.leb depth 100 then High
      else if Js.leb depth 150 then Medium
      else Low
  end.

Definition severityFromSlope (slope : option R) : Severity :=
  match slope with
  | None => Low
  | Some slope =>
      if Js.leb 10 slope then High
      else if Js.leb 5 slope then Medium
      else Low
  end.

(** The string of a [FireRisk], as the template literal and [??] write it. *)
Definition fireRiskText (risk : FireRisk) : string :=
  match risk with
  | RiskLow => "low"
  | RiskMedium => "medium"
  | RiskHigh => "high"
  | RiskVeryHigh => "very high"
  end.

Module SignalArgs.
Record t : Type := mk {
  fema : option FEMAData.t;
  usgs : option USGSDesignData.t;
  soils : option SoilData.t;
  elevation : option ElevationSummary.t;
  fire : option FireHazardData.t
}.
End SignalArgs.

Section NumberText.

(** [Number.prototype.toFixed] and the conversion of a number in a template
    literal: the two built-ins that turn a number into text. *)
Variable toFixed : R -> Z -> string.
Variable numberToString : R -> string.

Definition formatNumber (value : option R) (digits : Z) : string :=
  match value with
  | None => "N/A"
  | Some value => toFixed value digits
  end.

Definition buildSignals (args : SignalArgs.t) : list Signal.t :=
  let floodZone := chain (SignalArgs.fema args) FEMAData.floodZone in
  let staticBfe := chain (SignalArgs.fema args) FEMAData.staticBfe in
  let sdc := chain (SignalArgs.usgs args) USGSDesignData.sdc in
  let sds := chain (SignalArgs.usgs args) USGSDesignData.sds in
  let sd1 := chain (SignalArgs.usgs args) USGSDesignData.sd1 in
  let drainageClass := chain (SignalArgs.soils args) SoilData.drainageClass in
  let hydrologicGroup := chain (SignalArgs.soils args) SoilData.hydrologicGroup in
  let clayPercent := chain (SignalArgs.soils args) SoilData.clayPercent in
  let restrictiveDepthCm :=
    chain (SignalArgs.soils args) SoilData.restrictiveDepthCm in
  let slopePercent :=
    chain (SignalArgs.elevation args) ElevationSummary.slopePercent in
  let wildfireRisk := chain (SignalArgs.fire args) FireHazardData.wildfireRisk in
  [ Signal.mk "flood-zone" "Flood Hazard Zone"
      (match floodZone with Some zone => zone | None => "Unknown" end)
      (severityFromFloodZone floodZone)
      "FEMA NFHL zone indicates insurance and elevation-driven design requirements.";
    Signal.mk "base-flood-elevation" "Base Flood Elevation"
      (match staticBfe with
       | Some bfe => numberToString bfe ++ " ft"
       | None => "Not applicable"
       end)
      (match staticBfe with Some _ => Medium | None => Low end)
      (match staticBfe with
       | Some _ => "BFE informs minimum finished floor and floodproofing elevation."
       | None => "No BFE required for this location (outside mapped flood areas)."
       end);
    Signal.mk "sdc" "Seismic Design Category"
      (match sdc with Some sdc => sdc | None => "Not available" end)
      (severityFromSdc sdc)
      (match sdc with
       | Some text =>
           if isFalsy sdc
           then "Seismic design parameters could not be determined from USGS."
           else "SDC " ++ text
                ++ ": Higher categories drive increased lateral force design complexity and detailing costs."
       | None => "Seismic design parameters could not be determined from USGS."
       end);
    Signal.mk "sds" "Short-Period Spectral Accel (SDS)"
      (match sds with
       | Some _ => formatNumber sds 3
       | None => "Not available"
       end)
      (match sds with
       | Some sds => if Js.leb 1 sds then High else Low
       | None => Low
       end)
      (match sds with
       | Some _ => "Higher SDS increases seismic base shear and foundation demand."
       | None => "Seismic acceleration parameters not determined."
       end);
    Signal.mk "sd1" "1-Second Spectral Accel (SD1)"
      (match sd1 with
       | Some _ => formatNumber sd1 3
       | None => "Not available"
       end)
      (match sd1 with
       | Some sd1 => if Js.leb (6 / 10) sd1 then High else Low
       | None => Low
       end)
      (match sd1 with
       | Some _ => "Higher SD1 drives drift-sensitive system sizing and bracing."
       | None => "Seismic acceleration parameters not determined."
       end);
    Signal.mk "soil-drainage" "Soil Drainage Class"
      (match drainageClass with Some text => text | None => "Not available" end)
      (severityFromDrainageClass drainageClass)
      (if isFalsy drainageClass
       then "Soil drainage class data not available."
       else "Poor drainage elevates earthwork, dewatering, and slab moisture risk.");
    Signal.mk "hydro-group" "Soil Hydrologic Group"
      (match hydrologicGroup with Some text => text | None => "Not available" end)
      (severityFromHydroGroup hydrologicGroup)
      (if isFalsy hydrologicGroup
       then "Hydrologic group data not available."
       else "Hydrologic group indicates runoff potential affecting stormwater design.");
    Signal.mk "clay" "Surface Clay Content"
      (match clayPercent with
       | Some _ => formatNumber clayPercent 0 ++ "%"
       | None => "Not available"
       end)
      (severityFromClay clayPercent)
      (match clayPercent with
       | Some _ => "Higher clay content raises shrink-swell and slab movement risk."
       | None => "Clay content data not available."
       end);
    Signal.mk "restrictive-depth" "Restrictive Layer Depth"
      (match restrictiveDepthCm with
       | Some _ => formatNumber restrictiveDepthCm 0 ++ " cm"
       | None => "Not available"
       end)
      (severityFromRestrictiveDepth restrictiveDepthCm)
      (match restrictiveDepthCm with
       | Some _ => "Shallow restrictive layers increase excavation difficulty and foundation cost."
       | None => "Restrictive layer depth data not available."
       end);
    Signal.mk "site-slope" "Local Slope (Approx)"
      (match slopePercent with
       | Some _ => formatNumber slopePercent 1 ++ "%"
       | None => "Not available"
       end)
      (severityFromSlope slopePercent)
      (match slopePercent with
       | Some _ => "Higher slope increases grading, retaining, and erosion control needs."
       | None => "Slope data could not be calculated."
       end);
    Signal.mk "wildfire-risk" "Wildfire Risk"
      (match wildfireRisk with
       | Some risk => fireRiskText risk
       | None => "Not available"
       end)
      (severityFromFireRisk wildfireRisk)
      (match wildfireRisk with
       | Some risk =>
           "Wildfire risk: " ++ fireRiskText risk
           ++ ". Higher risk affects defensibility, insurance, and long-term viability."
       | None => "Wildfire risk data not available for this location."
       end) ]%string.

End NumberText.

(** [signals.find((s) => s.id === id)]: the first signal with that id. *)
Definition findSignal (signals : list Signal.t) (id : string)
    : option Signal.t :=
  find (fun s => String.eqb (Signal.id s) id) signals.

(** [signal?.severity === "high"]. *)
Definition isHigh (signal : option Signal.t) : bool :=
  match signal with
  | Some signal => isSeverity (Signal.severity signal) High
  | None => false
  end.

Definition buildImplications (signals : list Signal.t) : list Implication.t :=
  let implications := [] in
  let flood := findSignal signals "flood-zone" in
  let implications :=
    if isHigh flood
    then implications ++ [Implication.mk "Flood Mitigation Budget"
      "Allocate contingency for elevation, floodproofing, and potential insurance premiums."]
    else implications in
  let seismic := findSignal signals "sdc" in
  let implications :=
    if isHigh seismic
    then implications ++ [Implication.mk "Structural Seismic Premium"
      "Expect higher lateral system cost, detailing complexity, and review time."]
    else implications in
  let drainage := findSignal signals "soil-drainage" in
  let implications :=
    if isHigh drainage
    then implications ++ [Implication.mk "Dewatering & Subgrade"
      "Plan for dewatering, subgrade stabilization, and moisture protection for slabs."]
    else implications in
  let clay := findSignal signals "clay" in
  let implications :=
    if isHigh clay
    then implications ++ [Implication.mk "Expansive Soil Controls"
      "Consider moisture conditioning, thicker slabs, and jointing strategy."]
    else implications in
  let slope := findSignal signals "site-slope" in
  let implications :=
    if isHigh slope
    then implications ++ [Implication.mk "Grading & Retaining"
      "Budget for cut/fill, slope stabilization, and erosion controls."]
    else implications in
  let fire := findSignal signals "wildfire-risk" in
  let implications :=
    if isHigh fire
    then implications ++ [Implication.mk "Fire Defensibility & Insurance"
      "Consider defensible space, fire-resistant materials, and specialized insurance requirements."]
    else implications in
  match implications with
  | [] => [Implication.mk "Baseline Controls"
             "No extreme signals detected. Proceed with standard geotech validation."]
  | _ => implications
  end.

(** ** The second-generation signals *)

Module ClimateData.
Record t : Type := mk {
  designWindMph : option R;
  annualSnowCm : option R;
  p90AnnualSnowCm : option R;
  p50AnnualSnowCm : option R;
  analysisYears : option R;
  source : option string
}.
End ClimateData.

Module GeoPoint.
Record t : Type := mk { lat : R; lon : R }.
End GeoPoint.

Inductive MetroClass : Type := MajorMetro | Metro | NonMetro.

(** One box of [metroClass]: the bounds of [lat], then of [lon]. *)
Definition inBox (point : GeoPoint.t) (box : (R * R) * (R * R)) : bool :=
  let inRange (min max v : R) := Js.leb min v && Js.leb v max in
  inRange (fst (fst box)) (snd (fst box)) (GeoPoint.lat point)
  && inRange (fst (snd box)) (snd (snd box)) (GeoPoint.lon point).

Definition majorBoxes : list ((R * R) * (R * R)) :=
  [ ((4045 / 100, 4095 / 100), (- (743 / 10), - (7365 / 100)));
    ((336 / 10, 344 / 10), (- (1187 / 10), - (1177 / 10)));
    ((416 / 10, 422 / 10), (- (881 / 10), - (873 / 10)));
    ((294 / 10, 302 / 10), (- (959 / 10), - 95));
    ((326 / 10, 331 / 10), (- (971 / 10), - (964 / 10))) ]%R.

Definition metroBoxes : list ((R * R) * (R * R)) :=
  [ ((474 / 10, 4785 / 100), (- (12245 / 100), - (1221 / 10)));
    ((3755 / 100, 3795 / 100), (- (1226 / 10), - (1218 / 10)));
    ((395 / 10, 401 / 10), (- (10525 / 100), - (10455 / 100)));
    ((255 / 10, 261 / 10), (- (804 / 10), - 80));
    ((3875 / 100, 391 / 10), (- (7725 / 100), - (768 / 10))) ]%R.

Definition metroClass (point : GeoPoint.t) : MetroClass :=
  if existsb (inBox point) majorBoxes then MajorMetro
  else if existsb (inBox point) metroBoxes then Metro
  else NonMetro.

Definition severityFromWind (mph : option R) : SeverityKey :=
  match mph with
  | None => KLow
  | Some mph =>
      if Js.leb 120 mph then KHigh
      else if Js.leb 100 mph then KMedium
      else KLow
  end.

Definition severityFromSnow (cm : option R) : SeverityKey :=
  match cm with
  | None => KLow
  | Some cm =>
      if Js.leb 100 cm then KHigh
      else if Js.leb 40 cm then KMedium
      else KLow
  end.

(** [score >= 3 ? "high" : score >= low ? "medium" : "low"]. *)
Definition severityFromScore (score low : Z) : SeverityKey :=
  if 3 <=? score then KHigh else if low <=? score then KMedium else KLow.

Definition isKeyHigh (k : SeverityKey) : bool :=
  match k with KHigh => true | _ => false end.

Module AdvancedArgs.
Record t : Type := mk {
  point : GeoPoint.t;
  fema : option FEMAData.t;
  soils : option SoilData.t;
  elevation : option ElevationSummary.t;
  climate : option ClimateData.t
}.
End AdvancedArgs.

(** The intermediate scores of [buildAdvancedSignals]. *)
Definition floodZoneText (args : AdvancedArgs.t) : string :=
  match chain (AdvancedArgs.fema args) FEMAData.floodZone with
  | Some zone => zone
  | None => ""
  end.

Definition inFloodZone (args : AdvancedArgs.t) : bool :=
  startsWith (floodZoneText args) "A" || startsWith (floodZoneText args) "V".

Definition wetlandScore (args : AdvancedArgs.t) : Z :=
  let hydro :=
    match chain (AdvancedArgs.soils args) SoilData.hydrologicGroup with
    | Some text => text
    | None => ""%string
    end in
  let drainage :=
    toLowerCase
      match chain (AdvancedArgs.soils args) SoilData.drainageClass with
      | Some text => text
      | None => ""%string
      end in
  (if inFloodZone args then 2 else 0)
  + (if includes hydro "D" then 1 else 0)
  + (if includes drainage "poor" then 1 else 0).

Definition utilitySeverity (metro : MetroClass) : SeverityKey :=
  match metro with
  | MajorMetro => KLow
  | Metro => KMedium
  | NonMetro => KHigh
  end.

Definition permitScore (args : AdvancedArgs.t) : Z :=
  let metroPermitPenalty :=
    match metroClass (AdvancedArgs.point args) with
    | MajorMetro => 2
    | Metro => 1
    | NonMetro => 0
    end in
  let floodPenalty := if inFloodZone args then 1 else 0 in
  metroPermitPenalty + floodPenalty.

Definition logisticsScore (args : AdvancedArgs.t) : Z :=
  let slope := chain (AdvancedArgs.elevation args) ElevationSummary.slopePercent in
  let wetlandSeverity := severityFromScore (wetlandScore args) 2 in
  match slope with
  | Some slope => if Js.leb 8 slope then 2 else if Js.leb 4 slope then 1 else 0
  | None => 0
  end
  + (if isKeyHigh (utilitySeverity (metroClass (AdvancedArgs.point args)))
     then 1 else 0)
  + (if isKeyHigh wetlandSeverity then 1 else 0).

Section AdvancedText.

Variable toFixed : R -> Z -> string.

Definition fmt (value : option R) (digits : Z) : string :=
  match value with
  | None => "Not available"
  | Some value => toFixed value digits
  end.

Definition buildAdvancedSignals (args : AdvancedArgs.t) : list Signal.t :=
  let designWindMph :=
    chain (AdvancedArgs.climate args) ClimateData.designWindMph in
  let p90AnnualSnowCm :=
    chain (AdvancedArgs.climate args) ClimateData.p90AnnualSnowCm in
  let annualSnowCm :=
    chain (AdvancedArgs.climate args) ClimateData.annualSnowCm in
  let windSeverity := severityFromWind designWindMph in
  let snowSeverity :=
    severityFromSnow
      match p90AnnualSnowCm with
      | Some cm => Some cm
      | None => annualSnowCm
      end in
  let wetlandSeverity := severityFromScore (wetlandScore args) 2 in
  let metro := metroClass (AdvancedArgs.point args) in
  let permitSeverity := severityFromScore (permitScore args) 1 in
  let logisticsSeverity := severityFromScore (logisticsScore args) 1 in
  [ Signal.mk "wind-load-proxy" "Wind Load Proxy"
      (match designWindMph with
       | Some _ => fmt designWindMph 0 ++ " mph"
       | None => "Not available"
       end)
      (ofKey windSeverity)
      "5-year daily wind maxima proxy for envelope and lateral detailing sensitivity.";
    Signal.mk "snow-load-proxy" "Snow Load Proxy"
      (match p90AnnualSnowCm with
       | Some _ => fmt p90AnnualSnowCm 0 ++ " cm/yr (P90 annual)"
       | None =>
           match annualSnowCm with
           | Some _ => fmt annualSnowCm 0 ++ " cm/yr"
           | None => "Not available"
           end
       end)
      (ofKey snowSeverity)
      "Annualized snowfall proxy from historical series, weighted to upper-percentile snow exposure.";
    Signal.mk "wetland-constraint-proxy" "Wetland/Environmental Constraint Proxy"
      (if (3 <=? wetlandScore args)%Z then "Elevated"
       else if (2 <=? wetlandScore args)%Z then "Moderate" else "Limited")
      (ofKey wetlandSeverity)
      "Proxy derived from flood and soil wetness indicators to flag potential environmental permitting friction.";
    Signal.mk "utility-capacity-proxy" "Utility Capacity/Proximity Proxy"
      (match metro with
       | MajorMetro => "Dense utility corridor"
       | Metro => "Mixed availability"
       | NonMetro => "Limited utility context"
       end)
      (ofKey (utilitySeverity metro))
      "Location context proxy for extension scope and lead-time risk of utility coordination.";
    Signal.mk "permitting-complexity-proxy" "Permitting Complexity Proxy"
      (match permitSeverity with
       | KHigh => "Complex multi-review"
       | KMedium => "Moderate review path"
       | KLow => "Standard review path"
       end)
      (ofKey permitSeverity)
      "Proxy combining metropolitan review burden and environmental sensitivity factors.";
    Signal.mk "logistics-access-proxy" "Logistics/Access Constraint Proxy"
      (match logisticsSeverity with
       | KHigh => "Constrained"
       | KMedium => "Manageable constraints"
       | KLow => "Favorable access"
       end)
      (ofKey logisticsSeverity)
      "Proxy for staging, haul routes, and access complexity from terrain + context indicators." ]%string.

End AdvancedText.

(** ** Bid assumptions *)

Inductive AssumptionType : Type := Assumption | Allowance | Exclusion.

Module BidAssumption.
Record t : Type := mk {
  title : string;
  text : string;
  type : AssumptionType
}.
End BidAssumption.

(** The sections [baselineBidAssumptions] and [conditionalBidAssumptions]
    of the configuration. *)
Module BidConfig.
Record t : Type := mk {
  baselineBidAssumptions : list BidAssumption.t;
  highFlood : BidAssumption.t;
  highFire : BidAssumption.t
}.
End BidConfig.

Definition buildBidAssumptions (config : BidConfig.t)
    (signals : list Signal.t) : list BidAssumption.t :=
  let assumptions := BidConfig.baselineBidAssumptions config in
  let hasHighFlood :=
    existsb (fun signal =>
               String.eqb (Signal.id signal) "flood-zone"
               && isSeverity (Signal.severity signal) High) signals in
  let hasHighFire :=
    existsb (fun signal =>
               String.eqb (Signal.id signal) "wildfire-risk"
               && isSeverity (Signal.severity signal) High) signals in
  let assumptions :=
    if hasHighFlood then assumptions ++ [BidConfig.highFlood config]
    else assumptions in
  let assumptions :=
    if hasHighFire then assumptions ++ [BidConfig.highFire config]
    else assumptions in
  assumptions.

(** ** The fallback fire risk ([sources.ts]) *)

Definition getStateFromCoordinates (lat lon : R) : string :=
  if Js.ltb lon (-124) && Js.ltb (-117) lon && Js.ltb lat 42 && Js.ltb 32 lat
  then "CA"
  else if Js.ltb lon (-105) && Js.ltb (-109) lon && Js.ltb lat 41 && Js.ltb 37 lat
  then "CO"
  else if Js.ltb lon (-120) && Js.ltb (-116) lon && Js.ltb lat 49 && Js.ltb 42 lat
  then "OR"
  else if Js.ltb lon (-119) && Js.ltb (-114) lon && Js.ltb lat 43 && Js.ltb 41 lat
  then "ID"
  else if Js.ltb lon (-109) && Js.ltb (-103) lon && Js.ltb lat 37 && Js.ltb 31 lat
  then "NM"
  else if Js.ltb lon (-100) && Js.ltb (-94) lon && Js.ltb lat 31 && Js.ltb 25 lat
  then "TX"
  else if Js.ltb lon (-95) && Js.ltb (-80) lon && Js.ltb lat 40 && Js.ltb 24 lat
  then "FL"
  else "US".

(** The own properties of [highRiskStates], in the order they are written. *)
Definition highRiskStates : list (string * FireRisk) :=
  [ ("CA", RiskVeryHigh); ("WA", RiskHigh); ("OR", RiskHigh);
    ("ID", RiskHigh); ("MT", RiskHigh); ("NM", RiskHigh); ("AZ", RiskHigh);
    ("CO", RiskMedium); ("UT", RiskMedium); ("NV", RiskMedium);
    ("TX", RiskMedium); ("FL", RiskMedium) ]%string.

(** [highRiskStates[state] ?? "low"], for a [state] that is not the name of
    a property inherited from [Object.prototype]. *)
Definition getStateFireRisk (state : string) (latitude : R) : FireRisk :=
  match find (fun entry => String.eqb (fst entry) state) highRiskStates with
  | Some entry => snd entry
  | None => RiskLow
  end.

(** ** CSV export *)

Definition quote : string := String "034" EmptyString.
Definition newline : string := String "010" EmptyString.

(** The global [text.replace] that writes every double quote twice. *)
Fixpoint doubleQuotes (text : string) : string :=
  match text with
  | EmptyString => EmptyString
  | String c rest =>
      if Ascii.eqb c "034" then String "034" (String "034" (doubleQuotes rest))
      else String c (doubleQuotes rest)
  end.

(** [escapeCsv] on a string ([String(value)] is [value] then). *)
Definition escapeCsv (value : string) : string :=
  let text := value in
  if includes text "," || includes text newline || includes text quote
  then quote ++ doubleQuotes text ++ quote
  else text.

(** ** Sums over the drivers, for the bounds of the estimate *)

Fixpoint sumOver (f : CostDriver.t -> R) (drivers : list CostDriver.t) : R :=
  match drivers with
  | [] => 0%R
  | driver :: rest => (f driver + sumOver f rest)%R
  end.

Definition pctMin (d : CostDriver.t) : R :=
  Range.min (CostDriver.estimatedCostDeltaPct d).
Definition pctMax (d : CostDriver.t) : R :=
  Range.max (CostDriver.estimatedCostDeltaPct d).
Definition dayMin (d : CostDriver.t) : R :=
  Range.min (CostDriver.estimatedScheduleDeltaDays d).
Definition dayMax (d : CostDriver.t) : R :=
  Range.max (CostDriver.estimatedScheduleDeltaDays d).

(** The three percentiles of a triple lie in [[lo, hi]]. *)
Definition within (lo hi : R) (t : PercentileTriple.t) : Prop :=
  (lo <= PercentileTriple.p10 t <= hi)%R
  /\ (lo <= PercentileTriple.p50 t <= hi)%R
  /\ (lo <= PercentileTriple.p90 t <= hi)%R.

(** The number of trials the estimator runs. *)
Definition trialCount (args : Args.t) : Z :=
  match Args.sampleSize args with Some n => n | None => 2000 end.

(** ** Words for the properties of the resolvers *)

(** The aggregate score of [buildContingency]. *)
Definition riskScore (signals : list Signal.t) : Z :=
  fold_left (fun score signal => score + rankSeverity (Signal.severity signal))
            signals 0.

(** The range a band stands for. *)
Definition rangeOf (band : ContingencyBand.t) : ContingencyRange.t :=
  ContingencyRange.mk (ContingencyBand.minPct band)
    (ContingencyBand.maxPct band) (ContingencyBand.basis band).

(** The signals the action loop does not skip. *)
Definition actionable (config : Config.t) (signal : Signal.t) : bool :=
  (isSeverity (Signal.severity signal) High
   || isSeverity (Signal.severity signal) Medium)
  && match Config.actionLibrary config (Signal.id signal) with
     | Some _ => true
     | None => false
     end.

(** Descending priority. *)
Definition priorityDescending (actions : list PMAction.t) : Prop :=
  StronglySorted
    (fun a b => priorityOrder (PMAction.priority b)
                <= priorityOrder (PMAction.priority a))
    actions.

(** The ids of the first-generation signals, in the order they are pushed. *)
Definition signalIds : list string :=
  [ "flood-zone"; "base-flood-elevation"; "sdc"; "sds"; "sd1";
    "soil-drainage"; "hydro-group"; "clay"; "restrictive-depth";
    "site-slope"; "wildfire-risk" ]%string.

(** The ids of the second-generation signals. *)
Definition advancedSignalIds : list string :=
  [ "wind-load-proxy"; "snow-load-proxy"; "wetland-constraint-proxy";
    "utility-capacity-proxy"; "permitting-complexity-proxy";
    "logistics-access-proxy" ]%string.

(** The titles of the implications, in the order they are pushed. *)
Definition implicationTitles : list string :=
  [ "Flood Mitigation Budget"; "Structural Seismic Premium";
    "Dewatering & Subgrade"; "Expansive Soil Controls";
    "Grading & Retaining"; "Fire Defensibility & Insurance" ]%string.

(** The id whose first signal triggers each implication, with its title. *)
Definition implicationTriggers : list (string * string) :=
  [ ("flood-zone", "Flood Mitigation Budget");
    ("sdc", "Structural Seismic Premium");
    ("soil-drainage", "Dewatering & Subgrade");
    ("clay", "Expansive Soil Controls");
    ("site-slope", "Grading & Retaining");
    ("wildfire-risk", "Fire Defensibility & Insurance") ]%string.

(** The titles triggered by a signal list, in the order of the triggers. *)
Definition triggeredTitles (signals : list Signal.t) : list string :=
  flat_map (fun trigger =>
              if isHigh (findSignal signals (fst trigger))
              then [snd trigger] else [])
           implicationTriggers.

(** Reading a CSV field back by the quoting rule: inside a quoted field two
    double quotes stand for one and a single one ends the field. *)
Fixpoint unquoteBody (s : string) : string :=
  match s with
  | EmptyString => EmptyString
  | String c rest =>
      if Ascii.eqb c "034"
      then match rest with
           | String c' rest' =>
               if Ascii.eqb c' "034"
               then String "034" (unquoteBody rest')
               else EmptyString
           | EmptyString => EmptyString
           end
      else String c (unquoteBody rest)
  end.

Definition readCsvField (field : string) : string :=
  match field with
  | EmptyString => EmptyString
  | String c rest => if Ascii.eqb c "034" then unquoteBody rest else field
  end.

(** The severity of the signal with a given id, when there is one. *)
Definition severityOf (signals : list Signal.t) (id : string)
    : option Severity :=
  option_map Signal.severity (findSignal signals id).

(** ** Invocations and the variables of closures *)

(** What an invocation of the estimator finds besides its arguments.
    [env] is the state of everything global that code of a module could read
    or write: the generator behind [Math.random], the clock, a module-level
    variable.  [cells] holds the variables captured by the closures created
    so far, one variable per call of [createRng]; a closure is named by the
    index of its variable. *)
Module Store.

Record t (E : Type) : Type := mk {
  env : E;
  cells : list rngState
}.

Arguments mk {E} _ _.
Arguments env {E} _.
Arguments cells {E} _.

(** [state = v] on the variable of closure [c]. *)
Fixpoint assign (states : list rngState) (c : nat) (v : rngState)
    : list rngState :=
  match states, c with
  | [], _ => []
  | _ :: rest, O => v :: rest
  | state :: rest, S c' => state :: assign rest c' v
  end.

(** [createRng(seed)]: [let state = seed || 1] declares a new variable and
    the closure returned captures it. *)
Definition createRng {E : Type} (seed : Z) (w : t E) : nat * t E :=
  (List.length (cells w), mk (env w) (cells w ++ [createRng seed])).

(** One call of closure [c]: its own variable is read and written, and
    nothing else. *)
Definition rng {E : Type} (c : nat) (w : t E) : R * t E :=
  let (u, state') := rng (nth c (cells w) 0) in
  (u, mk (env w) (assign (cells w) c state')).

(** The body of [for (const driver of args.costDrivers)] with the closure
    [c] as generator. *)
Definition sampleDriver {E : Type} (c : nat) (acc : R * R * t E)
    (driver : CostDriver.t) : R * R * t E :=
  let '(pctSum, daySum, w) := acc in
  let pctMin := Range.min (CostDriver.estimatedCostDeltaPct driver) in
  let pctMax := Range.max (CostDriver.estimatedCostDeltaPct driver) in
  let pctMode := ((pctMin + pctMax) / 2)%R in
  let dayMin := Range.min (CostDriver.estimatedScheduleDeltaDays driver) in
  let dayMax := Range.max (CostDriver.estimatedScheduleDeltaDays driver) in
  let dayMode := ((dayMin + dayMax) / 2)%R in
  let (pctSample, w1) := triangularSample pctMin pctMax pctMode (rng c) w in
  let (daySample, w2) := triangularSample dayMin dayMax dayMode (rng c) w1 in
  ((pctSum + pctSample)%R, (daySum + daySample)%R, w2).

Definition trial {E : Type} (c : nat) (costDrivers : list CostDriver.t)
    (w : t E) : R * R * t E :=
  fold_left (sampleDriver c) costDrivers (0%R, 0%R, w).

Fixpoint trials {E : Type} (n : nat) (c : nat)
    (costDrivers : list CostDriver.t) (w : t E)
    (pctTotals dayTotals : list R) : list R * list R * t E :=
  match n with
  | O => (pctTotals, dayTotals, w)
  | S n' =>
      let '(pctSum, daySum, w') := trial c costDrivers w in
      trials n' c costDrivers w' (pctTotals ++ [pctSum]) (dayTotals ++ [daySum])
  end.

(** One invocation of [buildProbabilisticEstimate] in the store [w]: the
    estimate returned and the store it leaves.  The body names no global:
    its generator is the closure it creates. *)
Definition buildProbabilisticEstimate {E : Type} (args : Args.t) (w : t E)
    : ProbabilisticEstimate.t * t E :=
  let sampleSize :=
    match Args.sampleSize args with Some n => n | None => 2000 end in
  let (c, w0) := createRng (hashSeed (Args.seedKey args)) w in
  let '(pctTotals0, dayTotals0, w1) :=
    trials (Z.to_nat sampleSize) c (Args.costDrivers args) w0 [] [] in
  let pctTotals := Js.sort ascending pctTotals0 in
  let dayTotals := Js.sort ascending dayTotals0 in
  let impactPct :=
    toTriple (percentile pctTotals 10) (percentile pctTotals 50)
             (percentile pctTotals 90) in
  let scheduleDays :=
    toTriple (percentile dayTotals 10) (percentile dayTotals 50)
             (percentile dayTotals 90) in
  let impactCostUsd :=
    match Args.baselineCostUsd args with
    | Some baseline =>
        if Js.ltb 0 baseline
        then
          let toUsd (pct : R) := round2 (pct / 100 * baseline) in
          Some (PercentileTriple.mk
                  (toUsd (PercentileTriple.p10 impactPct))
                  (toUsd (PercentileTriple.p50 impactPct))
                  (toUsd (PercentileTriple.p90 impactPct)))
        else None
    | None => None
    end in
  (ProbabilisticEstimate.mk (Args.baselineCostUsd args) impactPct scheduleDays
     impactCostUsd methodologyText sampleSize, w1).

End Store.

(** ** The confidence scorer in double precision *)

(** The numbers of [scoreConfidence] as the IEEE-754 doubles they are:
    [known / total * 100] is rounded twice before [Math.round] sees it. *)
Module Double.

(** A count as a double; exact, a count being below [2^53]. *)
Definition ofZ (z : Z) : PrimFloat.float := PrimFloat.of_uint63 (Uint63.of_Z z).

(** [Math.round] of a finite double [x = v * 2^e]: the integer
    [floor (x + 1/2)], computed on the exact value of [x].  (The scorer
    rounds numbers between 0 and 100 only: no infinity, no NaN.) *)
Definition round (x : PrimFloat.float) : Z :=
  match FloatOps.Prim2SF x with
  | SpecFloat.S754_finite s m e =>
      let v := if s then Z.neg m else Z.pos m in
      if 0 <=? e then v * 2 ^ e else (2 * v + 2 ^ (- e)) / 2 ^ (1 - e)
  | _ => 0
  end.

(** The literal [0.4]: the double nearest to four tenths, which is also
    what the correctly rounded division of 4 by 10 returns. *)
Definition fourTenths : PrimFloat.float := PrimFloat.div (ofZ 4) (ofZ 10).

(** The arithmetic of the body, on the three counts. *)
Definition score (knownSignals totalSignals warningCount : Z)
    : Confidence.t :=
  let completeness :=
    round (PrimFloat.mul (PrimFloat.div (ofZ knownSignals) (ofZ totalSignals))
                         (ofZ 100)) in
  let warningPenalty := Z.min (warningCount * 6) 30 in
  let availabilityPenalty :=
    PrimFloat.mul (ofZ (Z.max 0 (100 - completeness))) fourTenths in
  let confidenceScore :=
    Z.max 35 (round (PrimFloat.sub (PrimFloat.sub (ofZ 100) (ofZ warningPenalty))
                                   availabilityPenalty)) in
  Confidence.mk confidenceScore completeness.

Definition scoreConfidence (signals : list Signal.t) (warnings : list string)
    : Confidence.t :=
  let totalSignals :=
    if Z.of_nat (List.length signals) =? 0 then 1
    else Z.of_nat (List.length signals) in
  let knownSignals := Z.of_nat (List.length (filter isKnown signals)) in
  score knownSignals totalSignals (Z.of_nat (List.length warnings)).

(** The scorer in exact arithmetic, on the three counts. *)
Definition ideal (knownSignals totalSignals warningCount : Z)
    : Confidence.t :=
  let completeness := (200 * knownSignals + totalSignals) / (2 * totalSignals) in
  let warningPenalty := Z.min (warningCount * 6) 30 in
  Confidence.mk
    (Z.max 35 ((1005 - 10 * warningPenalty - 4 * Z.max 0 (100 - completeness)) / 10))
    completeness.

Definition sameResult (a b : Confidence.t) : bool :=
  (Confidence.confidenceScore a =? Confidence.confidenceScore b)
  && (Confidence.dataCompletenessPct a =? Confidence.dataCompletenessPct b).

(** Whether the doubles give the exact result for every list of [total]
    signals, known or not, and every number of warnings. *)
Definition agreeOn (total : nat) : bool :=
  forallb (fun known =>
    forallb (fun warningCount =>
      sameResult (score (Z.of_nat known) (Z.of_nat total) (Z.of_nat warningCount))
                 (ideal (Z.of_nat known) (Z.of_nat total) (Z.of_nat warningCount)))
      (seq 0 6))
    (seq 0 (S total)).

End Double.

(** 57 known signals of 200. *)
Definition tieSignals : list Signal.t :=
  repeat (Signal.mk "flood-zone" "Flood Zone" "AE" High "Special flood hazard area.") 57
  ++ repeat (Signal.mk "soil-drainage" "Soil Drainage" "Not available" Unknown
               "No soil survey record.") 143.

(** ** The spec's formulas, for comparison with the code *)

(** The successive states of the spec's generator from [state]. *)
Fixpoint lcgOrbit (n : nat) (state : Z) : list Z :=
  match n with
  | O => []
  | S n' => SpecRng.lcg state :: lcgOrbit n' (SpecRng.lcg state)
  end.

(** The first [n] values returned by the closure whose variable is [state]. *)
Fixpoint draws (n : nat) (state : rngState) : list R :=
  match n with
  | O => []
  | S n' => let (u, state') := rng state in u :: draws n' state'
  end.

(** [p10 <= p50 <= p90]. *)
Definition ordered (t : PercentileTriple.t) : Prop :=
  (PercentileTriple.p10 t <= PercentileTriple.p50 t)%R
  /\ (PercentileTriple.p50 t <= PercentileTriple.p90 t)%R.

(** The confidence scorer in the spec's words, on real numbers. *)
Module SpecConfidence.

(** The number of known signals: those whose value is neither sentinel. *)
Fixpoint countKnown (signals : list Signal.t) : Z :=
  match signals with
  | [] => 0
  | signal :: rest =>
      if string_dec (Signal.value signal) "Not available" then countKnown rest
      else if string_dec (Signal.value signal) "Unknown" then countKnown rest
      else 1 + countKnown rest
  end.

Definition completenessPct (countKnown totalSignals : Z) : R :=
  IZR (Js.round (100 * IZR countKnown / IZR totalSignals)).

Definition warningPenalty (warningCount : Z) : R :=
  Rmin (6 * IZR warningCount) 30.

Definition availabilityPenalty (completenessPct : R) : R :=
  (Rmax 0 (100 - completenessPct) * (4 / 10))%R.

Definition confidenceScore (warningCount : Z) (completenessPct : R) : R :=
  Rmax 35 (IZR (Js.round (100 - warningPenalty warningCount
                          - availabilityPenalty completenessPct))).

End SpecConfidence.

(** The signal a rule resolves to: the last signal of the list that has
    the rule's [signalId]. *)
Definition matched (signals : list Signal.t) (signalId : string)
    : option Signal.t :=
  find (fun signal => String.eqb (Signal.id signal) signalId) (rev signals).

Definition isKey (a b : SeverityKey) : bool :=
  match a, b with
  | KHigh, KHigh | KMedium, KMedium | KLow, KLow => true
  | _, _ => false
  end.

(** The drivers of severity [k]. *)
Definition withSeverity (k : SeverityKey) (drivers : list CostDriver.t)
    : list CostDriver.t :=
  filter (fun driver => isKey (CostDriver.severity driver) k) drivers.

(** The driver a rule resolves to, when it resolves to one. *)
Definition ruleDriver (signals : list Signal.t) (rule : RuleConfig.t)
    : list CostDriver.t :=
  match matched signals (RuleConfig.signalId rule) with
  | Some signal =>
      match asSeverity (Signal.severity signal) with
      | Some severity =>
          match RuleConfig.deltas rule severity with
          | Some delta =>
              [CostDriver.mk
                 ("driver-" ++ RuleConfig.signalId rule)
                 (RuleConfig.signalId rule)
                 (Signal.label signal)
                 severity
                 (RuleConfig.costCategory rule)
                 (RuleConfig.impactType rule)
                 (Range.mk (fst (pair (Delta.pct delta)))
                           (snd (pair (Delta.pct delta))))
                 (Range.mk (fst (pair (Delta.days delta)))
                           (snd (pair (Delta.days delta))))
                 (RuleConfig.rationale rule)]
          | None => []
          end
      | None => []
      end
  | None => []
  end.

(** The drivers in the order of the rule table. *)
Definition driversInRuleOrder (config : Config.t) (signals : list Signal.t)
    : list CostDriver.t :=
  flat_map (ruleDriver signals) (Config.costRules config).

(** A rule faults on a request when the signal it resolves to has a
    severity that its [deltas] lacks. *)
Definition ruleFaults (signals : list Signal.t) (rule : RuleConfig.t) : Prop :=
  exists signal severity,
    matched signals (RuleConfig.signalId rule) = Some signal
    /\ asSeverity (Signal.severity signal) = Some severity
    /\ RuleConfig.deltas rule severity = None.

(** Descending severity rank. *)
Definition rankDescending (drivers : list CostDriver.t) : Prop :=
  StronglySorted
    (fun a b => rankSeverity (ofKey (CostDriver.severity b))
                <= rankSeverity (ofKey (CostDriver.severity a)))
    drivers.

(** Driver [d] comes from [rule] and from [signal], whose severity is one
    of high, medium and low. *)
Definition driverFrom (d : CostDriver.t) (rule : RuleConfig.t)
    (signal : Signal.t) : Prop :=
  RuleConfig.signalId rule = CostDriver.signalId d
  /\ Signal.id signal = CostDriver.signalId d
  /\ Signal.label signal = CostDriver.label d
  /\ Signal.severity signal = ofKey (CostDriver.severity d)
  /\ In (Signal.severity signal) [High; Medium; Low].

(** Action [a] comes from [signal], whose severity is high or medium. *)
Definition actionFrom (a : PMAction.t) (signal : Signal.t) : Prop :=
  PMAction.relatedSignalId a = Signal.id signal
  /\ PMAction.id a = ("action-" ++ Signal.id signal)%string
  /\ ((Signal.severity signal = High /\ PMAction.priority a = PHigh)
      \/ (Signal.severity signal = Medium /\ PMAction.priority a = PMedium)).

(** ** Sample inputs *)

Module Sample.

Definition floodHigh : Signal.t :=
  Signal.mk "flood-zone" "Flood Zone" "AE" High "Special flood hazard area.".

Definition slopeMedium : Signal.t :=
  Signal.mk "site-slope" "Site Slope" "6.0 %" Medium "Moderate grading.".

Definition soilUnknown : Signal.t :=
  Signal.mk "soil-drainage" "Soil Drainage" "Not available" Unknown
    "No soil survey record.".

Definition fireHigh : Signal.t :=
  Signal.mk "wildfire-risk" "Wildfire Risk" "Very high" High
    "Wildland-urban interface.".

Definition clayLow : Signal.t :=
  Signal.mk "clay" "Clay Content" "12 %" Low "Low shrink-swell potential.".

Definition fullDeltas (k : SeverityKey) : option Delta.t :=
  match k with
  | KHigh => Some (Delta.mk [5; 12] [10; 25])
  | KMedium => Some (Delta.mk [2; 5] [3; 10])
  | KLow => Some (Delta.mk [0; 1] [0; 2])
  end%R.

(** A [deltas] object without the key [high]. *)
Definition deltasWithoutHigh (k : SeverityKey) : option Delta.t :=
  match k with
  | KHigh => None
  | KMedium => Some (Delta.mk [2; 5] [3; 10])
  | KLow => Some (Delta.mk [0; 1] [0; 2])
  end%R.

Definition floodRule : RuleConfig.t :=
  RuleConfig.mk "flood-zone" "Sitework and drainage" Capex fullDeltas
    "Flood mitigation scope.".

Definition slopeRule : RuleConfig.t :=
  RuleConfig.mk "site-slope" "Earthwork" Schedule fullDeltas
    "Cut and fill volume.".

Definition clayRule : RuleConfig.t :=
  RuleConfig.mk "clay" "Foundations" Capex fullDeltas
    "Subgrade treatment.".

Definition fireRule : RuleConfig.t :=
  RuleConfig.mk "wildfire-risk" "Insurance and hardening" Insurance fullDeltas
    "Defensible space and premium.".

Definition brokenFloodRule : RuleConfig.t :=
  RuleConfig.mk "flood-zone" "Sitework and drainage" Capex deltasWithoutHigh
    "Flood mitigation scope.".

Definition library (id : string) : option ActionConfig.t :=
  if String.eqb id "flood-zone"
  then Some (ActionConfig.mk "Confirm flood elevation certificate"
               CivilEngineer Permit 14)
  else if String.eqb id "site-slope"
  then Some (ActionConfig.mk "Order topographic survey"
               CivilEngineer DesignDevelopment 10)
  else None.

Definition bands : list ContingencyBand.t :=
  [ContingencyBand.mk 0 3 5 "Low aggregate risk";
   ContingencyBand.mk 6 5 8 "Moderate aggregate risk";
   ContingencyBand.mk 12 8 12 "High aggregate risk"]%R.

Definition config : Config.t :=
  Config.mk [clayRule; fireRule; slopeRule; floodRule] library bands.

(** A configuration with a rule that lacks a severity and with an empty
    contingency ladder. *)
Definition brokenConfig : Config.t :=
  Config.mk [brokenFloodRule] library [].

Definition signals : list Signal.t :=
  [soilUnknown; floodHigh; clayLow; slopeMedium; fireHigh].

Definition unknownSignals : list Signal.t :=
  [soilUnknown; Signal.mk "flood-zone" "Flood Zone" "Unknown" Unknown ""].

Definition floodDriver : CostDriver.t :=
  CostDriver.mk "driver-flood-zone" "flood-zone" "Flood Zone" KHigh
    "Sitework and drainage" Capex (Range.mk 5 12) (Range.mk 10 25)
    "Flood mitigation scope.".

Definition fireDriver : CostDriver.t :=
  CostDriver.mk "driver-wildfire-risk" "wildfire-risk" "Wildfire Risk" KHigh
    "Insurance and hardening" Insurance (Range.mk 5 12) (Range.mk 10 25)
    "Defensible space and premium.".

Definition slopeDriver : CostDriver.t :=
  CostDriver.mk "driver-site-slope" "site-slope" "Site Slope" KMedium
    "Earthwork" Schedule (Range.mk 2 5) (Range.mk 3 10)
    "Cut and fill volume.".

Definition clayDriver : CostDriver.t :=
  CostDriver.mk "driver-clay" "clay" "Clay Content" KLow
    "Foundations" Capex (Range.mk 0 1) (Range.mk 0 2)
    "Subgrade treatment.".

(** The rules come in the order clay, fire, slope, flood. *)
Definition drivers : list CostDriver.t :=
  [fireDriver; floodDriver; slopeDriver; clayDriver].

(** A driver whose two ranges are single points. *)
Definition fixedDriver : CostDriver.t :=
  CostDriver.mk "driver-clay" "clay" "Clay Content" KLow
    "Foundations" Capex (Range.mk 5 5) (Range.mk 10 10)
    "Subgrade treatment.".

Definition fixedArgs : Args.t :=
  Args.mk [fixedDriver] (Some 1000000%R) (Js.codeUnits "foobar") (Some 3).

Definition args : Args.t :=
  Args.mk [floodDriver] (Some 1000000%R)
    (Js.codeUnits "300 E Lincoln Way, Ames, IA 50010") (Some 3).

End Sample.

(** * Properties *)

(** ** Integers modulo 2^32 *)

Lemma toInt32_mod (x : Z) : Js.toInt32 x mod 2 ^ 32 = x mod 2 ^ 32.
Proof.
  unfold Js.toInt32. change 4294967296 with (2 ^ 32).
  destruct (2147483648 <=? x mod 2 ^ 32).
  - rewrite <- (Z.mul_1_l (2 ^ 32)) at 2.
    unfold Z.sub. rewrite <- Z.mul_opp_l, Z.mod_add by lia.
    apply Z.mod_mod. lia.
  - apply Z.mod_mod. lia.
Qed.

Lemma lxor_mod (a b : Z) :
  Z.lxor a b mod 2 ^ 32 = Z.lxor (a mod 2 ^ 32) (b mod 2 ^ 32) mod 2 ^ 32.
Proof.
  apply Z.bits_inj'. intros i Hi.
  destruct (Z.lt_ge_cases i 32) as [Hlt | Hge].
  - rewrite !Z.mod_pow2_bits_low, !Z.lxor_spec, !Z.mod_pow2_bits_low by lia.
    reflexivity.
  - rewrite !Z.mod_pow2_bits_high by lia. reflexivity.
Qed.

Lemma xor_mod (a b : Z) : Js.xor a b mod 2 ^ 32 = Z.lxor a b mod 2 ^ 32.
Proof.
  unfold Js.xor.
  rewrite lxor_mod, !toInt32_mod, <- lxor_mod. reflexivity.
Qed.

Lemma imul_mod (a b : Z) : Js.imul a b mod 2 ^ 32 = (a * b) mod 2 ^ 32.
Proof.
  unfold Js.imul.
  rewrite toInt32_mod, Z.mul_mod, !toInt32_mod, <- Z.mul_mod by lia.
  reflexivity.
Qed.

Lemma fnv1a_range (s : list Z) : 0 <= SpecRng.fnv1a s < 2 ^ 32.
Proof.
  unfold SpecRng.fnv1a.
  assert (H : 0 <= 2166136261 < 2 ^ 32) by lia.
  revert H. generalize 2166136261.
  induction s as [| c s IH]; intros h Hh; simpl; [exact Hh |].
  apply IH. unfold SpecRng.fnv1a_step. apply Z.mod_pos_bound. lia.
Qed.

(** The code's running hash and the spec's agree modulo 2^32. *)
Lemma hash_fold_mod (s : list Z) (h h' : Z) :
  h mod 2 ^ 32 = h' mod 2 ^ 32 ->
  fold_left (fun hash c => Js.imul (Js.xor hash c) 16777619) s h mod 2 ^ 32
  = fold_left SpecRng.fnv1a_step s h' mod 2 ^ 32.
Proof.
  revert h h'. induction s as [| c s IH]; intros h h' Hh; simpl; [exact Hh |].
  apply IH. unfold SpecRng.fnv1a_step.
  rewrite imul_mod, Z.mod_mod by lia.
  rewrite Z.mul_mod, xor_mod by lia.
  rewrite (Z.mul_mod (Z.lxor h' c)) by lia.
  rewrite lxor_mod, Hh, <- lxor_mod. reflexivity.
Qed.

Lemma hashSeed_fnv1a (s : seedKey) : hashSeed s = SpecRng.fnv1a s.
Proof.
  unfold hashSeed, Js.toUint32, SpecRng.fnv1a.
  change 4294967296 with (2 ^ 32).
  rewrite (hash_fold_mod s 2166136261 2166136261) by reflexivity.
  apply Z.mod_small. apply fnv1a_range.
Qed.

Lemma rng_state (state : Z) : snd (rng state) = SpecRng.lcg state.
Proof.
  unfold rng, SpecRng.lcg, Js.toUint32. simpl.
  change 4294967296 with (2 ^ 32).
  rewrite Z.add_mod, imul_mod, <- Z.add_mod by lia. reflexivity.
Qed.

Lemma rng_value (state : Z) :
  fst (rng state) = (IZR (SpecRng.lcg state) / 4294967296)%R.
Proof.
  rewrite <- rng_state. reflexivity.
Qed.

Lemma lcg_range (state : Z) : 0 <= SpecRng.lcg state < 2 ^ 32.
Proof. unfold SpecRng.lcg. apply Z.mod_pos_bound. lia. Qed.

(** Every value the closure returns is in [0, 1). *)
Lemma rng_unit_interval (state : Z) : (0 <= fst (rng state) < 1)%R.
Proof.
  rewrite rng_value.
  destruct (lcg_range state) as [Hlo Hhi].
  apply IZR_le in Hlo. apply IZR_lt in Hhi.
  change (2 ^ 32) with 4294967296 in Hhi.
  split.
  - apply Rmult_le_pos; [exact Hlo |].
    apply Rlt_le, Rinv_0_lt_compat. lra.
  - apply Rmult_lt_reg_r with 4294967296%R; [lra |].
    unfold Rdiv. rewrite Rmult_assoc, Rinv_l by lra. lra.
Qed.

Lemma draws_orbit (n : nat) (state : Z) :
  draws n state
  = map (fun x => (IZR x / 4294967296)%R) (lcgOrbit n state).
Proof.
  revert state. induction n as [| n IH]; intros state; [reflexivity |].
  cbn [draws lcgOrbit map].
  pose proof (rng_state state) as Hs. pose proof (rng_value state) as Hv.
  destruct (rng state) as [u state']. cbn [fst snd] in Hs, Hv. subst.
  rewrite IH. reflexivity.
Qed.

(** ** The generator: seeding and recurrence *)

Lemma hashSeed_zero_key : hashSeed (Js.codeUnits "sXbssr") = 0.
Proof. vm_compute. reflexivity. Qed.

(** C2, as stated, fails: for the seed key ["sXbssr"], whose hash is 0, the
    first uniform value is not [((1664525 * hash + 1013904223) mod 2^32) / 2^32];
    the generator starts from 1, not from the hash. *)
Lemma first_draw_not_from_zero_hash :
  hashSeed (Js.codeUnits "sXbssr") = SpecRng.fnv1a (Js.codeUnits "sXbssr")
  /\ fst (rng (createRng (hashSeed (Js.codeUnits "sXbssr"))))
     <> (IZR (SpecRng.lcg (hashSeed (Js.codeUnits "sXbssr"))) / 4294967296)%R.
Proof.
  split; [apply hashSeed_fnv1a |].
  rewrite hashSeed_zero_key, rng_value.
  change (SpecRng.lcg (createRng 0)) with 1015568748.
  change (SpecRng.lcg 0) with 1013904223.
  intros H. lra.
Qed.

(** C2, amended: the seed is the 32-bit FNV-1a hash of the key; the
    generator's state starts from that hash, or from 1 when the hash is 0;
    every draw applies [state = (1664525 * state + 1013904223) mod 2^32] and
    returns [state / 2^32], a value of [0, 1). *)
Theorem rng_stream_of_seed_key (s : seedKey) (n : nat) :
  let start := if SpecRng.fnv1a s =? 0 then 1 else SpecRng.fnv1a s in
  hashSeed s = SpecRng.fnv1a s
  /\ createRng (hashSeed s) = start
  /\ draws n (createRng (hashSeed s))
     = map (fun x => (IZR x / 4294967296)%R) (lcgOrbit n start)
  /\ Forall (fun u => (0 <= u < 1)%R) (draws n (createRng (hashSeed s)))
  /\ fst (rng (createRng (hashSeed s)))
     = (IZR ((1664525 * start + 1013904223) mod 2 ^ 32) / 4294967296)%R.
Proof.
  intros start.
  assert (Hstart : createRng (hashSeed s) = start).
  { rewrite hashSeed_fnv1a. reflexivity. }
  rewrite Hstart.
  repeat split.
  - apply hashSeed_fnv1a.
  - apply draws_orbit.
  - generalize start. induction n as [| n IH]; intros st; [constructor |].
    cbn [draws].
    pose proof (rng_unit_interval st) as Hu.
    destruct (rng st) as [u st']. constructor; [exact Hu | apply IH].
  - apply rng_value.
Qed.

(** ** The triangular sampler *)

Lemma leb_true (a b : R) : Js.leb a b = true <-> (a <= b)%R.
Proof.
  unfold Js.leb. destruct (Rle_dec a b); split; intros; try easy; try lra.
Qed.

Lemma leb_false (a b : R) : Js.leb a b = false <-> (b < a)%R.
Proof.
  unfold Js.leb. destruct (Rle_dec a b); split; intros; try easy; try lra.
Qed.

Lemma sqrt_below (x d : R) : (0 <= d)%R -> (x <= d * d)%R -> (Js.sqrt x <= d)%R.
Proof.
  intros Hd Hx. unfold Js.sqrt.
  rewrite <- (sqrt_square d) by exact Hd.
  apply sqrt_le_1_alt. exact Hx.
Qed.

Lemma triangularSample_degenerate (S : Type) (gen : S -> R * S) (s : S)
    (min max mode : R) :
  (max <= min)%R -> triangularSample min max mode gen s = (min, s).
Proof.
  intros H. unfold triangularSample.
  apply leb_true in H. rewrite H. reflexivity.
Qed.

(** C7: a degenerate range returns [min] and leaves the generator alone; the
    quotient by [max - min] is formed only past the guard, where the divisor
    is positive; a proper range with the mode at its middle and a uniform
    value of [0, 1) gives a sample of [[min, max]]. *)
Theorem triangularSample_range (S : Type) (gen : S -> R * S) (s : S)
    (min max mode : R) :
  ((max <= min)%R -> triangularSample min max mode gen s = (min, s))
  /\ (Js.leb max min = false -> (0 < max - min)%R)
  /\ ((min < max)%R -> mode = ((min + max) / 2)%R ->
      (0 <= fst (gen s) < 1)%R ->
      (min <= fst (triangularSample min max mode gen s) <= max)%R).
Proof.
  split; [apply triangularSample_degenerate |].
  split; [intros H; apply leb_false in H; lra |].
  unfold triangularSample.
  intros Hlt Hmode Hu.
  assert (Hleb : Js.leb max min = false) by (apply leb_false; exact Hlt).
  rewrite Hleb.
  destruct (gen s) as [u s']. cbn [fst] in Hu.
  pose proof (sqrt_pos (u * (max - min) * (mode - min))) as Hp1.
  pose proof (sqrt_pos ((1 - u) * (max - min) * (max - mode))) as Hp2.
  assert (Hsq : (0 <= (max - min) * (max - min))%R) by nra.
  assert (Hu1 : (0 <= u * ((max - min) * (max - min)))%R)
    by (apply Rmult_le_pos; lra).
  assert (Hu2 : (0 <= (1 - u) * ((max - min) * (max - min)))%R)
    by (apply Rmult_le_pos; lra).
  assert (H1 : (Js.sqrt (u * (max - min) * (mode - min)) <= max - min)%R).
  { apply sqrt_below; [lra |]. subst mode. nra. }
  assert (H2 : (Js.sqrt ((1 - u) * (max - min) * (max - mode)) <= max - min)%R).
  { apply sqrt_below; [lra |]. subst mode. nra. }
  unfold Js.sqrt in *.
  destruct (Js.ltb u ((mode - min) / (max - min))); cbn [fst]; lra.
Qed.

Lemma triangularSample_range_witness :
  triangularSample 3 3 3 rng 1 = (3%R, 1)
  /\ (0 < 12 - 5)%R
  /\ (5 <= fst (triangularSample 5 12 (17 / 2) rng 1%Z) <= 12)%R.
Proof.
  split; [| split].
  - apply (proj1 (triangularSample_range Z rng 1 3 3 3)). lra.
  - apply (proj1 (proj2 (triangularSample_range Z rng 1 5 12 (17 / 2)))).
    apply leb_false. lra.
  - apply (proj2 (proj2 (triangularSample_range Z rng 1 5 12 (17 / 2)))).
    + lra.
    + lra.
    + apply rng_unit_interval.
Defined.

(** ** [Math.floor] and [Math.round] *)

Lemma floor_spec (x : R) : (IZR (Js.floor x) <= x < IZR (Js.floor x) + 1)%R.
Proof.
  unfold Js.floor. rewrite minus_IZR.
  destruct (archimed x) as [H1 H2]. lra.
Qed.

Lemma floor_unique (x : R) (n : Z) :
  (IZR n <= x < IZR n + 1)%R -> Js.floor x = n.
Proof.
  intros [Hlo Hhi]. destruct (floor_spec x) as [Flo Fhi].
  assert (H1 : (IZR (Js.floor x) < IZR (n + 1))%R) by (rewrite plus_IZR; lra).
  assert (H2 : (IZR n < IZR (Js.floor x + 1))%R) by (rewrite plus_IZR; lra).
  apply lt_IZR in H1, H2. lia.
Qed.

Lemma floor_mono (x y : R) : (x <= y)%R -> Js.floor x <= Js.floor y.
Proof.
  intros Hxy. destruct (floor_spec x) as [Xlo _], (floor_spec y) as [_ Yhi].
  assert (H : (IZR (Js.floor x) < IZR (Js.floor y + 1))%R)
    by (rewrite plus_IZR; lra).
  apply lt_IZR in H. lia.
Qed.

Lemma round_mono (x y : R) : (x <= y)%R -> Js.round x <= Js.round y.
Proof. intros H. apply floor_mono. lra. Qed.

Lemma round_IZR (n : Z) : Js.round (IZR n) = n.
Proof. apply floor_unique. lra. Qed.

Lemma round2_mono (x y : R) : (x <= y)%R -> (round2 x <= round2 y)%R.
Proof.
  intros H. unfold round2.
  assert (Hr : Js.round (x * 100) <= Js.round (y * 100))
    by (apply round_mono; lra).
  apply IZR_le in Hr. lra.
Qed.

Lemma round2_zero : round2 0 = 0%R.
Proof.
  unfold round2. rewrite Rmult_0_l, (round_IZR 0). lra.
Qed.

(** ** [Array.prototype.sort] *)

Section SortFacts.
Context {A : Type} (before : A -> A -> bool).

Lemma insert_perm (x : A) (l : list A) :
  Permutation (Js.insert before x l) (x :: l).
Proof.
  induction l as [| y r IH]; simpl; [reflexivity |].
  destruct (before x y); [reflexivity |].
  rewrite IH. apply perm_swap.
Qed.

Lemma sort_perm (l : list A) : Permutation (Js.sort before l) l.
Proof.
  induction l as [| x r IH]; simpl; [reflexivity |].
  rewrite insert_perm. apply perm_skip, IH.
Qed.

Lemma sort_length (l : list A) :
  List.length (Js.sort before l) = List.length l.
Proof. apply Permutation_length, sort_perm. Qed.

(** Stability: the elements of a class of equivalent elements keep their
    order. *)
Lemma filter_insert (p : A -> bool) (x : A) (l : list A) :
  (forall a b, p a = true -> p b = true -> before a b = true) ->
  filter p (Js.insert before x l)
  = if p x then x :: filter p l else filter p l.
Proof.
  intros Hclass. induction l as [| y r IH]; simpl; [reflexivity |].
  destruct (before x y) eqn:Hxy; simpl.
  - reflexivity.
  - rewrite IH. destruct (p x) eqn:Hx, (p y) eqn:Hy; try reflexivity.
    rewrite (Hclass x y Hx Hy) in Hxy. discriminate.
Qed.

Lemma filter_sort (p : A -> bool) (l : list A) :
  (forall a b, p a = true -> p b = true -> before a b = true) ->
  filter p (Js.sort before l) = filter p l.
Proof.
  intros Hclass. induction l as [| x r IH]; simpl; [reflexivity |].
  rewrite filter_insert, IH by exact Hclass. reflexivity.
Qed.

Hypothesis before_total : forall a b, before a b = true \/ before b a = true.
Hypothesis before_trans :
  forall a b c, before a b = true -> before b c = true -> before a c = true.

Lemma insert_sorted (x : A) (l : list A) :
  StronglySorted (fun a b => before a b = true) l ->
  StronglySorted (fun a b => before a b = true) (Js.insert before x l).
Proof.
  intros Hs. induction Hs as [| y r Hr IH Hy]; simpl.
  - constructor; constructor.
  - destruct (before x y) eqn:Hxy.
    + constructor; [constructor; assumption |].
      constructor; [exact Hxy |].
      eapply Forall_impl; [| exact Hy].
      intros z Hz. eapply before_trans; eassumption.
    + constructor; [exact IH |].
      eapply Permutation_Forall; [symmetry; apply insert_perm |].
      constructor; [| exact Hy].
      destruct (before_total x y) as [H | H]; [congruence | exact H].
Qed.

Lemma sort_sorted (l : list A) :
  StronglySorted (fun a b => before a b = true) (Js.sort before l).
Proof.
  induction l as [| x r IH]; simpl; [constructor |].
  apply insert_sorted, IH.
Qed.

End SortFacts.

Lemma ascending_le (a b : R) : ascending a b = true <-> (a <= b)%R.
Proof. unfold ascending. rewrite leb_true. lra. Qed.

Lemma sort_ascending (l : list R) : StronglySorted Rle (Js.sort ascending l).
Proof.
  assert (H : StronglySorted (fun a b => ascending a b = true)
                             (Js.sort ascending l)).
  { apply sort_sorted.
    - intros a b. rewrite !ascending_le. lra.
    - intros a b c. rewrite !ascending_le. lra. }
  induction H as [| x r Hr IH Hx]; constructor; [exact IH |].
  eapply Forall_impl; [| exact Hx]. intros y. apply ascending_le.
Qed.

Lemma sorted_nth (l : list R) :
  StronglySorted Rle l ->
  forall i j : nat, (i <= j < List.length l)%nat ->
  (nth i l 0 <= nth j l 0)%R.
Proof.
  intros Hs. induction Hs as [| x r Hr IH Hx]; intros i j [Hij Hj].
  - simpl in Hj. lia.
  - destruct i as [| i], j as [| j]; simpl in *; try lia.
    + lra.
    + rewrite Forall_forall in Hx. apply Hx, nth_In. lia.
    + apply IH. lia.
Qed.

(** ** Percentiles *)

Lemma percentile_mono (l : list R) (p q : R) :
  StronglySorted Rle l -> (p <= q)%R -> (percentile l p <= percentile l q)%R.
Proof.
  intros Hs Hpq. unfold percentile.
  destruct l as [| x r] eqn:El; [lra |]. rewrite <- El in *.
  assert (Hlen : 1 <= Z.of_nat (List.length l)) by (subst l; simpl; lia).
  set (len := Z.of_nat (List.length l)) in *.
  assert (Hfl : Js.floor (p / 100 * IZR len) <= Js.floor (q / 100 * IZR len)).
  { apply floor_mono.
    assert (0 <= IZR len)%R by (apply IZR_le; lia).
    nra. }
  apply sorted_nth; [exact Hs |].
  unfold len in *. lia.
Qed.

Lemma toTriple_ordered (l : list R) :
  StronglySorted Rle l ->
  ordered (toTriple (percentile l 10) (percentile l 50) (percentile l 90)).
Proof.
  intros Hs. unfold ordered, toTriple. simpl.
  split; apply round2_mono, percentile_mono; try exact Hs; lra.
Qed.

(** C3: the percentile triples of an estimate are ordered, for every
    driver list, seed key, baseline and sample size (so for every sample
    size [>= 1]). *)
Theorem estimate_percentiles_ordered (args : Args.t) :
  ordered (ProbabilisticEstimate.impactPct (buildProbabilisticEstimate args))
  /\ ordered (ProbabilisticEstimate.scheduleDays (buildProbabilisticEstimate args))
  /\ match ProbabilisticEstimate.impactCostUsd (buildProbabilisticEstimate args) with
     | Some usd => ordered usd
     | None => True
     end.
Proof.
  unfold buildProbabilisticEstimate.
  destruct (trials _ _ _ _ _) as [pctTotals dayTotals].
  cbn [ProbabilisticEstimate.impactPct ProbabilisticEstimate.scheduleDays
       ProbabilisticEstimate.impactCostUsd].
  pose proof (toTriple_ordered _ (sort_ascending pctTotals)) as Hpct.
  pose proof (toTriple_ordered _ (sort_ascending dayTotals)) as Hday.
  split; [exact Hpct |]. split; [exact Hday |].
  destruct (Args.baselineCostUsd args) as [baseline |]; [| exact I].
  destruct (Js.ltb 0 baseline) eqn:Hb; [| exact I].
  assert (Hpos : (0 < baseline)%R).
  { unfold Js.ltb in Hb. destruct (Rlt_dec 0 baseline); [assumption | discriminate]. }
  destruct Hpct as [H1 H2].
  split; cbn [PercentileTriple.p10 PercentileTriple.p50 PercentileTriple.p90];
    apply round2_mono; nra.
Qed.

(** ** The empty driver list *)

Lemma trials_no_driver (n : nat) (st : rngState) (pctTotals dayTotals : list R) :
  trials n [] st pctTotals dayTotals
  = (pctTotals ++ repeat 0%R n, dayTotals ++ repeat 0%R n).
Proof.
  revert pctTotals dayTotals.
  induction n as [| n IH]; intros pctTotals dayTotals.
  - simpl. rewrite !app_nil_r. reflexivity.
  - cbn [trials trial fold_left]. rewrite IH, <- !app_assoc. reflexivity.
Qed.

Lemma sort_repeat (x : R) (n : nat) :
  Js.sort ascending (repeat x n) = repeat x n.
Proof.
  induction n as [| n IH]; [reflexivity |].
  cbn [repeat Js.sort]. rewrite IH.
  destruct n as [| n]; [reflexivity |].
  cbn [repeat Js.insert].
  assert (H : ascending x x = true) by (apply ascending_le; lra).
  rewrite H. reflexivity.
Qed.

Lemma percentile_repeat (x : R) (n : nat) (p : R) :
  percentile (repeat x (S n)) p = x.
Proof.
  unfold percentile. cbn [repeat].
  change (x :: repeat x n) with (repeat x (S n)).
  set (len := Z.of_nat (List.length (repeat x (S n)))).
  assert (Hlen : len = Z.of_nat (S n)) by (unfold len; rewrite repeat_length; reflexivity).
  set (idx := Z.min (len - 1) (Z.max 0 (Js.floor (p / 100 * IZR len)))).
  apply nth_error_nth. apply nth_error_repeat. lia.
Qed.

Lemma percentile_zeros (n : nat) (p : R) : percentile (repeat 0%R n) p = 0%R.
Proof.
  destruct n as [| n]; [reflexivity | apply percentile_repeat].
Qed.

(** C8: with no cost driver, both triples are [{0, 0, 0}], for every seed
    key, baseline and sample size (absent, positive or not); the estimator
    has no failing path. *)
Theorem estimate_no_driver (baseline : option R) (key : seedKey)
    (size : option Z) :
  let estimate := buildProbabilisticEstimate (Args.mk [] baseline key size) in
  ProbabilisticEstimate.impactPct estimate = PercentileTriple.mk 0 0 0
  /\ ProbabilisticEstimate.scheduleDays estimate = PercentileTriple.mk 0 0 0.
Proof.
  unfold buildProbabilisticEstimate.
  cbn [Args.costDrivers Args.sampleSize Args.seedKey Args.baselineCostUsd].
  rewrite trials_no_driver. cbn [app].
  cbn [ProbabilisticEstimate.impactPct ProbabilisticEstimate.scheduleDays].
  rewrite sort_repeat, !percentile_zeros.
  unfold toTriple. rewrite round2_zero. split; reflexivity.
Qed.

(** ** Determinism *)

(** The estimate is replayed from the generator's first state: it depends
    on the seed key through [createRng (hashSeed key)] only, and on the
    sample size through the number of trials only. *)
Lemma estimate_replay (a b : Args.t) :
  Args.costDrivers a = Args.costDrivers b ->
  Args.baselineCostUsd a = Args.baselineCostUsd b ->
  createRng (hashSeed (Args.seedKey a)) = createRng (hashSeed (Args.seedKey b)) ->
  Z.to_nat (match Args.sampleSize a with Some n => n | None => 2000 end)
  = Z.to_nat (match Args.sampleSize b with Some n => n | None => 2000 end) ->
  ProbabilisticEstimate.impactPct (buildProbabilisticEstimate a)
  = ProbabilisticEstimate.impactPct (buildProbabilisticEstimate b)
  /\ ProbabilisticEstimate.scheduleDays (buildProbabilisticEstimate a)
     = ProbabilisticEstimate.scheduleDays (buildProbabilisticEstimate b)
  /\ ProbabilisticEstimate.impactCostUsd (buildProbabilisticEstimate a)
     = ProbabilisticEstimate.impactCostUsd (buildProbabilisticEstimate b).
Proof.
  intros Hd Hb Hst Hn.
  unfold buildProbabilisticEstimate. rewrite Hd, Hb, Hst, Hn.
  destruct (trials _ _ _ _ _) as [pctTotals dayTotals].
  repeat split.
Qed.

(** The variable of the closure created last is the last of the store. *)
Lemma assign_last (pre : list rngState) (state v : rngState) :
  Store.assign (pre ++ [state]) (List.length pre) v = pre ++ [v].
Proof.
  induction pre as [| x pre IH]; [reflexivity |].
  cbn [app List.length Store.assign]. rewrite IH. reflexivity.
Qed.

(** A call of the closure created last is a step of [rng] on its variable;
    the older variables and the globals are as before. *)
Lemma rng_in_store (E : Type) (e : E) (pre : list rngState)
    (state : rngState) :
  Store.rng (List.length pre) (Store.mk e (pre ++ [state]))
  = (fst (rng state), Store.mk e (pre ++ [snd (rng state)])).
Proof.
  unfold Store.rng. cbn [Store.cells Store.env].
  rewrite nth_middle.
  destruct (rng state) as [u state']. cbn [fst snd].
  rewrite assign_last. reflexivity.
Qed.

Lemma triangularSample_in_store (E : Type) (e : E) (pre : list rngState)
    (min max mode : R) (state : rngState) :
  triangularSample min max mode (Store.rng (List.length pre))
                   (Store.mk e (pre ++ [state]))
  = (fst (triangularSample min max mode rng state),
     Store.mk e (pre ++ [snd (triangularSample min max mode rng state)])).
Proof.
  unfold triangularSample. rewrite rng_in_store.
  destruct (Js.leb max min); [reflexivity |].
  destruct (rng state) as [u state']. cbn [fst snd].
  destruct (Js.ltb u ((mode - min) / (max - min))); reflexivity.
Qed.

Lemma sampleDriver_in_store (E : Type) (e : E) (pre : list rngState)
    (pctSum daySum : R) (state : rngState) (driver : CostDriver.t) :
  Store.sampleDriver (List.length pre)
    (pctSum, daySum, Store.mk e (pre ++ [state])) driver
  = (fst (fst (sampleDriver (pctSum, daySum, state) driver)),
     snd (fst (sampleDriver (pctSum, daySum, state) driver)),
     Store.mk e (pre ++ [snd (sampleDriver (pctSum, daySum, state) driver)])).
Proof.
  unfold Store.sampleDriver, sampleDriver.
  rewrite triangularSample_in_store.
  destruct (triangularSample _ _ _ rng state) as [pctSample state1].
  cbn [fst snd]. rewrite triangularSample_in_store.
  destruct (triangularSample _ _ _ rng state1) as [daySample state2].
  reflexivity.
Qed.

Lemma drivers_in_store (E : Type) (e : E) (pre : list rngState)
    (costDrivers : list CostDriver.t) (pctSum daySum : R)
    (state : rngState) :
  fold_left (Store.sampleDriver (List.length pre)) costDrivers
    (pctSum, daySum, Store.mk e (pre ++ [state]))
  = (fst (fst (fold_left sampleDriver costDrivers (pctSum, daySum, state))),
     snd (fst (fold_left sampleDriver costDrivers (pctSum, daySum, state))),
     Store.mk e
       (pre ++ [snd (fold_left sampleDriver costDrivers
                       (pctSum, daySum, state))])).
Proof.
  revert pctSum daySum state.
  induction costDrivers as [| driver rest IH]; intros pctSum daySum state;
    [reflexivity |].
  cbn [fold_left]. rewrite sampleDriver_in_store.
  destruct (sampleDriver (pctSum, daySum, state) driver)
    as [[pctSum' daySum'] state'].
  cbn [fst snd]. apply IH.
Qed.

Lemma trials_in_store (E : Type) (e : E) (pre : list rngState)
    (costDrivers : list CostDriver.t) (n : nat) (state : rngState)
    (pctTotals dayTotals : list R) :
  exists state',
    Store.trials n (List.length pre) costDrivers
      (Store.mk e (pre ++ [state])) pctTotals dayTotals
    = (trials n costDrivers state pctTotals dayTotals,
       Store.mk e (pre ++ [state'])).
Proof.
  revert state pctTotals dayTotals.
  induction n as [| n IH]; intros state pctTotals dayTotals.
  - exists state. reflexivity.
  - cbn [Store.trials trials]. unfold Store.trial, trial.
    rewrite drivers_in_store.
    destruct (fold_left sampleDriver costDrivers (0%R, 0%R, state))
      as [[pctSum daySum] state1].
    cbn [fst snd]. apply IH.
Qed.

(** An invocation returns the estimate of its arguments and leaves the
    store as it found it, but for the variable of the closure it created. *)
Lemma invocation (E : Type) (args : Args.t) (w : Store.t E) :
  exists state,
    Store.buildProbabilisticEstimate args w
    = (buildProbabilisticEstimate args,
       Store.mk (Store.env w) (Store.cells w ++ [state])).
Proof.
  unfold Store.buildProbabilisticEstimate, buildProbabilisticEstimate,
    Store.createRng.
  destruct (trials_in_store E (Store.env w) (Store.cells w)
              (Args.costDrivers args)
              (Z.to_nat (match Args.sampleSize args with
                         | Some n => n | None => 2000 end))
              (createRng (hashSeed (Args.seedKey args))) [] [])
    as [state Hrun].
  exists state. rewrite Hrun.
  destruct (trials _ _ _ _ _) as [pctTotals dayTotals]. reflexivity.
Qed.

(** C1: an invocation of the estimator returns the same estimate in every
    store: in the store that an earlier invocation with the same arguments
    has left (repeated invocations) and in any other one, whatever the
    state of the globals and of the closures created before.  The estimate
    is the one that the arguments alone determine, the globals are left as
    found, and no variable of an older closure is written: the only state
    the invocation uses is the variable of the generator it creates from
    the seed key. *)
Theorem estimate_deterministic (E : Type) (args : Args.t)
    (w w' : Store.t E) :
  let first := Store.buildProbabilisticEstimate args w in
  fst (Store.buildProbabilisticEstimate args (snd first)) = fst first
  /\ fst (Store.buildProbabilisticEstimate args w') = fst first
  /\ fst first = buildProbabilisticEstimate args
  /\ Store.env (snd first) = Store.env w
  /\ firstn (List.length (Store.cells w)) (Store.cells (snd first))
     = Store.cells w.
Proof.
  intros first. unfold first.
  destruct (invocation E args w) as [state Hw]. rewrite Hw. cbn [fst snd].
  destruct (invocation E args
              (Store.mk (Store.env w) (Store.cells w ++ [state])))
    as [state2 Hagain].
  destruct (invocation E args w') as [state' Hw'].
  rewrite Hagain, Hw'. cbn [fst snd Store.env Store.cells].
  repeat split.
  rewrite firstn_app, Nat.sub_diag, firstn_all. cbn [firstn].
  apply app_nil_r.
Qed.

(** ** The confidence scorer *)

(** Rounding a quotient of integers, in integer arithmetic. *)
Lemma round_div (a b : Z) :
  0 < b -> Js.round (IZR a / IZR b) = (2 * a + b) / (2 * b).
Proof.
  intros Hb. apply floor_unique.
  pose proof (Z.div_mod (2 * a + b) (2 * b) ltac:(lia)) as Hdm.
  pose proof (Z.mod_pos_bound (2 * a + b) (2 * b) ltac:(lia)) as Hr.
  set (q := (2 * a + b) / (2 * b)) in *.
  set (r := (2 * a + b) mod (2 * b)) in *.
  assert (HbR : (0 < IZR b)%R) by (apply IZR_lt; exact Hb).
  assert (Hx : (IZR a / IZR b + / 2
                = (IZR (2 * b * q + r)) / (2 * IZR b))%R).
  { rewrite <- Hdm, plus_IZR, mult_IZR. field. lra. }
  rewrite Hx, plus_IZR, !mult_IZR.
  destruct Hr as [Hr0 Hr1]. apply IZR_le in Hr0. apply IZR_lt in Hr1.
  rewrite mult_IZR in Hr1.
  split.
  - apply Rmult_le_reg_r with (2 * IZR b)%R; [lra |].
    unfold Rdiv. rewrite Rmult_assoc, Rinv_l by lra. lra.
  - apply Rmult_lt_reg_r with (2 * IZR b)%R; [lra |].
    unfold Rdiv. rewrite Rmult_assoc, Rinv_l by lra. lra.
Qed.

Lemma countKnown_filter (signals : list Signal.t) :
  SpecConfidence.countKnown signals
  = Z.of_nat (List.length (filter isKnown signals)).
Proof.
  induction signals as [| signal rest IH]; [reflexivity |].
  cbn [SpecConfidence.countKnown filter]. unfold isKnown at 1.
  destruct (string_dec (Signal.value signal) "Not available") as [E1 | E1].
  - rewrite E1. simpl. exact IH.
  - apply String.eqb_neq in E1. rewrite E1.
    destruct (string_dec (Signal.value signal) "Unknown") as [E2 | E2].
    + rewrite E2. simpl. exact IH.
    + apply String.eqb_neq in E2. rewrite E2. cbn [negb andb List.length].
      rewrite IH. lia.
Qed.

Lemma countKnown_bounds (signals : list Signal.t) :
  0 <= SpecConfidence.countKnown signals <= Z.of_nat (List.length signals).
Proof.
  rewrite countKnown_filter.
  pose proof (filter_length_le isKnown signals). lia.
Qed.

(** The two roundings of [scoreConfidence], in integer arithmetic. *)
Lemma completeness_closed_form (k n : Z) :
  0 < n -> Js.round (IZR k / IZR n * 100) = (200 * k + n) / (2 * n).
Proof.
  intros Hn.
  replace (IZR k / IZR n * 100)%R with (IZR (100 * k) / IZR n)%R.
  - rewrite round_div by exact Hn. f_equal. lia.
  - rewrite mult_IZR. field. apply eq_IZR_contrapositive. lia.
Qed.

Lemma score_closed_form (wp m : Z) :
  Js.round (100 - IZR wp - IZR m * (4 / 10)) = (1005 - 10 * wp - 4 * m) / 10.
Proof.
  replace (100 - IZR wp - IZR m * (4 / 10))%R
    with (IZR (1000 - 10 * wp - 4 * m) / IZR 10)%R.
  - rewrite round_div by lia.
    replace (2 * (1000 - 10 * wp - 4 * m) + 10) with ((1005 - 10 * wp - 4 * m) * 2) by lia.
    change (2 * 10) with (10 * 2).
    apply Z.div_mul_cancel_r; lia.
  - rewrite !minus_IZR, !mult_IZR. field.
Qed.

(** The scorer over the reals, in integer arithmetic. *)
Lemma scoreConfidence_ideal (signals : list Signal.t)
    (warnings : list string) :
  scoreConfidence signals warnings
  = Double.ideal
      (Z.of_nat (List.length (filter isKnown signals)))
      (if Z.of_nat (List.length signals) =? 0 then 1
       else Z.of_nat (List.length signals))
      (Z.of_nat (List.length warnings)).
Proof.
  unfold scoreConfidence, Double.ideal.
  set (n := if Z.of_nat (List.length signals) =? 0 then 1
            else Z.of_nat (List.length signals)).
  assert (Hn : 0 < n) by (unfold n; destruct (_ =? 0) eqn:E; lia).
  rewrite completeness_closed_form by exact Hn.
  rewrite score_closed_form. reflexivity.
Qed.

(** Five warnings or more weigh the same. *)
Lemma warningPenalty_capped (w : nat) :
  Z.min (Z.of_nat w * 6) 30 = Z.min (Z.of_nat (Nat.min w 5) * 6) 30.
Proof. lia. Qed.

Lemma sameResult_eq (a b : Confidence.t) :
  Double.sameResult a b = true -> a = b.
Proof.
  destruct a, b. unfold Double.sameResult.
  cbn [Confidence.confidenceScore Confidence.dataCompletenessPct].
  rewrite andb_true_iff, !Z.eqb_eq. intros [-> ->]. reflexivity.
Qed.

(** Below 40 signals the doubles never meet a tie from the wrong side: the
    scorer in doubles returns what exact arithmetic gives.  (The lists that
    the application scores have 11 or 17 signals.) *)
Lemma scoreConfidence_double_small (signals : list Signal.t)
    (warnings : list string) :
  (List.length signals < 40)%nat ->
  Double.scoreConfidence signals warnings = scoreConfidence signals warnings.
Proof.
  intros Hlen. rewrite scoreConfidence_ideal. unfold Double.scoreConfidence.
  set (known := List.length (filter isKnown signals)).
  assert (Hknown : (known <= List.length signals)%nat)
    by apply filter_length_le.
  set (total := Nat.max 1 (List.length signals)).
  replace (if Z.of_nat (List.length signals) =? 0 then 1
           else Z.of_nat (List.length signals))
    with (Z.of_nat total)
    by (unfold total; destruct (Z.eqb_spec (Z.of_nat (List.length signals)) 0);
        lia).
  unfold Double.score, Double.ideal.
  rewrite (warningPenalty_capped (List.length warnings)).
  fold (Double.score (Z.of_nat known) (Z.of_nat total)
          (Z.of_nat (Nat.min (List.length warnings) 5))).
  fold (Double.ideal (Z.of_nat known) (Z.of_nat total)
          (Z.of_nat (Nat.min (List.length warnings) 5))).
  apply sameResult_eq.
  assert (Htable : forallb Double.agreeOn (seq 1 39) = true)
    by (vm_compute; reflexivity).
  rewrite forallb_forall in Htable.
  assert (Htotal : Double.agreeOn total = true).
  { apply Htable, in_seq. unfold total. lia. }
  unfold Double.agreeOn in Htotal. rewrite forallb_forall in Htotal.
  assert (Hrow := Htotal known ltac:(apply in_seq; unfold total; lia)).
  rewrite forallb_forall in Hrow.
  apply Hrow, in_seq. lia.
Qed.

(** The smallest list that shows the tie has 40 signals, 23 of them
    known: 57.5 percent reads 57 in doubles. *)
Example scoreConfidence_smallest_tie :
  Double.score 23 40 0 = Confidence.mk 83 57
  /\ Double.ideal 23 40 0 = Confidence.mk 83 58.
Proof. split; vm_compute; reflexivity. Qed.

(** C9: at 57 known signals of 200 and no warning the claim's formula
    gives completeness 29 (28.5 rounded) and score 72, and the scorer
    returns completeness 28 and score 71: the code divides before it
    multiplies by 100, [57 / 200 * 100] is a double just below 28.5, and
    [Math.round] takes it down. *)
Theorem scoreConfidence_below_tie :
  SpecConfidence.countKnown tieSignals = 57
  /\ Z.of_nat (List.length tieSignals) = 200
  /\ Double.scoreConfidence tieSignals [] = Confidence.mk 71 28
  /\ SpecConfidence.completenessPct 57 200 = 29%R
  /\ SpecConfidence.confidenceScore 0 29 = 72%R.
Proof.
  split; [vm_compute; reflexivity |].
  split; [vm_compute; reflexivity |].
  split; [vm_compute; reflexivity |].
  split.
  - unfold SpecConfidence.completenessPct.
    replace (100 * 57 / 200)%R with (IZR 5700 / IZR 200)%R by lra.
    rewrite round_div by lia. reflexivity.
  - unfold SpecConfidence.confidenceScore, SpecConfidence.warningPenalty,
      SpecConfidence.availabilityPenalty.
    rewrite Rmin_left by lra. rewrite (Rmax_right 0) by lra.
    replace (100 - 6 * 0 - (100 - 29) * (4 / 10))%R
      with (100 - IZR 0 - IZR 71 * (4 / 10))%R by lra.
    rewrite score_closed_form.
    change ((1005 - 10 * 0 - 4 * 71) / 10) with 72.
    apply Rmax_right. lra.
Qed.

(** C10: on the empty signal list the denominator is 1: completeness is 0
    and, with no warning, the score is 60; with [w] warnings it is
    [max(35, 60 - min(6 w, 30))]. *)
Theorem scoreConfidence_no_signal (warnings : list string) :
  Confidence.dataCompletenessPct (scoreConfidence [] warnings) = 0
  /\ Confidence.confidenceScore (scoreConfidence [] warnings)
     = Z.max 35 (60 - Z.min (6 * Z.of_nat (List.length warnings)) 30)
  /\ Confidence.confidenceScore (scoreConfidence [] []) = 60.
Proof.
  assert (Hc : Js.round (IZR 0 / IZR 1 * 100) = 0).
  { rewrite completeness_closed_form by lia. reflexivity. }
  unfold scoreConfidence.
  cbn [List.length filter Z.of_nat Z.eqb
       Confidence.dataCompletenessPct Confidence.confidenceScore].
  rewrite Hc. split; [reflexivity |].
  rewrite !score_closed_form. split.
  - change (Z.max 0 (100 - 0)) with 100.
    set (w := Z.of_nat (List.length warnings)).
    assert (Hw : 0 <= w) by (unfold w; lia).
    replace (1005 - 10 * Z.min (w * 6) 30 - 4 * 100)
      with (5 + (60 - Z.min (w * 6) 30) * 10) by lia.
    rewrite Z.div_add by lia. change (5 / 10) with 0.
    rewrite (Z.mul_comm 6 w). lia.
  - reflexivity.
Qed.

(** ** The rule resolver *)

Lemma fromEntries_rev {V : Type} (entries : list (string * V)) :
  JsMap.fromEntries entries = rev entries.
Proof.
  unfold JsMap.fromEntries.
  rewrite <- (app_nil_r (rev entries)). generalize (@nil (string * V)).
  induction entries as [| [k v] r IH]; intros acc; simpl; [reflexivity |].
  rewrite IH, <- app_assoc. reflexivity.
Qed.

Lemma get_find (m : list (string * Signal.t)) (k : string) :
  Forall (fun e => fst e = Signal.id (snd e)) m ->
  JsMap.get m k
  = find (fun signal => String.eqb (Signal.id signal) k) (map snd m).
Proof.
  intros Hm. induction Hm as [| [k' v] r Hk Hr IH]; simpl; [reflexivity |].
  simpl in Hk. subst k'.
  destruct (String.eqb (Signal.id v) k); [reflexivity | exact IH].
Qed.

(** [byId.get(id)] is the last signal with that id. *)
Lemma byId_get (signals : list Signal.t) (k : string) :
  JsMap.get
    (JsMap.fromEntries (map (fun signal => (Signal.id signal, signal)) signals)) k
  = matched signals k.
Proof.
  rewrite fromEntries_rev, get_find.
  - unfold matched. rewrite <- map_rev, map_map. simpl. rewrite map_id.
    reflexivity.
  - apply Forall_rev. apply Forall_forall. intros e He.
    apply in_map_iff in He. destruct He as [s [<- _]]. reflexivity.
Qed.

Lemma matched_in (signals : list Signal.t) (k : string) (signal : Signal.t) :
  matched signals k = Some signal ->
  In signal signals /\ Signal.id signal = k.
Proof.
  unfold matched. intros H. apply find_some in H. destruct H as [Hin Heq].
  split; [apply in_rev; exact Hin | apply String.eqb_eq; exact Heq].
Qed.

(** One rule: the callback either throws, exactly when the rule faults, or
    returns what [ruleDriver] lists. *)
Lemma resolveRule_cases (signals : list Signal.t) (rule : RuleConfig.t) :
  let byId :=
    JsMap.fromEntries (map (fun signal => (Signal.id signal, signal)) signals) in
  (resolveRule byId rule = Js.TypeError /\ ruleFaults signals rule)
  \/ (exists r, resolveRule byId rule = Js.Ok r
                /\ ruleDriver signals rule
                   = match r with Some d => [d] | None => [] end
                /\ ~ ruleFaults signals rule).
Proof.
  intros byId. unfold resolveRule, ruleDriver, ruleFaults, byId.
  rewrite byId_get.
  destruct (matched signals (RuleConfig.signalId rule)) as [signal |].
  2: { right. exists None. repeat split. intros (s & k & H & _). discriminate. }
  destruct (asSeverity (Signal.severity signal)) as [severity |] eqn:Hsev.
  2: { right. exists None. repeat split.
       intros (s & k & [= <-] & H & _). congruence. }
  destruct (RuleConfig.deltas rule severity) as [delta |] eqn:Hdelta.
  - right. destruct (pair (Delta.pct delta)), (pair (Delta.days delta)).
    eexists. repeat split.
    intros (s & k & [= <-] & H1 & H2). congruence.
  - left. split; [reflexivity |]. exists signal, severity. auto.
Qed.

Lemma mapM_resolve (signals : list Signal.t) (rules : list RuleConfig.t) :
  let byId :=
    JsMap.fromEntries (map (fun signal => (Signal.id signal, signal)) signals) in
  (mapM (resolveRule byId) rules = Js.TypeError
   /\ exists rule, In rule rules /\ ruleFaults signals rule)
  \/ (exists mapped, mapM (resolveRule byId) rules = Js.Ok mapped
                     /\ nonNull mapped = flat_map (ruleDriver signals) rules
                     /\ forall rule, In rule rules -> ~ ruleFaults signals rule).
Proof.
  intros byId. induction rules as [| rule rest IH].
  - right. exists []. repeat split. intros rule [].
  - cbn [mapM flat_map].
    destruct (resolveRule_cases signals rule) as [[E F] | (r & E & D & F)];
      fold byId in E; rewrite E; cbn [bind].
    + left. split; [reflexivity |]. exists rule. split; [left; reflexivity | exact F].
    + destruct IH as [[E' (rule' & Hin & F')] | (mapped & E' & D' & F')];
        rewrite E'; cbn [bind].
      * left. split; [reflexivity |]. exists rule'. split; [right; exact Hin | exact F'].
      * right. exists (r :: mapped). split; [reflexivity |]. split.
        -- rewrite D, <- D'. destruct r; reflexivity.
        -- intros rule' [<- | Hin]; [exact F | apply F'; exact Hin].
Qed.

(** The resolver either throws, exactly when some rule faults, or returns
    the rule-order drivers, sorted. *)
Lemma buildCostDrivers_cases (config : Config.t) (signals : list Signal.t) :
  (buildCostDrivers config signals = Js.TypeError
   /\ exists rule, In rule (Config.costRules config) /\ ruleFaults signals rule)
  \/ (buildCostDrivers config signals
      = Js.Ok (Js.sort byRankDesc (driversInRuleOrder config signals))
      /\ forall rule, In rule (Config.costRules config) ->
                      ~ ruleFaults signals rule).
Proof.
  unfold buildCostDrivers, driversInRuleOrder.
  destruct (mapM_resolve signals (Config.costRules config))
    as [[E F] | (mapped & E & D & F)]; rewrite E; cbn [bind].
  - left. split; [reflexivity | exact F].
  - right. rewrite D. split; [reflexivity | exact F].
Qed.

Lemma buildCostDrivers_ok (config : Config.t) (signals : list Signal.t)
    (drivers : list CostDriver.t) :
  buildCostDrivers config signals = Js.Ok drivers ->
  drivers = Js.sort byRankDesc (driversInRuleOrder config signals).
Proof.
  intros H.
  destruct (buildCostDrivers_cases config signals) as [[E _] | [E _]];
    congruence.
Qed.

Lemma byRankDesc_le (a b : CostDriver.t) :
  byRankDesc a b = true
  <-> rankSeverity (ofKey (CostDriver.severity b))
      <= rankSeverity (ofKey (CostDriver.severity a)).
Proof. unfold byRankDesc. rewrite Z.leb_le. lia. Qed.

Lemma isKey_eq (a b : SeverityKey) : isKey a b = true <-> a = b.
Proof. destruct a, b; simpl; split; intros; congruence. Qed.

(** C6: the drivers returned are in descending order of severity rank, and
    the drivers of each severity are the drivers of that severity in the
    order of the rule table. *)
Theorem drivers_sorted_stable (config : Config.t) (signals : list Signal.t)
    (drivers : list CostDriver.t) :
  buildCostDrivers config signals = Js.Ok drivers ->
  rankDescending drivers
  /\ Permutation drivers (driversInRuleOrder config signals)
  /\ forall k : SeverityKey,
       withSeverity k drivers
       = withSeverity k (driversInRuleOrder config signals).
Proof.
  intros H. apply buildCostDrivers_ok in H. subst drivers.
  split; [| split].
  - unfold rankDescending.
    assert (Hs : StronglySorted (fun a b => byRankDesc a b = true)
                   (Js.sort byRankDesc (driversInRuleOrder config signals))).
    { apply sort_sorted.
      - intros a b. rewrite !byRankDesc_le. lia.
      - intros a b c. rewrite !byRankDesc_le. lia. }
    induction Hs as [| x r Hr IH Hx]; constructor; [exact IH |].
    eapply Forall_impl; [| exact Hx]. intros y. apply byRankDesc_le.
  - apply sort_perm.
  - intros k. unfold withSeverity. apply filter_sort.
    intros a b Ha Hb. apply isKey_eq in Ha, Hb.
    apply byRankDesc_le. rewrite Ha, Hb. lia.
Qed.

Lemma drivers_sorted_stable_witness :
  rankDescending Sample.drivers
  /\ Permutation Sample.drivers
       (driversInRuleOrder Sample.config Sample.signals)
  /\ forall k : SeverityKey,
       withSeverity k Sample.drivers
       = withSeverity k (driversInRuleOrder Sample.config Sample.signals).
Proof.
  apply (drivers_sorted_stable Sample.config Sample.signals Sample.drivers).
  reflexivity.
Defined.

(** ** Signals of unknown severity *)

Lemma ruleDriver_from (signals : list Signal.t) (rule : RuleConfig.t)
    (d : CostDriver.t) :
  In d (ruleDriver signals rule) ->
  exists signal, In signal signals /\ driverFrom d rule signal.
Proof.
  unfold ruleDriver.
  destruct (matched signals (RuleConfig.signalId rule)) as [signal |] eqn:Hm;
    [| intros []].
  apply matched_in in Hm. destruct Hm as [Hin Hid].
  destruct (asSeverity (Signal.severity signal)) as [severity |] eqn:Hsev;
    [| intros []].
  destruct (RuleConfig.deltas rule severity) as [delta |]; [| intros []].
  intros [<- | []]. exists signal. split; [exact Hin |].
  unfold driverFrom. cbn [CostDriver.signalId CostDriver.label CostDriver.severity].
  repeat split; try assumption; try reflexivity;
    destruct (Signal.severity signal); inversion Hsev; subst; simpl; auto.
Qed.

Lemma pushAction_from (config : Config.t) (signals : list Signal.t)
    (acc : list PMAction.t) (a : PMAction.t) :
  In a (fold_left (pushAction config) signals acc) ->
  In a acc \/ exists signal, In signal signals /\ actionFrom a signal.
Proof.
  revert acc. induction signals as [| signal rest IH]; intros acc H.
  - left. exact H.
  - cbn [fold_left] in H. apply IH in H.
    destruct H as [H | (s & Hin & Hs)].
    2: { right. exists s. split; [right; exact Hin | exact Hs]. }
    unfold pushAction in H.
    destruct (Signal.severity signal) eqn:Hsev; cbn [isSeverity orb] in H;
      try (left; exact H);
      (destruct (Config.actionLibrary config (Signal.id signal));
        [| left; exact H]);
      (apply in_app_or in H; destruct H as [H | [<- | []]]; [left; exact H |]);
      right; exists signal; (split; [left; reflexivity |]);
      unfold actionFrom; rewrite Hsev; simpl; auto.
Qed.

Lemma pushAction_unknown (config : Config.t) (signals : list Signal.t)
    (acc : list PMAction.t) :
  (forall signal, In signal signals -> Signal.severity signal = Unknown) ->
  fold_left (pushAction config) signals acc = acc.
Proof.
  revert acc. induction signals as [| signal rest IH]; intros acc H;
    [reflexivity |].
  cbn [fold_left]. unfold pushAction at 2.
  rewrite (H signal) by (left; reflexivity). cbn [isSeverity orb].
  apply IH. intros s Hs. apply H. right. exact Hs.
Qed.

(** C5: a rule that resolves to a signal of unknown severity yields no
    driver, and the action loop adds nothing for a signal of unknown
    severity; every driver returned comes from a signal of the input that
    has the rule's signal id and a severity among high, medium and low;
    every action returned is the baseline action or comes from a signal of
    severity high or medium; when every signal is of unknown severity there
    is no driver, and no action but the baseline one. *)
Theorem unknown_severity_yields_nothing (config : Config.t)
    (signals : list Signal.t) :
  (forall byId rule signal,
     JsMap.get byId (RuleConfig.signalId rule) = Some signal ->
     Signal.severity signal = Unknown ->
     resolveRule byId rule = Js.Ok None)
  /\ (forall actions signal,
        Signal.severity signal = Unknown ->
        pushAction config actions signal = actions)
  /\ (forall drivers d,
        buildCostDrivers config signals = Js.Ok drivers -> In d drivers ->
        exists rule signal,
          In rule (Config.costRules config) /\ In signal signals
          /\ driverFrom d rule signal)
  /\ (forall a,
        In a (buildPMActions config signals) ->
        a = baselineAction
        \/ exists signal, In signal signals /\ actionFrom a signal)
  /\ ((forall signal, In signal signals -> Signal.severity signal = Unknown) ->
      buildCostDrivers config signals = Js.Ok []
      /\ buildPMActions config signals = [baselineAction]).
Proof.
  split; [| split; [| split; [| split]]].
  - intros byId rule signal Hget Hsev. unfold resolveRule.
    rewrite Hget, Hsev. reflexivity.
  - intros actions signal Hsev. unfold pushAction. rewrite Hsev. reflexivity.
  - intros drivers d H Hd. apply buildCostDrivers_ok in H. subst drivers.
    apply (Permutation_in _ (sort_perm byRankDesc _)) in Hd.
    unfold driversInRuleOrder in Hd. apply in_flat_map in Hd.
    destruct Hd as (rule & Hrule & Hd).
    apply ruleDriver_from in Hd. destruct Hd as (signal & Hin & Hfrom).
    exists rule, signal. auto.
  - intros a Ha. unfold buildPMActions in Ha.
    apply (Permutation_in _ (sort_perm byPriorityDesc _)) in Ha.
    destruct (fold_left (pushAction config) signals []) as [| a0 acc] eqn:E.
    + left. destruct Ha as [<- | []]. reflexivity.
    + right. rewrite <- E in Ha. apply pushAction_from in Ha.
      destruct Ha as [[] | Ha]. exact Ha.
  - intros Hall. split.
    + destruct (buildCostDrivers_cases config signals)
        as [[_ (rule & _ & (s & k & Hm & Hk & _))] | [E _]].
      * apply matched_in in Hm. destruct Hm as [Hin _].
        rewrite (Hall s Hin) in Hk. discriminate.
      * rewrite E. f_equal.
        replace (driversInRuleOrder config signals) with (@nil CostDriver.t);
          [reflexivity |].
        unfold driversInRuleOrder. symmetry.
        induction (Config.costRules config) as [| rule rest IH];
          [reflexivity |].
        cbn [flat_map]. rewrite IH, app_nil_r. unfold ruleDriver.
        destruct (matched signals (RuleConfig.signalId rule)) as [s |] eqn:Hm;
          [| reflexivity].
        apply matched_in in Hm. destruct Hm as [Hin _].
        rewrite (Hall s Hin). reflexivity.
    + unfold buildPMActions. rewrite pushAction_unknown by exact Hall.
      reflexivity.
Qed.

Lemma unknown_severity_yields_nothing_witness :
  pushAction Sample.config [] Sample.soilUnknown = []
  /\ (exists rule signal,
        In rule (Config.costRules Sample.config) /\ In signal Sample.signals
        /\ driverFrom Sample.floodDriver rule signal)
  /\ (buildCostDrivers Sample.config Sample.unknownSignals = Js.Ok []
      /\ buildPMActions Sample.config Sample.unknownSignals = [baselineAction]).
Proof.
  pose proof (unknown_severity_yields_nothing Sample.config Sample.signals)
    as [_ [Hpush [Hdrivers _]]].
  pose proof (unknown_severity_yields_nothing Sample.config Sample.unknownSignals)
    as [_ [_ [_ [_ Hunknown]]]].
  split; [| split].
  - apply Hpush. reflexivity.
  - apply (Hdrivers Sample.drivers Sample.floodDriver).
    + reflexivity.
    + right. left. reflexivity.
  - apply Hunknown.
    intros signal [<- | [<- | []]]; reflexivity.
Defined.

(** ** The configuration is not validated *)

(** C4, as stated, fails: a configuration whose only rule lacks the key
    [high] and whose contingency ladder is empty is accepted when loaded,
    and the missing key surfaces as a [TypeError] of [buildCostDrivers] on a
    request with a high flood signal. *)
Lemma broken_config_accepted_then_faults :
  RuleConfig.deltas Sample.brokenFloodRule KHigh = None
  /\ In Sample.brokenFloodRule (Config.costRules Sample.brokenConfig)
  /\ Config.contingencyBands Sample.brokenConfig = []
  /\ loadConfig Sample.brokenConfig <> Js.TypeError
  /\ buildCostDrivers Sample.brokenConfig [Sample.floodHigh] = Js.TypeError.
Proof.
  repeat split; try reflexivity.
  - left. reflexivity.
  - discriminate.
Qed.

Lemma buildContingency_fault (config : Config.t) (signals : list Signal.t) :
  buildContingency config signals = Js.TypeError
  <-> Config.contingencyBands config = [].
Proof.
  unfold buildContingency.
  set (sortedBands := Js.sort _ (Config.contingencyBands config)).
  assert (Hlen : List.length sortedBands
                 = List.length (Config.contingencyBands config))
    by apply sort_length.
  split.
  - intros H.
    destruct (find _ sortedBands) as [band |]; [discriminate |].
    destruct (Config.contingencyBands config) as [| b r]; [reflexivity |].
    exfalso. unfold at_index in H.
    destruct (Z.of_nat (List.length sortedBands) - 1 <? 0) eqn:Hneg;
      [simpl in Hlen; lia |].
    destruct (nth_error sortedBands
                (Z.to_nat (Z.of_nat (List.length sortedBands) - 1))) eqn:Hnth;
      [discriminate |].
    apply nth_error_None in Hnth. simpl in Hlen. lia.
  - intros E. unfold sortedBands. rewrite E. reflexivity.
Qed.

(** C4, amended: loading the configuration checks nothing.  A rule whose
    [deltas] lacks a severity makes [buildCostDrivers] throw on exactly the
    requests in which the signal some such rule resolves to has the missing
    severity; an empty contingency ladder makes [buildContingency] throw on
    every request, and a non-empty one never does. *)
Theorem config_faults_per_request (config : Config.t)
    (signals : list Signal.t) :
  loadConfig config = Js.Ok config
  /\ (buildCostDrivers config signals = Js.TypeError
      <-> exists rule,
            In rule (Config.costRules config) /\ ruleFaults signals rule)
  /\ (buildContingency config signals = Js.TypeError
      <-> Config.contingencyBands config = []).
Proof.
  split; [reflexivity |]. split; [| apply buildContingency_fault].
  destruct (buildCostDrivers_cases config signals) as [[E F] | [E F]];
    rewrite E; split.
  - intros _. exact F.
  - reflexivity.
  - discriminate.
  - intros (rule & Hin & Hf). destruct (F rule Hin Hf).
Qed.

Lemma config_faults_per_request_witness :
  buildCostDrivers Sample.brokenConfig [Sample.floodHigh] = Js.TypeError
  /\ buildContingency Sample.brokenConfig [Sample.floodHigh] = Js.TypeError.
Proof.
  pose proof (config_faults_per_request Sample.brokenConfig [Sample.floodHigh])
    as [_ [Hrules Hbands]].
  split.
  - apply Hrules. exists Sample.brokenFloodRule. split; [left; reflexivity |].
    exists Sample.floodHigh, KHigh. repeat split.
  - apply Hbands. reflexivity.
Defined.

(** ** The model on sample inputs *)

(** The standard FNV-1a test vector [0xbf9cf968]. *)
Example hashSeed_foobar : hashSeed (Js.codeUnits "foobar") = 3214735720.
Proof. vm_compute. reflexivity. Qed.

Example draws_foobar :
  draws 2 (createRng (hashSeed (Js.codeUnits "foobar")))
  = [(3723431335 / 4294967296)%R; (374484698 / 4294967296)%R].
Proof. rewrite draws_orbit, hashSeed_foobar. reflexivity. Qed.

(** Four known signals of five and one warning. *)
Example scoreConfidence_sample :
  scoreConfidence Sample.signals ["FEMA lookup timed out"%string]
  = Confidence.mk 86 80.
Proof.
  unfold scoreConfidence.
  change (Z.of_nat (List.length Sample.signals)) with 5.
  change (Z.of_nat (List.length (filter isKnown Sample.signals))) with 4.
  cbn [Z.eqb List.length Z.of_nat].
  rewrite completeness_closed_form by lia.
  change ((200 * 4 + 5) / (2 * 5)) with 80.
  rewrite score_closed_form. reflexivity.
Qed.

Lemma round2_IZR (n : Z) : round2 (IZR n) = IZR n.
Proof.
  unfold round2. rewrite <- mult_IZR, round_IZR, mult_IZR. field.
Qed.

(** Three trials of a driver whose ranges are the points 5 and 10, on a
    baseline of 1,000,000. *)
Example estimate_fixed_ranges :
  let estimate := buildProbabilisticEstimate Sample.fixedArgs in
  ProbabilisticEstimate.impactPct estimate = PercentileTriple.mk 5 5 5
  /\ ProbabilisticEstimate.scheduleDays estimate = PercentileTriple.mk 10 10 10
  /\ ProbabilisticEstimate.impactCostUsd estimate
     = Some (PercentileTriple.mk 50000 50000 50000).
Proof.
  assert (Htrial : forall st, trial [Sample.fixedDriver] st = (5%R, 10%R, st)).
  { intros st. unfold trial, sampleDriver. cbn [fold_left Sample.fixedDriver
      CostDriver.estimatedCostDeltaPct CostDriver.estimatedScheduleDeltaDays
      Range.min Range.max].
    rewrite !triangularSample_degenerate by lra.
    repeat f_equal; lra. }
  assert (Htrials : forall n st pctTotals dayTotals,
            trials n [Sample.fixedDriver] st pctTotals dayTotals
            = (pctTotals ++ repeat 5%R n, dayTotals ++ repeat 10%R n)).
  { induction n as [| n IH]; intros st pctTotals dayTotals.
    - simpl. rewrite !app_nil_r. reflexivity.
    - cbn [trials]. rewrite Htrial, IH, <- !app_assoc. reflexivity. }
  unfold buildProbabilisticEstimate, Sample.fixedArgs.
  cbn [Args.costDrivers Args.sampleSize Args.seedKey Args.baselineCostUsd].
  rewrite Htrials. cbn [app].
  cbn [ProbabilisticEstimate.impactPct ProbabilisticEstimate.scheduleDays
       ProbabilisticEstimate.impactCostUsd].
  rewrite !sort_repeat. change (Z.to_nat 3) with 3%nat.
  rewrite !percentile_repeat.
  unfold toTriple. rewrite !round2_IZR.
  split; [reflexivity |]. split; [reflexivity |].
  assert (Hb : Js.ltb 0 1000000 = true).
  { unfold Js.ltb. destruct (Rlt_dec 0 1000000); [reflexivity | lra]. }
  rewrite Hb. cbn [PercentileTriple.p10 PercentileTriple.p50 PercentileTriple.p90].
  replace (5 / 100 * 1000000)%R with 50000%R by lra.
  rewrite round2_IZR. reflexivity.
Qed.

(** * Further properties of the code *)

(** ** The triangular sampler inverts the distribution function *)

Lemma ltb_true (a b : R) : Js.ltb a b = true <-> (a < b)%R.
Proof.
  unfold Js.ltb. destruct (Rlt_dec a b); split; intros; try easy; try lra.
Qed.

Lemma ltb_false (a b : R) : Js.ltb a b = false <-> (b <= a)%R.
Proof.
  unfold Js.ltb. destruct (Rlt_dec a b); split; intros; try easy; try lra.
Qed.

Lemma sqrt_square_eq (x : R) : (0 <= x)%R -> (Js.sqrt x * Js.sqrt x = x)%R.
Proof. intros H. unfold Js.sqrt. apply sqrt_sqrt. exact H. Qed.

(** X1: for a proper range and any mode inside it, a uniform value below
    the split [(mode - min) / (max - min)] gives the sample of [[min, mode]]
    whose distribution value is the uniform value, and a uniform value from
    the split up gives the sample of [[mode, max]] with that property; the
    generator is called once. *)
Theorem triangularSample_inverts_cdf (S : Type) (gen : S -> R * S) (s : S)
    (min max mode : R) :
  (min < max)%R -> (min <= mode <= max)%R -> (0 <= fst (gen s) < 1)%R ->
  let u := fst (gen s) in
  let x := fst (triangularSample min max mode gen s) in
  snd (triangularSample min max mode gen s) = snd (gen s)
  /\ ((u < (mode - min) / (max - min))%R ->
      (min <= x <= mode)%R
      /\ ((x - min) * (x - min) = u * (max - min) * (mode - min))%R)
  /\ (((mode - min) / (max - min) <= u)%R ->
      (mode <= x <= max)%R
      /\ ((max - x) * (max - x) = (1 - u) * (max - min) * (max - mode))%R).
Proof.
  intros Hlt Hmode Hu u x. subst u x. unfold triangularSample.
  assert (Hleb : Js.leb max min = false) by (apply leb_false; exact Hlt).
  rewrite Hleb. destruct (gen s) as [u s']. cbn [fst snd] in *.
  assert (Hd : (0 < max - min)%R) by lra.
  assert (Hsplit : ((mode - min) / (max - min) * (max - min) = mode - min)%R).
  { field. lra. }
  split; [destruct (Js.ltb u _); reflexivity |].
  split; intros Hcase.
  - assert (Hb : Js.ltb u ((mode - min) / (max - min)) = true)
      by (apply ltb_true; exact Hcase).
    rewrite Hb. cbn [fst].
    assert (Hud : (u * (max - min) <= mode - min)%R).
    { rewrite <- Hsplit. apply Rmult_le_compat_r; lra. }
    assert (Hpos : (0 <= u * (max - min) * (mode - min))%R).
    { apply Rmult_le_pos; [apply Rmult_le_pos |]; lra. }
    assert (Hsq : (u * (max - min) * (mode - min)
                   <= (mode - min) * (mode - min))%R).
    { apply Rmult_le_compat_r; lra. }
    assert (Hle := sqrt_below _ (mode - min) ltac:(lra) Hsq).
    pose proof (sqrt_square_eq _ Hpos) as Heq.
    pose proof (sqrt_pos (u * (max - min) * (mode - min))) as Hge.
    unfold Js.sqrt in *. split; [lra |].
    replace (min + sqrt (u * (max - min) * (mode - min)) - min)%R
      with (sqrt (u * (max - min) * (mode - min))) by ring.
    exact Heq.
  - assert (Hb : Js.ltb u ((mode - min) / (max - min)) = false)
      by (apply ltb_false; exact Hcase).
    rewrite Hb. cbn [fst].
    assert (Hud : (mode - min <= u * (max - min))%R).
    { rewrite <- Hsplit. apply Rmult_le_compat_r; lra. }
    assert (Hpos : (0 <= (1 - u) * (max - min) * (max - mode))%R).
    { apply Rmult_le_pos; [apply Rmult_le_pos |]; lra. }
    assert (Hsq : ((1 - u) * (max - min) * (max - mode)
                   <= (max - mode) * (max - mode))%R).
    { apply Rmult_le_compat_r; lra. }
    assert (Hle := sqrt_below _ (max - mode) ltac:(lra) Hsq).
    pose proof (sqrt_square_eq _ Hpos) as Heq.
    pose proof (sqrt_pos ((1 - u) * (max - min) * (max - mode))) as Hge.
    unfold Js.sqrt in *. split; [lra |].
    replace (max - (max - sqrt ((1 - u) * (max - min) * (max - mode))))%R
      with (sqrt ((1 - u) * (max - min) * (max - mode))) by ring.
    exact Heq.
Qed.

Lemma triangularSample_inverts_cdf_witness :
  snd (triangularSample 5 12 7 rng 1%Z) = snd (rng 1%Z).
Proof.
  apply (triangularSample_inverts_cdf Z rng 1 5 12 7).
  - lra.
  - lra.
  - apply rng_unit_interval.
Defined.

(** ** The estimate stays within the drivers' ranges *)

Lemma midpoint_sample_bounds (S : Type) (gen : S -> R * S) (s : S)
    (min max : R) :
  (min <= max)%R -> (0 <= fst (gen s) < 1)%R ->
  (min <= fst (triangularSample min max ((min + max) / 2) gen s) <= max)%R.
Proof.
  intros Hle Hu. unfold triangularSample.
  destruct (Js.leb max min) eqn:Hleb.
  - cbn [fst]. lra.
  - apply leb_false in Hleb.
    destruct (gen s) as [u s']. cbn [fst] in Hu.
    pose proof (sqrt_pos (u * (max - min) * ((min + max) / 2 - min))) as Hp1.
    pose proof (sqrt_pos ((1 - u) * (max - min) * (max - (min + max) / 2)))
      as Hp2.
    assert (Hsq : (0 <= (max - min) * (max - min))%R) by nra.
    assert (Hu1 : (0 <= u * ((max - min) * (max - min)))%R)
      by (apply Rmult_le_pos; lra).
    assert (Hu2 : (0 <= (1 - u) * ((max - min) * (max - min)))%R)
      by (apply Rmult_le_pos; lra).
    assert (H1 : (Js.sqrt (u * (max - min) * ((min + max) / 2 - min))
                  <= max - min)%R).
    { apply sqrt_below; [lra | nra]. }
    assert (H2 : (Js.sqrt ((1 - u) * (max - min) * (max - (min + max) / 2))
                  <= max - min)%R).
    { apply sqrt_below; [lra | nra]. }
    unfold Js.sqrt in *.
    destruct (Js.ltb u _); cbn [fst]; lra.
Qed.

Lemma point_sample (S : Type) (gen : S -> R * S) (s : S) (min max mode : R) :
  (max <= min)%R -> triangularSample min max mode gen s = (min, s).
Proof.
  intros H. unfold triangularSample. apply leb_true in H. rewrite H.
  reflexivity.
Qed.

(** One pass over the drivers adds, to each sum, a value between the sum
    of the minima and the sum of the maxima. *)
Lemma trial_from_bounds (drivers : list CostDriver.t) (a b : R)
    (st : rngState) :
  Forall (fun d => (pctMin d <= pctMax d)%R /\ (dayMin d <= dayMax d)%R)
         drivers ->
  let '(pctSum, daySum, _) := fold_left sampleDriver drivers (a, b, st) in
  (a + sumOver pctMin drivers <= pctSum <= a + sumOver pctMax drivers)%R
  /\ (b + sumOver dayMin drivers <= daySum <= b + sumOver dayMax drivers)%R.
Proof.
  intros Hwf. revert a b st.
  induction Hwf as [| d rest [Hp Hd] _ IH]; intros a b st.
  - simpl. lra.
  - cbn [fold_left sumOver]. unfold sampleDriver at 2.
    match goal with
    | |- context [triangularSample ?mn ?mx ?md rng st] =>
        assert (B1 : (pctMin d <= fst (triangularSample mn mx md rng st)
                      <= pctMax d)%R)
          by (apply midpoint_sample_bounds;
              [exact Hp | apply rng_unit_interval]);
        destruct (triangularSample mn mx md rng st) as [pctSample st1]
    end.
    match goal with
    | |- context [triangularSample ?mn ?mx ?md rng st1] =>
        assert (B2 : (dayMin d <= fst (triangularSample mn mx md rng st1)
                      <= dayMax d)%R)
          by (apply midpoint_sample_bounds;
              [exact Hd | apply rng_unit_interval]);
        destruct (triangularSample mn mx md rng st1) as [daySample st2]
    end.
    cbn [fst] in B1, B2.
    specialize (IH (a + pctSample)%R (b + daySample)%R st2).
    destruct (fold_left sampleDriver rest _) as [[pctSum daySum] st'].
    lra.
Qed.

(** With point ranges the sums are exact and the generator is not called. *)
Lemma trial_from_points (drivers : list CostDriver.t) (a b : R)
    (st : rngState) :
  Forall (fun d => (pctMax d <= pctMin d)%R /\ (dayMax d <= dayMin d)%R)
         drivers ->
  exists pctSum daySum,
    fold_left sampleDriver drivers (a, b, st) = (pctSum, daySum, st)
    /\ pctSum = (a + sumOver pctMin drivers)%R
    /\ daySum = (b + sumOver dayMin drivers)%R.
Proof.
  intros Hwf. revert a b.
  induction Hwf as [| d rest [Hp Hd] _ IH]; intros a b.
  - exists a, b. simpl. repeat split; lra.
  - cbn [fold_left sumOver]. unfold sampleDriver at 2.
    fold (pctMin d) (pctMax d) (dayMin d) (dayMax d).
    rewrite !point_sample by assumption.
    destruct (IH (a + pctMin d)%R (b + dayMin d)%R)
      as (pctSum & daySum & E & E1 & E2).
    exists pctSum, daySum. rewrite E. repeat split; lra.
Qed.

(** The outer loop pushes one pair of totals per trial. *)
Lemma trials_forall (P Q : R -> Prop) (drivers : list CostDriver.t) :
  (forall st, let '(pctSum, daySum, _) := trial drivers st in
              P pctSum /\ Q daySum) ->
  forall (n : nat) (st : rngState) (pctTotals dayTotals : list R),
  exists ps ds,
    trials n drivers st pctTotals dayTotals = (pctTotals ++ ps, dayTotals ++ ds)
    /\ List.length ps = n /\ List.length ds = n
    /\ Forall P ps /\ Forall Q ds.
Proof.
  intros Htrial. induction n as [| n IH]; intros st pctTotals dayTotals.
  - exists [], []. simpl. rewrite !app_nil_r. repeat split; constructor.
  - cbn [trials]. specialize (Htrial st).
    destruct (trial drivers st) as [[pctSum daySum] st'].
    destruct Htrial as [HP HQ].
    destruct (IH st' (pctTotals ++ [pctSum]) (dayTotals ++ [daySum]))
      as (ps & ds & E & Lp & Ld & Fp & Fd).
    exists (pctSum :: ps), (daySum :: ds).
    rewrite E, <- !app_assoc. simpl.
    repeat split; try lia; constructor; assumption.
Qed.

Lemma percentile_in (l : list R) (p : R) :
  l <> [] -> In (percentile l p) l.
Proof.
  intros Hne. unfold percentile.
  destruct l as [| x r] eqn:E; [congruence |]. rewrite <- E.
  apply nth_In.
  assert (Hlen : (0 < List.length l)%nat) by (subst l; simpl; lia).
  lia.
Qed.

Lemma toTriple_within (lo hi : R) (l : list R) :
  l <> [] -> Forall (fun x => (lo <= x <= hi)%R) l ->
  within (round2 lo) (round2 hi)
    (toTriple (percentile l 10) (percentile l 50) (percentile l 90)).
Proof.
  intros Hne Hall. rewrite Forall_forall in Hall.
  unfold within, toTriple.
  cbn [PercentileTriple.p10 PercentileTriple.p50 PercentileTriple.p90].
  repeat split; apply round2_mono; apply Hall, percentile_in; exact Hne.
Qed.

Lemma sorted_totals (P : R -> Prop) (l : list R) (n : nat) :
  List.length l = n -> (0 < n)%nat -> Forall P l ->
  Js.sort ascending l <> [] /\ Forall P (Js.sort ascending l).
Proof.
  intros Hlen Hn Hall. split.
  - intros E. pose proof (sort_length ascending l) as Hs.
    rewrite E in Hs. simpl in Hs. lia.
  - eapply Permutation_Forall; [symmetry; apply sort_perm | exact Hall].
Qed.

(** X2: when every driver has [min <= max] in both ranges and at least one
    trial is run, the three cost percentiles lie between the sum of the
    cost minima and the sum of the cost maxima (rounded to two decimals),
    and the three schedule percentiles between the sums of the day minima
    and maxima. *)
Theorem estimate_within_driver_ranges (args : Args.t) :
  Forall (fun d => (pctMin d <= pctMax d)%R /\ (dayMin d <= dayMax d)%R)
         (Args.costDrivers args) ->
  1 <= trialCount args ->
  within (round2 (sumOver pctMin (Args.costDrivers args)))
         (round2 (sumOver pctMax (Args.costDrivers args)))
         (ProbabilisticEstimate.impactPct (buildProbabilisticEstimate args))
  /\ within (round2 (sumOver dayMin (Args.costDrivers args)))
            (round2 (sumOver dayMax (Args.costDrivers args)))
            (ProbabilisticEstimate.scheduleDays
               (buildProbabilisticEstimate args)).
Proof.
  intros Hwf Hn. unfold buildProbabilisticEstimate. fold (trialCount args).
  set (drivers := Args.costDrivers args) in *.
  destruct (trials_forall
              (fun x => (sumOver pctMin drivers <= x <= sumOver pctMax drivers)%R)
              (fun x => (sumOver dayMin drivers <= x <= sumOver dayMax drivers)%R)
              drivers) with (n := Z.to_nat (trialCount args))
              (st := createRng (hashSeed (Args.seedKey args)))
              (pctTotals := @nil R) (dayTotals := @nil R)
    as (ps & ds & E & Lp & Ld & Fp & Fd).
  { intros st. unfold trial.
    pose proof (trial_from_bounds drivers 0 0 st Hwf) as B.
    destruct (fold_left sampleDriver drivers _) as [[pctSum daySum] st'].
    lra. }
  rewrite E. cbn [app].
  cbn [ProbabilisticEstimate.impactPct ProbabilisticEstimate.scheduleDays].
  assert (Hpos : (0 < Z.to_nat (trialCount args))%nat) by lia.
  destruct (sorted_totals _ ps _ Lp Hpos Fp) as [Np Ap].
  destruct (sorted_totals _ ds _ Ld Hpos Fd) as [Nd Ad].
  split; apply toTriple_within; assumption.
Qed.

Lemma estimate_within_driver_ranges_witness :
  within (round2 (sumOver pctMin (Args.costDrivers Sample.args)))
         (round2 (sumOver pctMax (Args.costDrivers Sample.args)))
         (ProbabilisticEstimate.impactPct
            (buildProbabilisticEstimate Sample.args)).
Proof.
  apply (estimate_within_driver_ranges Sample.args).
  - repeat constructor; unfold pctMin, pctMax, dayMin, dayMax; simpl; lra.
  - unfold trialCount. simpl. lia.
Defined.

(** X3: a sample size of zero or less runs no trial: both triples are
    [{0, 0, 0}] whatever the drivers and the seed, nothing is thrown, and
    the size given is reported back as it is. *)
Theorem estimate_without_trial (args : Args.t) :
  trialCount args <= 0 ->
  let estimate := buildProbabilisticEstimate args in
  ProbabilisticEstimate.impactPct estimate = PercentileTriple.mk 0 0 0
  /\ ProbabilisticEstimate.scheduleDays estimate = PercentileTriple.mk 0 0 0
  /\ ProbabilisticEstimate.sampleSize estimate = trialCount args.
Proof.
  intros Hn. unfold buildProbabilisticEstimate. fold (trialCount args).
  replace (Z.to_nat (trialCount args)) with 0%nat by lia.
  cbn [trials Js.sort percentile].
  cbn [ProbabilisticEstimate.impactPct ProbabilisticEstimate.scheduleDays
       ProbabilisticEstimate.sampleSize].
  unfold toTriple. rewrite round2_zero. repeat split.
Qed.

Lemma estimate_without_trial_witness :
  ProbabilisticEstimate.impactPct
    (buildProbabilisticEstimate
       (Args.mk [Sample.floodDriver] None (Js.codeUnits "foobar") (Some (-5))))
  = PercentileTriple.mk 0 0 0.
Proof.
  apply (estimate_without_trial
           (Args.mk [Sample.floodDriver] None (Js.codeUnits "foobar")
              (Some (-5)))).
  unfold trialCount. simpl. lia.
Defined.

(** X4: when every range of every driver is a point ([max <= min]), the
    estimate does not depend on the seed key or on the number of trials
    (one at least): every cost percentile is the sum of the cost minima,
    every schedule percentile the sum of the day minima, rounded to two
    decimals. *)
Theorem estimate_of_point_ranges (args : Args.t) :
  Forall (fun d => (pctMax d <= pctMin d)%R /\ (dayMax d <= dayMin d)%R)
         (Args.costDrivers args) ->
  1 <= trialCount args ->
  let pct := round2 (sumOver pctMin (Args.costDrivers args)) in
  let days := round2 (sumOver dayMin (Args.costDrivers args)) in
  ProbabilisticEstimate.impactPct (buildProbabilisticEstimate args)
  = PercentileTriple.mk pct pct pct
  /\ ProbabilisticEstimate.scheduleDays (buildProbabilisticEstimate args)
     = PercentileTriple.mk days days days.
Proof.
  intros Hwf Hn pct days. unfold buildProbabilisticEstimate.
  fold (trialCount args).
  set (drivers := Args.costDrivers args) in *.
  destruct (trials_forall
              (fun x => x = sumOver pctMin drivers)
              (fun x => x = sumOver dayMin drivers)
              drivers) with (n := Z.to_nat (trialCount args))
              (st := createRng (hashSeed (Args.seedKey args)))
              (pctTotals := @nil R) (dayTotals := @nil R)
    as (ps & ds & E & Lp & Ld & Fp & Fd).
  { intros st. unfold trial.
    destruct (trial_from_points drivers 0 0 st Hwf)
      as (pctSum & daySum & E & E1 & E2).
    rewrite E. split; lra. }
  rewrite E. cbn [app].
  cbn [ProbabilisticEstimate.impactPct ProbabilisticEstimate.scheduleDays].
  assert (Hpos : (0 < Z.to_nat (trialCount args))%nat) by lia.
  destruct (sorted_totals _ ps _ Lp Hpos Fp) as [Np Ap].
  destruct (sorted_totals _ ds _ Ld Hpos Fd) as [Nd Ad].
  rewrite Forall_forall in Ap, Ad.
  unfold toTriple, pct, days.
  rewrite !(Ap _ (percentile_in _ _ Np)), !(Ad _ (percentile_in _ _ Nd)).
  split; reflexivity.
Qed.

Lemma estimate_of_point_ranges_witness :
  ProbabilisticEstimate.impactPct (buildProbabilisticEstimate Sample.fixedArgs)
  = PercentileTriple.mk
      (round2 (sumOver pctMin [Sample.fixedDriver]))
      (round2 (sumOver pctMin [Sample.fixedDriver]))
      (round2 (sumOver pctMin [Sample.fixedDriver])).
Proof.
  apply (estimate_of_point_ranges Sample.fixedArgs).
  - repeat constructor; unfold pctMin, pctMax, dayMin, dayMax; simpl; lra.
  - unfold trialCount. simpl. lia.
Defined.

(** ** Nearest-rank percentiles and rounding *)

Lemma nth_last_index (l : list R) :
  nth (List.length l - 1) l 0%R = last l 0%R.
Proof.
  induction l as [| x r IH]; [reflexivity |].
  destruct r as [| y r']; [reflexivity |].
  change (last (x :: y :: r') 0%R) with (last (y :: r') 0%R).
  rewrite <- IH.
  change (List.length (x :: y :: r')) with (S (List.length (y :: r'))).
  replace (S (List.length (y :: r')) - 1)%nat
    with (S (List.length (y :: r') - 1)) by (simpl; lia).
  reflexivity.
Qed.

(** X5: on a non-empty array the percentile is one of its elements (there
    is no interpolation); any [p <= 0] gives the first element and any
    [p >= 100] the last one, the index being clamped to the array. *)
Theorem percentile_nearest_rank (sorted : list R) (p : R) :
  sorted <> [] ->
  In (percentile sorted p) sorted
  /\ ((p <= 0)%R -> percentile sorted p = hd 0%R sorted)
  /\ ((100 <= p)%R -> percentile sorted p = last sorted 0%R).
Proof.
  intros Hne. split; [apply percentile_in; exact Hne |].
  unfold percentile.
  destruct sorted as [| x r] eqn:E; [congruence |]. rewrite <- E.
  set (len := Z.of_nat (List.length sorted)).
  assert (Hlen : 1 <= len) by (unfold len; subst sorted; simpl; lia).
  assert (HlenR : (1 <= IZR len)%R) by (apply IZR_le; exact Hlen).
  split; intros Hp.
  - assert (Hfl : Js.floor (p / 100 * IZR len) <= 0).
    { assert (H0 : Js.floor 0 = 0) by (apply floor_unique; lra).
      rewrite <- H0. apply floor_mono.
      assert (0 <= (- p / 100) * IZR len)%R by (apply Rmult_le_pos; lra).
      lra. }
    replace (Z.min (len - 1) (Z.max 0 (Js.floor (p / 100 * IZR len))))
      with 0 by lia.
    subst sorted. reflexivity.
  - assert (Hfl : len <= Js.floor (p / 100 * IZR len)).
    { rewrite <- (floor_unique (IZR len) len) at 1 by lra.
      apply floor_mono.
      assert (0 <= (p / 100 - 1) * IZR len)%R by (apply Rmult_le_pos; lra).
      lra. }
    replace (Z.min (len - 1) (Z.max 0 (Js.floor (p / 100 * IZR len))))
      with (len - 1) by lia.
    replace (Z.to_nat (len - 1)) with (List.length sorted - 1)%nat
      by (unfold len; lia).
    apply nth_last_index.
Qed.

Lemma percentile_nearest_rank_witness :
  percentile [1; 2; 3]%R 250 = last [1; 2; 3]%R 0%R.
Proof.
  apply (percentile_nearest_rank [1; 2; 3]%R 250).
  - discriminate.
  - lra.
Defined.

(** X6: [round2] moves a number by at most half a hundredth, and rounding
    a second time changes nothing. *)
Theorem round2_nearest_hundredth (n : R) :
  (n - 1 / 200 < round2 n <= n + 1 / 200)%R
  /\ round2 (round2 n) = round2 n.
Proof.
  unfold round2 at 1 2.
  destruct (floor_spec (n * 100 + / 2)) as [Hlo Hhi].
  fold (Js.round (n * 100)) in Hlo, Hhi.
  split; [lra |].
  unfold round2 at 1.
  replace (round2 n * 100)%R with (IZR (Js.round (n * 100)))
    by (unfold round2; field).
  rewrite round_IZR. reflexivity.
Qed.

(** ** The hash is incremental and the generator is a permutation *)

(** An odd multiplier can be cancelled modulo 2^32. *)
Lemma mul_cancel_mod (m inv a b : Z) :
  (m * inv) mod 2 ^ 32 = 1 ->
  (a * m) mod 2 ^ 32 = (b * m) mod 2 ^ 32 ->
  a mod 2 ^ 32 = b mod 2 ^ 32.
Proof.
  intros Hinv H.
  assert (Hcancel : forall x, x mod 2 ^ 32 = ((x * m) mod 2 ^ 32 * inv) mod 2 ^ 32).
  { intros x. rewrite Z.mul_mod_idemp_l by lia.
    rewrite <- Z.mul_assoc, <- Z.mul_mod_idemp_r, Hinv, Z.mul_1_r by lia.
    reflexivity. }
  rewrite (Hcancel a), (Hcancel b), H. reflexivity.
Qed.

Lemma lxor_cancel_mod (h c1 c2 : Z) :
  0 <= c1 < 2 ^ 32 -> 0 <= c2 < 2 ^ 32 ->
  Z.lxor h c1 mod 2 ^ 32 = Z.lxor h c2 mod 2 ^ 32 -> c1 = c2.
Proof.
  intros H1 H2 H.
  rewrite <- (Z.mod_small c1 (2 ^ 32)), <- (Z.mod_small c2 (2 ^ 32)) by lia.
  apply Z.bits_inj'. intros i Hi.
  destruct (Z.lt_ge_cases i 32) as [Hlt | Hge].
  - apply (f_equal (fun z => Z.testbit z i)) in H.
    rewrite !Z.mod_pow2_bits_low, !Z.lxor_spec in H by lia.
    rewrite !Z.mod_pow2_bits_low by lia.
    destruct (Z.testbit h i), (Z.testbit c1 i), (Z.testbit c2 i);
      simpl in H; congruence.
  - rewrite !Z.mod_pow2_bits_high by lia. reflexivity.
Qed.

(** X7: the seed is below 2^32 and hashing is incremental: the hash of a
    key followed by more characters is the fold of the per-character step
    over those characters, started from the hash of the key. *)
Theorem hashSeed_incremental (key more : seedKey) :
  0 <= hashSeed key < 2 ^ 32
  /\ hashSeed (key ++ more)
     = fold_left (fun h c => (Z.lxor h c * 16777619) mod 2 ^ 32)
                 more (hashSeed key).
Proof.
  rewrite !hashSeed_fnv1a. split; [apply fnv1a_range |].
  unfold SpecRng.fnv1a. rewrite fold_left_app. reflexivity.
Qed.

(** X8: two keys that differ only in their last character never have the
    same seed. *)
Theorem hashSeed_last_character (key : seedKey) (c1 c2 : Z) :
  0 <= c1 < 65536 -> 0 <= c2 < 65536 ->
  hashSeed (key ++ [c1]) = hashSeed (key ++ [c2]) -> c1 = c2.
Proof.
  intros H1 H2 H. rewrite !hashSeed_fnv1a in H.
  unfold SpecRng.fnv1a in H. rewrite !fold_left_app in H.
  cbn [fold_left] in H. unfold SpecRng.fnv1a_step in H.
  apply (mul_cancel_mod 16777619 899433627) in H; [| reflexivity].
  eapply lxor_cancel_mod; [| | exact H]; lia.
Qed.

Lemma hashSeed_last_character_witness : 97 = 97.
Proof.
  apply (hashSeed_last_character (Js.codeUnits "foo") 97 97);
    [lia | lia | reflexivity].
Defined.

(** X9: on the states below 2^32 the step of the generator is one-to-one,
    so two different states never lead to the same stream; the new state is
    again below 2^32. *)
Theorem rng_step_injective (state1 state2 : rngState) :
  0 <= state1 < 2 ^ 32 -> 0 <= state2 < 2 ^ 32 ->
  (0 <= snd (rng state1) < 2 ^ 32)
  /\ (snd (rng state1) = snd (rng state2) -> state1 = state2).
Proof.
  intros H1 H2. rewrite !rng_state. split; [apply lcg_range |].
  unfold SpecRng.lcg. intros H.
  assert (Hmul : (state1 * 1664525) mod 2 ^ 32 = (state2 * 1664525) mod 2 ^ 32).
  { assert (Hsub : forall x,
              (x * 1664525) mod 2 ^ 32
              = ((1664525 * x + 1013904223) mod 2 ^ 32 - 1013904223) mod 2 ^ 32).
    { intros x. rewrite Zminus_mod_idemp_l. f_equal. lia. }
    rewrite (Hsub state1), (Hsub state2), H. reflexivity. }
  apply (mul_cancel_mod 1664525 4276115653) in Hmul; [| reflexivity].
  rewrite !Z.mod_small in Hmul by lia. exact Hmul.
Qed.

Lemma rng_step_injective_witness : 0 <= snd (rng 7) < 2 ^ 32.
Proof.
  apply (rng_step_injective 7 7); lia.
Defined.

(** ** The contingency band *)




Lemma sorted_impl {A : Type} (rel rel' : A -> A -> Prop) (l : list A) :
  (forall a b, rel a b -> rel' a b) ->
  StronglySorted rel l -> StronglySorted rel' l.
Proof.
  intros Himpl Hs. induction Hs as [| x r Hr IH Hx].
  - constructor.
  - constructor; [exact IH |].
    eapply Forall_impl; [| exact Hx]. intros y. apply Himpl.
Qed.

(** In a list sorted by [rel], the first element that passes a test comes
    before every other element that passes it. *)
Lemma find_first_sorted {A : Type} (rel : A -> A -> Prop) (f : A -> bool)
    (l : list A) (x : A) :
  StronglySorted rel l -> find f l = Some x ->
  In x l /\ f x = true /\ forall y, In y l -> f y = true -> y = x \/ rel x y.
Proof.
  intros Hs. induction Hs as [| a r Hr IH Ha]; intros Hf; [discriminate |].
  simpl in Hf. destruct (f a) eqn:Fa.
  - injection Hf as <-. split; [left; reflexivity |]. split; [exact Fa |].
    intros y [<- | Hy] _; [left; reflexivity |].
    right. rewrite Forall_forall in Ha. apply Ha. exact Hy.
  - destruct (IH Hf) as (Hin & Fx & Hall).
    split; [right; exact Hin |]. split; [exact Fx |].
    intros y [<- | Hy] Fy; [congruence | apply Hall; assumption].
Qed.

(** In a non-empty list sorted by [rel], the last element comes after every
    other one. *)
Lemma last_sorted {A : Type} (rel : A -> A -> Prop) (l : list A) :
  StronglySorted rel l -> l <> [] ->
  exists x, at_index l (Z.of_nat (List.length l) - 1) = Some x
            /\ In x l /\ forall y, In y l -> y = x \/ rel y x.
Proof.
  intros Hs. induction Hs as [| a r Hr IH Ha]; intros Hne; [congruence |].
  destruct r as [| b r'].
  - exists a. split; [reflexivity |]. split; [left; reflexivity |].
    intros y [<- | []]. left. reflexivity.
  - destruct (IH ltac:(discriminate)) as (x & Hat & Hin & Hall).
    exists x. split; [| split].
    + unfold at_index in *.
      destruct (Z.of_nat (List.length (b :: r')) - 1 <? 0) eqn:E1;
        [discriminate |].
      apply Z.ltb_ge in E1.
      replace (Z.of_nat (List.length (a :: b :: r')) - 1 <? 0) with false
        by (symmetry; apply Z.ltb_ge; simpl List.length in *; lia).
      replace (Z.to_nat (Z.of_nat (List.length (a :: b :: r')) - 1))
        with (S (Z.to_nat (Z.of_nat (List.length (b :: r')) - 1)))
        by (simpl List.length in *; lia).
      exact Hat.
    + right. exact Hin.
    + intros y [<- | Hy].
      * right. rewrite Forall_forall in Ha. apply Ha. exact Hin.
      * apply Hall. exact Hy.
Qed.

(** X10: with a non-empty ladder [buildContingency] returns the range of a
    band of the ladder: the band with the greatest [minScore] among those
    whose [minScore] is at most the score, when there is one, and otherwise
    the band with the least [minScore]. *)
Theorem buildContingency_selects (config : Config.t)
    (signals : list Signal.t) :
  Config.contingencyBands config <> [] ->
  exists band,
    In band (Config.contingencyBands config)
    /\ buildContingency config signals = Js.Ok (rangeOf band)
    /\ (((ContingencyBand.minScore band <= IZR (riskScore signals))%R
         /\ forall b, In b (Config.contingencyBands config) ->
              (ContingencyBand.minScore b <= IZR (riskScore signals))%R ->
              (ContingencyBand.minScore b <= ContingencyBand.minScore band)%R)
        \/ ((forall b, In b (Config.contingencyBands config) ->
               (IZR (riskScore signals) < ContingencyBand.minScore b)%R)
            /\ forall b, In b (Config.contingencyBands config) ->
                 (ContingencyBand.minScore band <= ContingencyBand.minScore b)%R)).
Proof.
  intros Hne. unfold buildContingency. fold (riskScore signals).
  set (desc := fun a b : ContingencyBand.t =>
                 Js.leb (ContingencyBand.minScore b - ContingencyBand.minScore a) 0).
  set (sortedBands := Js.sort desc (Config.contingencyBands config)).
  assert (Hperm : Permutation sortedBands (Config.contingencyBands config))
    by apply sort_perm.
  assert (Hdesc : forall a b, desc a b = true
            <-> (ContingencyBand.minScore b <= ContingencyBand.minScore a)%R).
  { intros a b. unfold desc. rewrite leb_true. lra. }
  assert (Hs : StronglySorted
                 (fun a b => (ContingencyBand.minScore b
                              <= ContingencyBand.minScore a)%R) sortedBands).
  { apply (sorted_impl (fun a b => desc a b = true)).
    - intros a b. apply Hdesc.
    - apply sort_sorted.
      + intros a b. rewrite !Hdesc. lra.
      + intros a b c. rewrite !Hdesc. lra. }
  destruct (find _ sortedBands) as [band |] eqn:Hfind.
  - destruct (find_first_sorted _ _ _ _ Hs Hfind) as (Hin & Fb & Hall).
    exists band. split; [eapply Permutation_in; eassumption |].
    split; [reflexivity |]. left. apply leb_true in Fb. split; [exact Fb |].
    intros b Hb Hq.
    destruct (Hall b) as [-> | H]; try lra.
    + eapply Permutation_in; [symmetry |]; eassumption.
    + apply leb_true. exact Hq.
  - assert (Hne' : sortedBands <> []).
    { intros E. rewrite E in Hperm. apply Permutation_nil in Hperm.
      congruence. }
    destruct (last_sorted _ _ Hs Hne') as (band & Hat & Hin & Hall).
    rewrite Hat. exists band.
    split; [eapply Permutation_in; eassumption |].
    split; [reflexivity |]. right. split.
    + intros b Hb. apply leb_false.
      apply (find_none _ _ Hfind).
      eapply Permutation_in; [symmetry |]; eassumption.
    + intros b Hb. destruct (Hall b) as [-> | H]; try lra.
      eapply Permutation_in; [symmetry |]; eassumption.
Qed.

Lemma buildContingency_selects_witness :
  exists band,
    In band (Config.contingencyBands Sample.config)
    /\ buildContingency Sample.config Sample.signals = Js.Ok (rangeOf band).
Proof.
  destruct (buildContingency_selects Sample.config Sample.signals)
    as (band & Hin & E & _).
  - discriminate.
  - exists band. split; assumption.
Defined.



(** ** The action list *)

Lemma pushAction_cases (config : Config.t) (actions : list PMAction.t)
    (signal : Signal.t) :
  (actionable config signal = false
   /\ pushAction config actions signal = actions)
  \/ (actionable config signal = true
      /\ exists a, pushAction config actions signal = actions ++ [a]
                   /\ PMAction.priority a <> PLow).
Proof.
  unfold pushAction, actionable.
  destruct (Signal.severity signal); cbn [isSeverity orb andb];
    try (left; split; reflexivity);
    destruct (Config.actionLibrary config (Signal.id signal));
    try (left; split; reflexivity);
    right; (split; [reflexivity |]); eexists; (split; [reflexivity |]);
    discriminate.
Qed.

Lemma pushed_actions (config : Config.t) (signals : list Signal.t)
    (actions : list PMAction.t) :
  exists pushed,
    fold_left (pushAction config) signals actions = actions ++ pushed
    /\ Forall (fun a => PMAction.priority a <> PLow) pushed
    /\ List.length pushed = List.length (filter (actionable config) signals).
Proof.
  revert actions. induction signals as [| s r IH]; intros actions.
  - exists []. rewrite app_nil_r. repeat split. constructor.
  - cbn [fold_left filter].
    destruct (pushAction_cases config actions s)
      as [[Ha E] | [Ha (a & E & Hp)]]; rewrite E, Ha.
    + apply IH.
    + destruct (IH (actions ++ [a])) as (pushed & E' & Hall & Hlen).
      exists (a :: pushed). rewrite E', <- app_assoc.
      repeat split; [constructor; assumption | simpl; lia].
Qed.

Lemma byPriorityDesc_le (a b : PMAction.t) :
  byPriorityDesc a b = true
  <-> priorityOrder (PMAction.priority b) <= priorityOrder (PMAction.priority a).
Proof. unfold byPriorityDesc. rewrite Z.leb_le. lia. Qed.

(** X12: the action list is never empty, is in descending order of
    priority, and has at most one action per signal (one action when there
    is no signal); it is either the baseline action alone or made of
    actions of priority high or medium only. *)
Theorem buildPMActions_shape (config : Config.t) (signals : list Signal.t) :
  let actions := buildPMActions config signals in
  actions <> []
  /\ priorityDescending actions
  /\ (List.length actions <= Nat.max 1 (List.length signals))%nat
  /\ (actions = [baselineAction]
      \/ Forall (fun a => PMAction.priority a <> PLow) actions).
Proof.
  intros actions. unfold actions, buildPMActions.
  destruct (pushed_actions config signals []) as (pushed & E & Hall & Hlen).
  rewrite E. cbn [app].
  pose proof (filter_length_le (actionable config) signals) as Hle.
  set (chosen := match pushed with [] => [baselineAction] | _ => pushed end).
  assert (Hperm : Permutation (Js.sort byPriorityDesc chosen) chosen)
    by apply sort_perm.
  assert (Hchosen : chosen <> []
                    /\ (List.length chosen <= Nat.max 1 (List.length signals))%nat).
  { unfold chosen. destruct pushed;
      (split; [discriminate | cbn [List.length] in *; lia]). }
  destruct Hchosen as [Hne Hlen'].
  split; [| split; [| split]].
  - intros E0. rewrite E0 in Hperm. apply Permutation_nil in Hperm.
    congruence.
  - unfold priorityDescending.
    apply (sorted_impl (fun a b => byPriorityDesc a b = true)).
    + intros a b. apply byPriorityDesc_le.
    + apply sort_sorted.
      * intros a b. rewrite !byPriorityDesc_le. lia.
      * intros a b c. rewrite !byPriorityDesc_le. lia.
  - rewrite (Permutation_length Hperm). exact Hlen'.
  - unfold chosen in *. destruct pushed as [| a r].
    + left. reflexivity.
    + right. eapply Permutation_Forall; [symmetry; exact Hperm | exact Hall].
Qed.

(** ** The rule resolver on a complete configuration *)

Lemma ruleDriver_length (signals : list Signal.t) (rule : RuleConfig.t) :
  (List.length (ruleDriver signals rule) <= 1)%nat
  /\ Forall (fun d => CostDriver.id d
                      = ("driver-" ++ CostDriver.signalId d)%string)
            (ruleDriver signals rule).
Proof.
  unfold ruleDriver.
  destruct (matched signals (RuleConfig.signalId rule)) as [signal |];
    [| split; [simpl; lia | constructor]].
  destruct (asSeverity (Signal.severity signal)) as [severity |];
    [| split; [simpl; lia | constructor]].
  destruct (RuleConfig.deltas rule severity) as [delta |];
    [| split; [simpl; lia | constructor]].
  split; [simpl; lia |]. repeat constructor.
Qed.

Lemma driversInRuleOrder_shape (config : Config.t) (signals : list Signal.t) :
  (List.length (driversInRuleOrder config signals)
   <= List.length (Config.costRules config))%nat
  /\ Forall (fun d => CostDriver.id d
                      = ("driver-" ++ CostDriver.signalId d)%string)
            (driversInRuleOrder config signals).
Proof.
  unfold driversInRuleOrder.
  induction (Config.costRules config) as [| rule rest [IHlen IHids]].
  - split; [simpl; lia | constructor].
  - cbn [flat_map].
    destruct (ruleDriver_length signals rule) as [Hone Hid].
    split.
    + rewrite length_app.
      change (List.length (rule :: rest)) with (S (List.length rest)).
      lia.
    + apply Forall_app. split; assumption.
Qed.

(** X14: when every rule defines all three severities, [buildCostDrivers]
    throws on no signal list; it returns at most one driver per rule, each
    with the id ["driver-"] followed by its signal id. *)
Theorem buildCostDrivers_complete_config (config : Config.t)
    (signals : list Signal.t) :
  (forall rule k, In rule (Config.costRules config) ->
                  RuleConfig.deltas rule k <> None) ->
  exists drivers,
    buildCostDrivers config signals = Js.Ok drivers
    /\ (List.length drivers <= List.length (Config.costRules config))%nat
    /\ Forall (fun d => CostDriver.id d
                        = ("driver-" ++ CostDriver.signalId d)%string)
              drivers.
Proof.
  intros Hfull.
  destruct (buildCostDrivers_cases config signals)
    as [[_ (rule & Hin & (s & k & _ & _ & Hnone))] | [E _]].
  - destruct (Hfull rule k Hin Hnone).
  - eexists. split; [exact E |].
    pose proof (sort_perm byRankDesc (driversInRuleOrder config signals))
      as Hperm.
    destruct (driversInRuleOrder_shape config signals) as [Hlen Hids].
    split.
    + rewrite (Permutation_length Hperm). exact Hlen.
    + eapply Permutation_Forall; [symmetry; exact Hperm | exact Hids].
Qed.

Lemma buildCostDrivers_complete_config_witness :
  exists drivers,
    buildCostDrivers Sample.config Sample.signals = Js.Ok drivers
    /\ (List.length drivers <= List.length (Config.costRules Sample.config))%nat.
Proof.
  destruct (buildCostDrivers_complete_config Sample.config Sample.signals)
    as (drivers & E & Hlen & _).
  - intros rule k [<- | [<- | [<- | [<- | []]]]]; destruct k; discriminate.
  - exists drivers. split; assumption.
Defined.

(** ** Signals with distinct ids *)

(** With distinct ids, a search by id finds a signal exactly when the
    signal is in the list. *)
Lemma find_by_id (signals : list Signal.t) (id : string) (s : Signal.t) :
  NoDup (map Signal.id signals) ->
  (findSignal signals id = Some s <-> In s signals /\ Signal.id s = id).
Proof.
  unfold findSignal. intros Hnd. induction signals as [| x r IH].
  - simpl. split; [discriminate | intros [[] _]].
  - inversion Hnd as [| ? ? Hx Hr]; subst. cbn [find].
    destruct (String.eqb (Signal.id x) id) eqn:E.
    + apply String.eqb_eq in E. split.
      * intros [= <-]. split; [left; reflexivity | exact E].
      * intros [[-> | Hin] Hid]; [reflexivity |].
        exfalso. apply Hx. rewrite E, <- Hid. apply in_map. exact Hin.
    + apply String.eqb_neq in E. rewrite (IH Hr). split.
      * intros [Hin Hid]. split; [right; exact Hin | exact Hid].
      * intros [[-> | Hin] Hid]; [congruence | split; assumption].
Qed.

Lemma find_none_by_id (signals : list Signal.t) (id : string) :
  findSignal signals id = None <->
  forall s, In s signals -> Signal.id s <> id.
Proof.
  unfold findSignal. split.
  - intros H s Hin E. apply (find_none _ _ H) in Hin.
    apply String.eqb_neq in Hin. congruence.
  - intros H. destruct (find _ signals) as [s |] eqn:E; [| reflexivity].
    apply find_some in E. destruct E as [Hin E].
    apply String.eqb_eq in E. destruct (H s Hin E).
Qed.

Lemma matched_is_first (signals : list Signal.t) (id : string) :
  NoDup (map Signal.id signals) -> matched signals id = findSignal signals id.
Proof.
  intros Hnd.
  assert (Hrev : NoDup (map Signal.id (rev signals))).
  { rewrite map_rev. apply NoDup_rev. exact Hnd. }
  change (matched signals id) with (findSignal (rev signals) id).
  destruct (findSignal signals id) as [s |] eqn:E.
  - apply (find_by_id _ _ _ Hnd) in E. apply (find_by_id _ _ _ Hrev).
    destruct E as [Hin Hid]. split; [apply in_rev in Hin; exact Hin | exact Hid].
  - apply find_none_by_id. intros s Hin.
    rewrite find_none_by_id in E. apply E. apply in_rev. exact Hin.
Qed.

Lemma some_high_by_id (signals : list Signal.t) (id : string) :
  NoDup (map Signal.id signals) ->
  existsb (fun signal => String.eqb (Signal.id signal) id
                         && isSeverity (Signal.severity signal) High) signals
  = isHigh (findSignal signals id).
Proof.
  intros Hnd.
  destruct (findSignal signals id) as [s |] eqn:E; cbn [isHigh].
  - apply (find_by_id _ _ _ Hnd) in E. destruct E as [Hin Hid].
    destruct (isSeverity (Signal.severity s) High) eqn:Hs.
    + apply existsb_exists. exists s. split; [exact Hin |].
      rewrite Hs, andb_true_r. apply String.eqb_eq. exact Hid.
    + apply not_true_is_false. intros H. apply existsb_exists in H.
      destruct H as (s' & Hin' & H). apply andb_prop in H.
      destruct H as [Hid' Hs']. apply String.eqb_eq in Hid'.
      assert (s' = s).
      { assert (F : findSignal signals id = Some s')
          by (apply find_by_id; auto).
        assert (F' : findSignal signals id = Some s)
          by (apply find_by_id; auto).
        congruence. }
      subst s'. congruence.
  - apply not_true_is_false. intros H. apply existsb_exists in H.
    destruct H as (s' & Hin' & H). apply andb_prop in H.
    destruct H as [Hid' _]. apply String.eqb_eq in Hid'.
    rewrite find_none_by_id in E. exact (E s' Hin' Hid').
Qed.

(** X15: when the signals have distinct ids, the three ways the module
    looks a signal up agree: the last signal with an id (the rule
    resolver's [Map]), the first one ([find]) and any one ([some]).  The
    bid assumptions are then the baseline list, then the flood clause when
    the signal the rule resolver reads for ["flood-zone"] is high, then the
    fire clause when the one it reads for ["wildfire-risk"] is high. *)
Theorem lookups_agree_on_distinct_ids (config : BidConfig.t)
    (signals : list Signal.t) :
  NoDup (map Signal.id signals) ->
  (forall id, matched signals id = findSignal signals id)
  /\ buildBidAssumptions config signals
     = BidConfig.baselineBidAssumptions config
       ++ (if isHigh (matched signals "flood-zone")
           then [BidConfig.highFlood config] else [])
       ++ (if isHigh (matched signals "wildfire-risk")
           then [BidConfig.highFire config] else []).
Proof.
  intros Hnd. split; [intros id; apply matched_is_first; exact Hnd |].
  unfold buildBidAssumptions.
  rewrite !some_high_by_id, !matched_is_first by exact Hnd.
  destruct (isHigh (findSignal signals "flood-zone")),
           (isHigh (findSignal signals "wildfire-risk"));
    rewrite <- ?app_assoc, ?app_nil_r; reflexivity.
Qed.

Lemma lookups_agree_on_distinct_ids_witness :
  matched Sample.signals "flood-zone" = findSignal Sample.signals "flood-zone".
Proof.
  apply (lookups_agree_on_distinct_ids
           (BidConfig.mk [] (BidAssumption.mk "" "" Assumption)
              (BidAssumption.mk "" "" Assumption)) Sample.signals).
  repeat constructor; simpl; intuition discriminate.
Defined.

(** ** The confidence score is monotone *)

(** The scorer in integer arithmetic. *)
Lemma scoreConfidence_closed (signals : list Signal.t)
    (warnings : list string) :
  let n := if Z.of_nat (List.length signals) =? 0 then 1
           else Z.of_nat (List.length signals) in
  let c := (200 * SpecConfidence.countKnown signals + n) / (2 * n) in
  let wp := Z.min (Z.of_nat (List.length warnings) * 6) 30 in
  scoreConfidence signals warnings
  = Confidence.mk (Z.max 35 ((1005 - 10 * wp - 4 * Z.max 0 (100 - c)) / 10)) c.
Proof.
  intros n c wp. unfold scoreConfidence. fold n wp.
  rewrite <- countKnown_filter.
  assert (Hn : 0 < n) by (unfold n; destruct (_ =? 0) eqn:E; lia).
  rewrite completeness_closed_form by exact Hn. fold c.
  rewrite score_closed_form. reflexivity.
Qed.

(** X21: a further warning never raises the confidence score and never
    changes the completeness; from five warnings on, further warnings
    change nothing. *)
Theorem scoreConfidence_warnings (signals : list Signal.t)
    (warnings warnings' : list string) :
  (List.length warnings <= List.length warnings')%nat ->
  let r := scoreConfidence signals warnings in
  let r' := scoreConfidence signals warnings' in
  Confidence.confidenceScore r' <= Confidence.confidenceScore r
  /\ Confidence.dataCompletenessPct r' = Confidence.dataCompletenessPct r
  /\ ((5 <= List.length warnings)%nat ->
      Confidence.confidenceScore r' = Confidence.confidenceScore r).
Proof.
  intros Hlen r r'. unfold r, r'. rewrite !scoreConfidence_closed.
  cbn [Confidence.confidenceScore Confidence.dataCompletenessPct].
  set (m := 4 * Z.max 0 (100 - _)).
  split; [| split; [reflexivity |]].
  - apply Z.max_le_compat_l. apply Z.div_le_mono; lia.
  - intros H5.
    replace (Z.min (Z.of_nat (List.length warnings') * 6) 30) with 30 by lia.
    replace (Z.min (Z.of_nat (List.length warnings) * 6) 30) with 30 by lia.
    reflexivity.
Qed.

Lemma scoreConfidence_warnings_witness :
  Confidence.confidenceScore
    (scoreConfidence Sample.signals ["a"; "b"]%string)
  <= Confidence.confidenceScore (scoreConfidence Sample.signals ["a"%string]).
Proof.
  apply (scoreConfidence_warnings Sample.signals ["a"%string]
           ["a"; "b"]%string).
  simpl. lia.
Defined.

(** X22: the completeness is between 0 and 100; between two signal lists
    of the same length, the one with more known values has the higher (or
    equal) completeness and the higher (or equal) confidence score. *)
Theorem scoreConfidence_known (signals signals' : list Signal.t)
    (warnings : list string) :
  List.length signals = List.length signals' ->
  SpecConfidence.countKnown signals <= SpecConfidence.countKnown signals' ->
  let r := scoreConfidence signals warnings in
  let r' := scoreConfidence signals' warnings in
  0 <= Confidence.dataCompletenessPct r <= 100
  /\ Confidence.dataCompletenessPct r <= Confidence.dataCompletenessPct r'
  /\ Confidence.confidenceScore r <= Confidence.confidenceScore r'.
Proof.
  intros Hlen Hk r r'. unfold r, r'. rewrite !scoreConfidence_closed.
  cbn [Confidence.confidenceScore Confidence.dataCompletenessPct].
  rewrite <- Hlen.
  set (n := if Z.of_nat (List.length signals) =? 0 then 1
            else Z.of_nat (List.length signals)).
  assert (Hn : 0 < n) by (unfold n; destruct (_ =? 0) eqn:E; lia).
  pose proof (countKnown_bounds signals) as Hb.
  assert (Hkn : SpecConfidence.countKnown signals <= n)
    by (unfold n; destruct (_ =? 0) eqn:E; lia).
  assert (Hc : (200 * SpecConfidence.countKnown signals + n) / (2 * n)
               <= (200 * SpecConfidence.countKnown signals' + n) / (2 * n))
    by (apply Z.div_le_mono; lia).
  split; [split |].
  - apply Z.div_pos; lia.
  - apply Z.lt_succ_r, Z.div_lt_upper_bound; lia.
  - split; [exact Hc |].
    apply Z.max_le_compat_l. apply Z.div_le_mono; lia.
Qed.

Lemma scoreConfidence_known_witness :
  Confidence.confidenceScore
    (scoreConfidence Sample.unknownSignals [])
  <= Confidence.confidenceScore
       (scoreConfidence [Sample.floodHigh; Sample.clayLow] []).
Proof.
  apply (scoreConfidence_known Sample.unknownSignals
           [Sample.floodHigh; Sample.clayLow] []).
  - reflexivity.
  - vm_compute. discriminate.
Defined.

(** ** The threshold classifiers *)

Lemma leb_cases (a b : R) :
  (Js.leb a b = true /\ (a <= b)%R) \/ (Js.leb a b = false /\ (b < a)%R).
Proof.
  unfold Js.leb. destruct (Rle_dec a b); [left | right]; split;
    try reflexivity; lra.
Qed.

(** X23: the classifiers of a measured value are monotone and never answer
    [unknown]: more clay, more slope, more wind or more snow never lowers
    the severity, and a deeper restrictive layer never raises it. *)
Theorem severity_thresholds_monotone (x y : R) :
  (x <= y)%R ->
  rankSeverity (severityFromClay (Some x))
  <= rankSeverity (severityFromClay (Some y))
  /\ rankSeverity (severityFromSlope (Some x))
     <= rankSeverity (severityFromSlope (Some y))
  /\ rankSeverity (severityFromRestrictiveDepth (Some y))
     <= rankSeverity (severityFromRestrictiveDepth (Some x))
  /\ rankSeverity (ofKey (severityFromWind (Some x)))
     <= rankSeverity (ofKey (severityFromWind (Some y)))
  /\ rankSeverity (ofKey (severityFromSnow (Some x)))
     <= rankSeverity (ofKey (severityFromSnow (Some y)))
  /\ severityFromClay (Some x) <> Unknown
  /\ severityFromSlope (Some x) <> Unknown
  /\ severityFromRestrictiveDepth (Some x) <> Unknown.
Proof.
  intros Hxy.
  unfold severityFromClay, severityFromSlope, severityFromRestrictiveDepth,
    severityFromWind, severityFromSnow.
  repeat split;
    repeat match goal with
      | |- context [Js.leb ?a ?b] =>
          let H := fresh in
          let E := fresh in
          destruct (leb_cases a b) as [[E H] | [E H]]; rewrite E
      end;
    simpl; try lia; try lra; try discriminate.
Qed.

Lemma severity_thresholds_monotone_witness :
  rankSeverity (severityFromClay (Some 10%R))
  <= rankSeverity (severityFromClay (Some 45%R)).
Proof.
  apply (severity_thresholds_monotone 10 45). lra.
Defined.

(** ** The first-generation signals *)

Lemma not_a_sentinel (text : string) :
  (text ++ " ft")%string <> "Not available"%string
  /\ (text ++ " ft")%string <> "Unknown"%string.
Proof.
  split; intros H;
    repeat (destruct text as [| ? text]; simpl in H;
            [discriminate | first [discriminate | injection H as _ H]]).
Qed.

Lemma countKnown_member (signals : list Signal.t) (s : Signal.t) :
  In s signals -> isKnown s = true -> 1 <= SpecConfidence.countKnown signals.
Proof.
  intros Hin Hk. rewrite countKnown_filter.
  assert (Hf : In s (filter isKnown signals))
    by (apply filter_In; split; assumption).
  destruct (filter isKnown signals); [destruct Hf | simpl; lia].
Qed.

Section FirstGeneration.

Variable toFixed : R -> Z -> string.
Variable numberToString : R -> string.

Lemma buildSignals_ids (args : SignalArgs.t) :
  map Signal.id (buildSignals toFixed numberToString args) = signalIds.
Proof. reflexivity. Qed.

Lemma signalIds_distinct : NoDup signalIds.
Proof.
  unfold signalIds.
  repeat (constructor; [simpl; intuition discriminate |]). constructor.
Qed.

Lemma severityFromSdc_known (sdc : option string) :
  severityFromSdc sdc <> Unknown.
Proof.
  unfold severityFromSdc. destruct sdc as [s |]; [| discriminate].
  destruct (String.eqb s ""); [discriminate |].
  destruct (existsb _ _); [discriminate |].
  destruct (String.eqb s "C"); discriminate.
Qed.

Lemma severityFromDrainageClass_known (value : option string) :
  severityFromDrainageClass value <> Unknown.
Proof.
  unfold severityFromDrainageClass. destruct value as [s |]; [| discriminate].
  destruct (String.eqb s ""); [discriminate |].
  destruct (_ || _); [discriminate |].
  destruct (_ || _); discriminate.
Qed.

Lemma severityFromHydroGroup_known (group : option string) :
  severityFromHydroGroup group <> Unknown.
Proof.
  unfold severityFromHydroGroup. destruct group as [s |]; [| discriminate].
  destruct (String.eqb s ""); [discriminate |].
  destruct (includes s "D"); [discriminate |].
  destruct (includes s "C"); discriminate.
Qed.

Lemma severity_of_number_known (value : option R) :
  severityFromClay value <> Unknown
  /\ severityFromRestrictiveDepth value <> Unknown
  /\ severityFromSlope value <> Unknown.
Proof.
  unfold severityFromClay, severityFromRestrictiveDepth, severityFromSlope.
  destruct value as [v |]; repeat split; try discriminate;
    repeat match goal with
      | |- context [Js.leb ?a ?b] => destruct (Js.leb a b)
      end; discriminate.
Qed.

(** X16: whatever the data, [buildSignals] returns the same eleven ids in
    the same order, all distinct, so that every lookup by id finds the one
    signal of that id; only the flood-zone signal can be of unknown
    severity. *)
Theorem buildSignals_shape (args : SignalArgs.t) :
  let signals := buildSignals toFixed numberToString args in
  map Signal.id signals = signalIds
  /\ NoDup (map Signal.id signals)
  /\ (forall id, matched signals id = findSignal signals id)
  /\ (forall s, In s signals -> Signal.severity s = Unknown ->
                Signal.id s = "flood-zone"%string).
Proof.
  intros signals.
  assert (Hnd : NoDup (map Signal.id signals))
    by (unfold signals; rewrite buildSignals_ids; apply signalIds_distinct).
  split; [reflexivity |]. split; [exact Hnd |].
  split; [intros id; apply matched_is_first; exact Hnd |].
  intros s Hin Hsev. unfold signals, buildSignals in Hin.
  repeat (destruct Hin as [<- | Hin]; [| ]); try destruct Hin;
    cbn [Signal.severity Signal.id] in *; try reflexivity; exfalso.
  - destruct (chain _ FEMAData.staticBfe); discriminate.
  - exact (severityFromSdc_known _ Hsev).
  - destruct (chain _ USGSDesignData.sds) as [v |];
      [destruct (Js.leb 1 v) |]; discriminate.
  - destruct (chain _ USGSDesignData.sd1) as [v |];
      [destruct (Js.leb (6 / 10) v) |]; discriminate.
  - exact (severityFromDrainageClass_known _ Hsev).
  - exact (severityFromHydroGroup_known _ Hsev).
  - exact (proj1 (severity_of_number_known _) Hsev).
  - exact (proj1 (proj2 (severity_of_number_known _)) Hsev).
  - exact (proj2 (proj2 (severity_of_number_known _)) Hsev).
  - destruct (chain _ FireHazardData.wildfireRisk) as [[] |]; discriminate.
Qed.

(** X17: the completeness of the first-generation signals is never below
    9: the base-flood-elevation signal always counts as known, its value
    being ["Not applicable"] or a number of feet, never a sentinel, even
    when no source answered. *)
Theorem buildSignals_completeness (args : SignalArgs.t)
    (warnings : list string) :
  9 <= Confidence.dataCompletenessPct
         (scoreConfidence (buildSignals toFixed numberToString args) warnings)
    <= 100.
Proof.
  rewrite scoreConfidence_closed.
  cbn [Confidence.dataCompletenessPct].
  set (signals := buildSignals toFixed numberToString args).
  assert (Hlen : Z.of_nat (List.length signals) = 11) by reflexivity.
  rewrite Hlen. cbn [Z.eqb].
  pose proof (countKnown_bounds signals) as Hb. rewrite Hlen in Hb.
  assert (Hk : 1 <= SpecConfidence.countKnown signals).
  { apply (countKnown_member signals (nth 1 signals Sample.floodHigh)).
    - right. left. reflexivity.
    - unfold signals, buildSignals. cbn [nth]. unfold isKnown.
      cbn [Signal.value].
      destruct (chain (SignalArgs.fema args) FEMAData.staticBfe) as [bfe |];
        [| reflexivity].
      destruct (not_a_sentinel (numberToString bfe)) as [H1 H2].
      apply String.eqb_neq in H1, H2. rewrite H1, H2. reflexivity. }
  split.
  - apply Z.div_le_lower_bound; lia.
  - apply Z.lt_succ_r, Z.div_lt_upper_bound; lia.
Qed.

End FirstGeneration.

(** ** Implications *)

Lemma buildImplications_titles (signals : list Signal.t) :
  map Implication.title (buildImplications signals)
  = match triggeredTitles signals with
    | [] => ["Baseline Controls"%string]
    | titles => titles
    end.
Proof.
  unfold buildImplications, triggeredTitles, implicationTriggers.
  cbn [flat_map fst snd].
  destruct (isHigh (findSignal signals "flood-zone")),
           (isHigh (findSignal signals "sdc")),
           (isHigh (findSignal signals "soil-drainage")),
           (isHigh (findSignal signals "clay")),
           (isHigh (findSignal signals "site-slope")),
           (isHigh (findSignal signals "wildfire-risk")); reflexivity.
Qed.

Lemma triggeredTitles_member (signals : list Signal.t) (id title : string) :
  In (id, title) implicationTriggers ->
  (In title (triggeredTitles signals)
   <-> isHigh (findSignal signals id) = true).
Proof.
  unfold triggeredTitles, implicationTriggers. cbn [flat_map fst snd].
  intros Hin.
  repeat (destruct Hin as [[= <- <-] | Hin]; [| ]); try destruct Hin;
    destruct (isHigh (findSignal signals "flood-zone")),
             (isHigh (findSignal signals "sdc")),
             (isHigh (findSignal signals "soil-drainage")),
             (isHigh (findSignal signals "clay")),
             (isHigh (findSignal signals "site-slope")),
             (isHigh (findSignal signals "wildfire-risk"));
    cbn [app In]; split; intros H; try reflexivity; try discriminate;
    auto 8; repeat (destruct H as [H | H]; try discriminate H); destruct H.
Qed.

(** X18: there is always at least one implication and at most six; an
    implication is listed exactly when the first signal with its trigger id
    is of high severity, and the baseline implication exactly when none of
    the six is. *)
Theorem buildImplications_shape (signals : list Signal.t) :
  let titles := map Implication.title (buildImplications signals) in
  (1 <= List.length (buildImplications signals) <= 6)%nat
  /\ (forall id title, In (id, title) implicationTriggers ->
        (In title titles <-> isHigh (findSignal signals id) = true))
  /\ (In "Baseline Controls"%string titles
      <-> forall id title, In (id, title) implicationTriggers ->
            isHigh (findSignal signals id) = false).
Proof.
  intros titles.
  assert (Hlen : List.length (buildImplications signals) = List.length titles)
    by (unfold titles; rewrite length_map; reflexivity).
  unfold titles in *. rewrite buildImplications_titles in *.
  assert (Hsix : (List.length (triggeredTitles signals) <= 6)%nat).
  { unfold triggeredTitles, implicationTriggers. cbn [flat_map fst snd].
    repeat match goal with
      | |- context [if ?b then _ else _] => destruct b
      end; simpl; lia. }
  assert (Hbase : ~ In "Baseline Controls"%string (triggeredTitles signals)).
  { unfold triggeredTitles, implicationTriggers. cbn [flat_map fst snd].
    repeat match goal with
      | |- context [if ?b then _ else _] => destruct b
      end; simpl; intuition discriminate. }
  split; [| split].
  - rewrite Hlen. destruct (triggeredTitles signals); simpl in *; lia.
  - intros id title Hin.
    rewrite <- (triggeredTitles_member signals id title Hin).
    destruct (triggeredTitles signals) as [| t r] eqn:E; [| reflexivity].
    split; [| intros []].
    intros [<- | []].
    unfold implicationTriggers in Hin.
    repeat (destruct Hin as [Hin | Hin]; [discriminate Hin |]). destruct Hin.
  - split.
    + intros Hin id title Htrig.
      destruct (isHigh (findSignal signals id)) eqn:E; [| reflexivity].
      apply (triggeredTitles_member signals id title Htrig) in E.
      destruct (triggeredTitles signals) as [| t r]; [destruct E |].
      destruct (Hbase Hin).
    + intros Hnone.
      destruct (triggeredTitles signals) as [| t r] eqn:E;
        [left; reflexivity |].
      exfalso.
      assert (Ht : In t (triggeredTitles signals)) by (rewrite E; left; reflexivity).
      unfold triggeredTitles in Ht. apply in_flat_map in Ht.
      destruct Ht as ([id title] & Htrig & Ht). cbn [fst snd] in Ht.
      rewrite (Hnone id title Htrig) in Ht. destruct Ht.
Qed.

Lemma implication_listed (signals : list Signal.t) (id title : string) :
  In (id, title) implicationTriggers ->
  (In title (map Implication.title (buildImplications signals))
   <-> isHigh (findSignal signals id) = true).
Proof.
  intros Hin. rewrite buildImplications_titles.
  rewrite <- (triggeredTitles_member signals id title Hin).
  destruct (triggeredTitles signals) as [| t r]; [| reflexivity].
  split; [| intros []]. intros [<- | []].
  unfold implicationTriggers in Hin.
  repeat (destruct Hin as [Hin | Hin]; [discriminate Hin |]). destruct Hin.
Qed.

Lemma isSeverity_High (s : Severity) : isSeverity s High = true <-> s = High.
Proof. destruct s; simpl; split; intros; congruence. Qed.

Section FromDataToImplications.

Variable toFixed : R -> Z -> string.
Variable numberToString : R -> string.

(** X19: from the data to the implications: the flood implication is
    listed exactly when the flood zone starts with A or V, the grading one
    exactly when the slope is known and at least 10, the expansive-soil one
    exactly when the clay content is known and at least 40, and the fire
    one exactly when the wildfire risk is high or very high. *)
Theorem implications_of_data (args : SignalArgs.t) :
  let titles :=
    map Implication.title
        (buildImplications (buildSignals toFixed numberToString args)) in
  (In "Flood Mitigation Budget"%string titles
   <-> exists zone,
         chain (SignalArgs.fema args) FEMAData.floodZone = Some zone
         /\ (startsWith zone "A" || startsWith zone "V") = true)
  /\ (In "Grading & Retaining"%string titles
      <-> exists slope,
            chain (SignalArgs.elevation args) ElevationSummary.slopePercent
            = Some slope /\ (10 <= slope)%R)
  /\ (In "Expansive Soil Controls"%string titles
      <-> exists clay,
            chain (SignalArgs.soils args) SoilData.clayPercent = Some clay
            /\ (40 <= clay)%R)
  /\ (In "Fire Defensibility & Insurance"%string titles
      <-> chain (SignalArgs.fire args) FireHazardData.wildfireRisk
          = Some RiskHigh
          \/ chain (SignalArgs.fire args) FireHazardData.wildfireRisk
             = Some RiskVeryHigh).
Proof.
  intros titles. unfold titles.
  set (signals := buildSignals toFixed numberToString args).
  split; [| split; [| split]].
  - rewrite (implication_listed signals "flood-zone") by (simpl; auto).
    change (isHigh (findSignal signals "flood-zone"))
      with (isSeverity
              (severityFromFloodZone
                 (chain (SignalArgs.fema args) FEMAData.floodZone)) High).
    rewrite isSeverity_High. unfold severityFromFloodZone.
    destruct (chain (SignalArgs.fema args) FEMAData.floodZone) as [zone |].
    + destruct (String.eqb zone "") eqn:Ez.
      * apply String.eqb_eq in Ez. subst zone. split; [discriminate |].
        intros (z & [= <-] & H). discriminate H.
      * destruct (startsWith zone "A" || startsWith zone "V") eqn:Eav.
        -- split; [| reflexivity]. intros _. exists zone. auto.
        -- split.
           ++ destruct (startsWith zone "X" || startsWith zone "B"
                        || startsWith zone "C"); discriminate.
           ++ intros (z & [= <-] & H). congruence.
    + split; [discriminate | intros (z & H & _); discriminate].
  - rewrite (implication_listed signals "site-slope") by (simpl; auto 8).
    change (isHigh (findSignal signals "site-slope"))
      with (isSeverity
              (severityFromSlope
                 (chain (SignalArgs.elevation args)
                    ElevationSummary.slopePercent)) High).
    rewrite isSeverity_High. unfold severityFromSlope.
    destruct (chain (SignalArgs.elevation args) ElevationSummary.slopePercent)
      as [slope |].
    + destruct (leb_cases 10 slope) as [[E H] | [E H]]; rewrite E.
      * split; [| reflexivity]. intros _. exists slope. auto.
      * split.
        -- destruct (Js.leb 5 slope); discriminate.
        -- intros (v & [= <-] & Hv). lra.
    + split; [discriminate | intros (v & H & _); discriminate].
  - rewrite (implication_listed signals "clay") by (simpl; auto 8).
    change (isHigh (findSignal signals "clay"))
      with (isSeverity
              (severityFromClay
                 (chain (SignalArgs.soils args) SoilData.clayPercent)) High).
    rewrite isSeverity_High. unfold severityFromClay.
    destruct (chain (SignalArgs.soils args) SoilData.clayPercent) as [clay |].
    + destruct (leb_cases 40 clay) as [[E H] | [E H]]; rewrite E.
      * split; [| reflexivity]. intros _. exists clay. auto.
      * split.
        -- destruct (Js.leb 25 clay); discriminate.
        -- intros (v & [= <-] & Hv). lra.
    + split; [discriminate | intros (v & H & _); discriminate].
  - rewrite (implication_listed signals "wildfire-risk") by (simpl; auto 8).
    change (isHigh (findSignal signals "wildfire-risk"))
      with (isSeverity
              (severityFromFireRisk
                 (chain (SignalArgs.fire args) FireHazardData.wildfireRisk))
              High).
    rewrite isSeverity_High.
    destruct (chain (SignalArgs.fire args) FireHazardData.wildfireRisk)
      as [[] |]; simpl; split; intros H; try discriminate; auto;
      destruct H; discriminate.
Qed.

End FromDataToImplications.

(** ** The fallback fire risk *)

Lemma ltb_disjoint (a b x : R) :
  (a <= b)%R -> Js.ltb x a && Js.ltb b x = false.
Proof.
  intros Hab.
  destruct (Js.ltb x a) eqn:E1; [| reflexivity].
  destruct (Js.ltb b x) eqn:E2; [| reflexivity].
  apply ltb_true in E1, E2. lra.
Qed.

(** X20: the state lookup answers ["CO"] exactly inside the Colorado box
    and ["US"] everywhere else, and nothing else: the longitude tests of the
    six other states cannot both hold.  The fallback wildfire risk is
    therefore medium in the Colorado box and low outside it, and the
    wildfire signal built from it is never of high severity. *)
Theorem fallback_fire_risk (lat lon : R) :
  let state := getStateFromCoordinates lat lon in
  let risk := getStateFireRisk state lat in
  let inColorado := ((-109 < lon < -105)%R /\ (37 < lat < 41)%R) in
  ((state = "CO"%string /\ risk = RiskMedium /\ inColorado)
   \/ (state = "US"%string /\ risk = RiskLow /\ ~ inColorado))
  /\ (inColorado -> state = "CO"%string /\ risk = RiskMedium)
  /\ (~ inColorado -> state = "US"%string /\ risk = RiskLow)
  /\ severityFromFireRisk (Some risk) <> High.
Proof.
  intros state risk inColorado.
  assert (Hcases :
            (state = "CO"%string /\ risk = RiskMedium /\ inColorado)
            \/ (state = "US"%string /\ risk = RiskLow /\ ~ inColorado)).
  { unfold risk, state, inColorado, getStateFromCoordinates.
    rewrite (ltb_disjoint (-124) (-117)) by lra.
    rewrite (ltb_disjoint (-120) (-116)) by lra.
    rewrite (ltb_disjoint (-119) (-114)) by lra.
    rewrite (ltb_disjoint (-109) (-103)) by lra.
    rewrite (ltb_disjoint (-100) (-94)) by lra.
    rewrite (ltb_disjoint (-95) (-80)) by lra.
    cbn [andb].
    destruct (Js.ltb lon (-105)) eqn:E1; cbn [andb];
      [destruct (Js.ltb (-109) lon) eqn:E2; cbn [andb];
       [destruct (Js.ltb lat 41) eqn:E3; cbn [andb];
        [destruct (Js.ltb 37 lat) eqn:E4 | ] | ] | ].
    - left. apply ltb_true in E1, E2, E3, E4.
      repeat split; try reflexivity; lra.
    - right. apply ltb_false in E4. repeat split; try reflexivity. lra.
    - right. apply ltb_false in E3. repeat split; try reflexivity. lra.
    - right. apply ltb_false in E2. repeat split; try reflexivity. lra.
    - right. apply ltb_false in E1. repeat split; try reflexivity. lra. }
  split; [exact Hcases |].
  destruct Hcases as [[Hs [Hr Hin]] | [Hs [Hr Hout]]].
  - repeat split; try assumption; try contradiction.
    rewrite Hr. vm_compute. discriminate.
  - repeat split; try assumption; try contradiction.
    rewrite Hr. vm_compute. discriminate.
Qed.

(** ** CSV fields *)

Lemma includes_head (c : ascii) (rest : string) :
  includes (String c rest) quote = false -> Ascii.eqb c "034" = false.
Proof.
  cbn [includes]. unfold quote. cbn [String.prefix].
  destruct (ascii_dec "034" c) as [<- | Hne].
  - destruct rest; discriminate.
  - intros _. apply Ascii.eqb_neq. congruence.
Qed.

Lemma unquote_doubled (text : string) :
  unquoteBody (doubleQuotes text ++ quote) = text.
Proof.
  induction text as [| c rest IH]; [reflexivity |].
  cbn [doubleQuotes]. destruct (Ascii.eqb c "034") eqn:E.
  - apply Ascii.eqb_eq in E. subst c.
    cbn [String.append unquoteBody Ascii.eqb Bool.eqb andb].
    rewrite IH. reflexivity.
  - cbn [String.append unquoteBody]. rewrite E, IH. reflexivity.
Qed.

(** X24: escaping is lossless: reading an escaped field back by the CSV
    quoting rule gives the text, so two different texts never have the same
    escaped form; a text without comma, line feed and double quote is
    written as it is, any other text between double quotes. *)
Theorem escapeCsv_round_trip (text text' : string) :
  readCsvField (escapeCsv text) = text
  /\ (escapeCsv text = escapeCsv text' -> text = text')
  /\ ((includes text "," || includes text newline || includes text quote)
      = false -> escapeCsv text = text)
  /\ ((includes text "," || includes text newline || includes text quote)
      = true -> escapeCsv text = (quote ++ doubleQuotes text ++ quote)%string).
Proof.
  assert (Hrt : forall t, readCsvField (escapeCsv t) = t).
  { intros t. unfold escapeCsv.
    destruct (includes t "," || includes t newline || includes t quote) eqn:E.
    - unfold quote at 1. cbn [String.append readCsvField Ascii.eqb Bool.eqb andb].
      apply unquote_doubled.
    - apply orb_false_elim in E. destruct E as [_ Eq].
      destruct t as [| c rest]; [reflexivity |].
      cbn [readCsvField]. rewrite (includes_head c rest Eq). reflexivity. }
  split; [apply Hrt |]. split; [| split].
  - intros H. rewrite <- (Hrt text), <- (Hrt text'), H. reflexivity.
  - intros E. unfold escapeCsv. rewrite E. reflexivity.
  - intros E. unfold escapeCsv. rewrite E. reflexivity.
Qed.

Lemma escapeCsv_round_trip_witness :
  readCsvField (escapeCsv "Sitework, drainage") = "Sitework, drainage"%string
  /\ escapeCsv "Sitework, drainage"
     = (quote ++ doubleQuotes "Sitework, drainage" ++ quote)%string.
Proof.
  pose proof (escapeCsv_round_trip "Sitework, drainage" "Sitework, drainage")
    as [Hread [_ [_ Hquoted]]].
  split; [exact Hread | apply Hquoted; reflexivity].
Defined.

(** ** Drainage classes *)

Lemma lowerCodeUnit_idempotent (c : ascii) :
  lowerCodeUnit (lowerCodeUnit c) = lowerCodeUnit c.
Proof.
  destruct c as [[] [] [] [] [] [] [] []]; vm_compute; reflexivity.
Qed.

Lemma toLowerCase_idempotent (s : string) :
  toLowerCase (toLowerCase s) = toLowerCase s.
Proof.
  induction s as [| c rest IH]; [reflexivity |].
  cbn [toLowerCase]. rewrite lowerCodeUnit_idempotent, IH. reflexivity.
Qed.

Lemma toLowerCase_empty (s : string) :
  String.eqb (toLowerCase s) "" = String.eqb s "".
Proof. destruct s; reflexivity. Qed.

Lemma includes_tail (c : ascii) (rest sub : string) :
  includes rest sub = true -> includes (String c rest) sub = true.
Proof.
  intros H. cbn [includes]. rewrite H. apply orb_true_r.
Qed.

(** A string that contains "very poor" contains "poor". *)
Lemma includes_very_poor (s : string) :
  includes s "very poor" = true -> includes s "poor" = true.
Proof.
  induction s as [| c rest IH]; [discriminate |].
  intros H. cbn [includes] in H. apply orb_prop in H.
  destruct H as [H | H]; [| apply includes_tail, IH; exact H].
  clear IH.
  assert (Hp : exists tail,
             String c rest = ("very " ++ String "p" (String "o" (String "o"
                                (String "r" tail))))%string).
  { cbn [String.prefix] in H.
    repeat match type of H with
      | match ascii_dec ?a ?b with _ => _ end = true =>
          destruct (ascii_dec a b) as [<- |]; [| discriminate H]
      | String.prefix (String _ _) ?t = true =>
          destruct t as [| ? ?]; [discriminate H |]; cbn [String.prefix] in H
      end.
    eexists. reflexivity. }
  destruct Hp as (tail & ->).
  do 5 apply includes_tail.
  cbn [includes String.prefix].
  destruct (ascii_dec "p" "p") as [_ | N]; [| congruence].
  destruct (ascii_dec "o" "o") as [_ | N]; [| congruence].
  destruct (ascii_dec "r" "r") as [_ | N]; [| congruence].
  destruct tail; reflexivity.
Qed.

(** X25: the drainage class is read without regard to case, and is high
    exactly when it is not empty and contains "poor" (the separate test for
    "very poor" adds nothing): a class that contains "poor" is high even
    when it also contains "somewhat" or "moderate". *)
Theorem severityFromDrainageClass_poor (value : string) :
  severityFromDrainageClass (Some (toLowerCase value))
  = severityFromDrainageClass (Some value)
  /\ (severityFromDrainageClass (Some value) = High
      <-> value <> ""%string /\ includes (toLowerCase value) "poor" = true).
Proof.
  unfold severityFromDrainageClass.
  rewrite toLowerCase_empty, toLowerCase_idempotent.
  split; [reflexivity |].
  destruct (String.eqb value "") eqn:Ev.
  - apply String.eqb_eq in Ev. split; [discriminate | intros [H _]; congruence].
  - apply String.eqb_neq in Ev.
    destruct (includes (toLowerCase value) "poor") eqn:Ep.
    + cbn [orb]. split; [auto | reflexivity].
    + destruct (includes (toLowerCase value) "very poor") eqn:Evp.
      * apply includes_very_poor in Evp. congruence.
      * cbn [orb]. split; [| intros [_ H]; discriminate H].
        destruct (_ || _); discriminate.
Qed.

(** ** The second-generation signals *)

Lemma severityFromScore_high (score low : Z) :
  ofKey (severityFromScore score low) = High <-> 3 <= score.
Proof.
  unfold severityFromScore.
  destruct (3 <=? score) eqn:E; [apply Z.leb_le in E | apply Z.leb_gt in E].
  - split; [intros _; exact E | reflexivity].
  - split; [| lia]. destruct (low <=? score); discriminate.
Qed.

Lemma some_high (s : Severity) : Some s = Some High <-> s = High.
Proof. split; [intros [= ->] | intros ->]; reflexivity. Qed.

Section SecondGeneration.

Variable toFixed : R -> Z -> string.

(** X26: whatever the data, [buildAdvancedSignals] returns the same six
    ids in the same order and no signal of unknown severity.  The wetland
    signal is high only in a flood zone A or V; the permitting signal is
    high exactly in a major metro inside such a zone; the utility signal is
    high exactly outside every metro box; the logistics signal is high only
    with a known slope of at least 4. *)
Theorem buildAdvancedSignals_shape (args : AdvancedArgs.t) :
  let signals := buildAdvancedSignals toFixed args in
  map Signal.id signals = advancedSignalIds
  /\ Forall (fun s => Signal.severity s <> Unknown) signals
  /\ (severityOf signals "wetland-constraint-proxy" = Some High ->
      inFloodZone args = true)
  /\ (severityOf signals "permitting-complexity-proxy" = Some High
      <-> metroClass (AdvancedArgs.point args) = MajorMetro
          /\ inFloodZone args = true)
  /\ (severityOf signals "utility-capacity-proxy" = Some High
      <-> metroClass (AdvancedArgs.point args) = NonMetro)
  /\ (severityOf signals "logistics-access-proxy" = Some High ->
      exists slope,
        chain (AdvancedArgs.elevation args) ElevationSummary.slopePercent
        = Some slope /\ (4 <= slope)%R).
Proof.
  intros signals. split; [reflexivity |]. split; [| split; [| split; [| split]]].
  - unfold signals, buildAdvancedSignals.
    repeat constructor; cbn [Signal.severity];
      match goal with |- ofKey ?k <> Unknown => destruct k; discriminate end.
  - change (severityOf signals "wetland-constraint-proxy")
      with (Some (ofKey (severityFromScore (wetlandScore args) 2))).
    rewrite some_high, severityFromScore_high. unfold wetlandScore.
    destruct (inFloodZone args); [reflexivity |].
    destruct (includes _ "D"), (includes _ "poor"); lia.
  - change (severityOf signals "permitting-complexity-proxy")
      with (Some (ofKey (severityFromScore (permitScore args) 1))).
    rewrite some_high, severityFromScore_high. unfold permitScore.
    destruct (metroClass (AdvancedArgs.point args)), (inFloodZone args);
      split; intros H; try lia; try (split; reflexivity);
      destruct H; discriminate.
  - change (severityOf signals "utility-capacity-proxy")
      with (Some (ofKey (utilitySeverity
                           (metroClass (AdvancedArgs.point args))))).
    rewrite some_high.
    destruct (metroClass (AdvancedArgs.point args)); simpl;
      split; intros H; try discriminate; reflexivity.
  - change (severityOf signals "logistics-access-proxy")
      with (Some (ofKey (severityFromScore (logisticsScore args) 1))).
    rewrite some_high, severityFromScore_high. unfold logisticsScore.
    destruct (chain (AdvancedArgs.elevation args) ElevationSummary.slopePercent)
      as [slope |].
    + destruct (leb_cases 8 slope) as [[E H] | [E H]]; rewrite E.
      * intros _. exists slope. split; [reflexivity | lra].
      * destruct (leb_cases 4 slope) as [[E' H'] | [E' H']]; rewrite E'.
        -- intros _. exists slope. split; [reflexivity | lra].
        -- destruct (isKeyHigh _), (isKeyHigh _); lia.
    + destruct (isKeyHigh _), (isKeyHigh _); lia.
Qed.

End SecondGeneration.

Lemma buildAdvancedSignals_shape_witness :
  severityOf
    (buildAdvancedSignals (fun _ _ => ""%string)
       (AdvancedArgs.mk (GeoPoint.mk 42 (-93)) None None None None))
    "utility-capacity-proxy" = Some High.
Proof.
  apply (buildAdvancedSignals_shape (fun _ _ => ""%string)
           (AdvancedArgs.mk (GeoPoint.mk 42 (-93)) None None None None)).
  unfold metroClass, majorBoxes, metroBoxes, inBox.
  cbn [existsb fst snd GeoPoint.lat GeoPoint.lon AdvancedArgs.point].
  repeat match goal with
    | |- context [Js.leb ?a ?b] =>
        let H := fresh in
        let E := fresh in
        destruct (leb_cases a b) as [[E H] | [E H]]; rewrite E;
        cbn [andb orb]; try lra
    end;
    reflexivity.
Defined.

(** ** The order of the signals *)

Lemma findSignal_perm (signals signals' : list Signal.t) (id : string) :
  NoDup (map Signal.id signals) -> Permutation signals signals' ->
  findSignal signals id = findSignal signals' id.
Proof.
  intros Hnd Hperm.
  assert (Hnd' : NoDup (map Signal.id signals')).
  { eapply Permutation_NoDup; [apply Permutation_map; exact Hperm | exact Hnd]. }
  destruct (findSignal signals' id) as [s |] eqn:E.
  - apply (find_by_id _ _ _ Hnd') in E. apply (find_by_id _ _ _ Hnd).
    destruct E as [Hin Hid]. split; [| exact Hid].
    eapply Permutation_in; [symmetry |]; eassumption.
  - apply find_none_by_id. intros s Hin.
    rewrite find_none_by_id in E. apply E.
    eapply Permutation_in; eassumption.
Qed.

Lemma mapM_ext {A B : Type} (f g : A -> Js.result B) (l : list A) :
  (forall x, f x = g x) -> mapM f l = mapM g l.
Proof.
  intros H. induction l as [| x r IH]; [reflexivity |].
  cbn [mapM]. rewrite H, IH. reflexivity.
Qed.

(** X27: when the signals have distinct ids, their order has no influence
    on the cost drivers: a rearranged signal list gives the same result,
    drivers and exception alike. *)
Theorem buildCostDrivers_order_free (config : Config.t)
    (signals signals' : list Signal.t) :
  NoDup (map Signal.id signals) -> Permutation signals signals' ->
  buildCostDrivers config signals = buildCostDrivers config signals'.
Proof.
  intros Hnd Hperm.
  assert (Hnd' : NoDup (map Signal.id signals')).
  { eapply Permutation_NoDup; [apply Permutation_map; exact Hperm | exact Hnd]. }
  unfold buildCostDrivers. f_equal. apply mapM_ext. intros rule.
  unfold resolveRule. rewrite !byId_get.
  rewrite (matched_is_first _ _ Hnd), (matched_is_first _ _ Hnd').
  rewrite (findSignal_perm _ _ _ Hnd Hperm). reflexivity.
Qed.

Lemma buildCostDrivers_order_free_witness :
  buildCostDrivers Sample.config Sample.signals
  = buildCostDrivers Sample.config (rev Sample.signals).
Proof.
  apply (buildCostDrivers_order_free Sample.config Sample.signals
           (rev Sample.signals)).
  - repeat constructor; simpl; intuition discriminate.
  - apply Permutation_rev.
Defined.
